(** * ACI 318 beam analysis engine (beamCalculations.ts), embedded in Rocq.

  A JavaScript [number] is an IEEE 754 binary64 value, so the engine is
  modelled over Rocq's primitive [float] type: every arithmetic operation
  below is the correctly rounded binary64 operation the JavaScript runtime
  performs, decimal literals denote the nearest binary64 value, and the
  comparisons are the IEEE ones (false as soon as one side is NaN). *)

From Stdlib Require Import Reals ROrderedType Lra Psatz Zfloor.
From Stdlib Require Import Floats ZArith Bool List String Ascii Lia DecimalString.
Import ListNotations.

Set Warnings "-inexact-float".

Open Scope float_scope.

(** ** Operators of the JavaScript runtime *)

Module JS.

(** [x >= y] and [x > y]. *)
Definition geb (x y : float) : bool := y <=? x.
Definition gtb (x y : float) : bool := y <? x.

(** The global [isNaN] on a number. *)
Definition isNaN (x : float) : bool := is_nan x.

(** The constant [Infinity]. *)
Definition Infinity : float := infinity.

(** [x] is the value [-0]. *)
Definition is_neg_zero (x : float) : bool := is_zero x && get_sign x.

(** [Math.max(x, y)]: NaN as soon as one argument is NaN, and [+0] is
    larger than [-0]. *)
Definition Math_max (x y : float) : float :=
  if is_nan x || is_nan y then nan
  else if x <? y then y
  else if y <? x then x
  else if is_neg_zero x then y else x.

(** [Math.sqrt]. *)
Definition Math_sqrt (x : float) : float := sqrt x.

End JS.

Infix ">=?" := JS.geb (at level 70, no associativity) : float_scope.
Infix ">?" := JS.gtb (at level 70, no associativity) : float_scope.

(** ** Data model (types/beam.ts) *)

Record BeamInput : Set := mkBeamInput {
  b : float;
  h : float;
  d : float;
  d_prime : float;
  fc : float;
  fy : float;
  Es : float;
  As : float;
  As_prime : float
}.

Inductive SectionType : Set :=
  | TensionControlled
  | Transition
  | CompressionControlled.

Record BeamResults : Set := mkBeamResults {
  beta1 : float;
  a : float;
  c : float;
  epsilon_t : float;
  epsilon_y : float;
  epsilon_cu : float;
  rho : float;
  rho_b : float;
  rho_max : float;
  rho_min : float;
  Mn : float;
  Mn_kip_ft : float;
  phi : float;
  phiMn : float;
  phiMn_kip_ft : float;
  sectionType : SectionType;
  isAdequatelyReinforced : bool;
  isNotOverReinforced : bool;
  steelYields : bool;
  warnings : list string
}.

Definition DEFAULT_BEAM_INPUT : BeamInput :=
  {| b := 12; h := 24; d := 21.5; d_prime := 2.5;
   fc := 4000; fy := 60000; Es := 29000000;
   As := 3.0; As_prime := 0 |}.

Definition SectionType_eqb (s t : SectionType) : bool :=
  match s, t with
  | TensionControlled, TensionControlled => true
  | Transition, Transition => true
  | CompressionControlled, CompressionControlled => true
  | _, _ => false
  end.

(** ** The formula functions (utils/beamCalculations.ts) *)

Definition EPSILON_CU : float := 0.003.

Definition calculateBeta1 (fc : float) : float :=
if fc <=? 4000 then 0.85
else
  let beta1 := 0.85 - 0.05 * ((fc - 4000) / 1000) in
  JS.Math_max beta1 0.65.

Definition calculateEpsilonY (fy Es : float) : float := fy / Es.

Definition calculateStressBlockDepth (As fy fc b : float) : float :=
(As * fy) / (0.85 * fc * b).

Definition calculateNeutralAxisDepth (a beta1 : float) : float := a / beta1.

Definition calculateTensionStrain (d c epsilon_cu : float) : float :=
if c <=? 0 then JS.Infinity
else epsilon_cu * (d - c) / c.

Definition calculatePhi (epsilon_t epsilon_y : float) : float :=
if epsilon_t >=? 0.005 then 0.90
else if epsilon_t <=? epsilon_y then 0.65
else 0.65 + 0.25 * (epsilon_t - epsilon_y) / (0.005 - epsilon_y).

Definition classifySection (epsilon_t epsilon_y : float) : SectionType :=
if epsilon_t >=? 0.005 then TensionControlled
else if epsilon_t <=? epsilon_y then CompressionControlled
else Transition.

Definition calculateRhoBalanced (fc fy beta1 epsilon_y epsilon_cu : float) : float :=
(0.85 * beta1 * fc / fy) * (epsilon_cu / (epsilon_cu + epsilon_y)).

Definition calculateRhoMax (fc fy beta1 epsilon_cu : float) : float :=
let epsilon_t_min := 0.004 in
(0.85 * beta1 * fc / fy) * (epsilon_cu / (epsilon_cu + epsilon_t_min)).

Definition calculateRhoMin (fc fy : float) : float :=
let rho1 := (3 * JS.Math_sqrt fc) / fy in
let rho2 := 200 / fy in
JS.Math_max rho1 rho2.

Definition calculateMn (As fy d a : float) : float := As * fy * (d - a / 2).

Definition convertToKipFt (moment_lb_in : float) : float :=
moment_lb_in / (1000 * 12).

Record RequiredSteel : Set := mkRequiredSteel {
  As_required : float;
  isValid : bool;
  message : string
}.

(** ** The orchestrator and the solver

  [Number.prototype.toFixed] belongs to the JavaScript runtime, not to the
  repository; the two messages that embed formatted ratios take it as a
  parameter [toFixed x digits]. *)

Section Engine.

Variable toFixed : float -> nat -> string.

Local Infix "+++" := String.append (right associativity, at level 60).

Definition msg_no_yield : string :=
  "Warning: Tension steel does not yield at ultimate. Section is over-reinforced."%string.

Definition msg_below_min (rho rho_min : float) : string :=
  "Warning: Reinforcement ratio (" +++ toFixed (rho * 100) 3
    +++ "%) is less than minimum (" +++ toFixed (rho_min * 100) 3
    +++ "%). Per ACI 318, As,min requirements may govern.".

Definition msg_above_max (rho rho_max : float) : string :=
  "Warning: Reinforcement ratio (" +++ toFixed (rho * 100) 3
    +++ "%) exceeds maximum (" +++ toFixed (rho_max * 100) 3
    +++ "%). Section may not have adequate ductility.".

Definition msg_compression : string :=
  "Warning: Section is compression-controlled. Consider reducing reinforcement for better ductility."%string.

Definition msg_transition : string :=
  "Note: Section is in the transition zone between tension and compression controlled."%string.

Definition msg_block_depth : string :=
  "Error: Stress block depth exceeds effective depth. Check input values."%string.

Definition msg_neutral_axis : string :=
  "Error: Neutral axis is at or below tension steel. Invalid configuration."%string.

(** [if (cond) warnings.push(msg)] on the list built so far. *)
Definition push_if (cond : bool) (msg : string) (warnings : list string)
  : list string :=
  if cond then warnings ++ [msg] else warnings.

Definition analyzeBeam (input : BeamInput) : BeamResults :=
  let b := input.(b) in
  let d := input.(d) in
  let fc := input.(fc) in
  let fy := input.(fy) in
  let Es := input.(Es) in
  let As := input.(As) in
  let warnings : list string := [] in
  let beta1 := calculateBeta1 fc in
  let epsilon_y := calculateEpsilonY fy Es in
  let a := calculateStressBlockDepth As fy fc b in
  let c := calculateNeutralAxisDepth a beta1 in
  let epsilon_t := calculateTensionStrain d c EPSILON_CU in
  let phi := calculatePhi epsilon_t epsilon_y in
  let sectionType := classifySection epsilon_t epsilon_y in
  let rho := As / (b * d) in
  let rho_b := calculateRhoBalanced fc fy beta1 epsilon_y EPSILON_CU in
  let rho_max := calculateRhoMax fc fy beta1 EPSILON_CU in
  let rho_min := calculateRhoMin fc fy in
  let Mn := calculateMn As fy d a in
  let phiMn := phi * Mn in
  let steelYields := epsilon_t >=? epsilon_y in
  let isAdequatelyReinforced := rho >=? rho_min in
  let isNotOverReinforced := rho <=? rho_max in
  let warnings := push_if (negb steelYields) msg_no_yield warnings in
  let warnings :=
    push_if (negb isAdequatelyReinforced) (msg_below_min rho rho_min) warnings in
  let warnings :=
    push_if (negb isNotOverReinforced) (msg_above_max rho rho_max) warnings in
  let warnings :=
    push_if (SectionType_eqb sectionType CompressionControlled)
            msg_compression warnings in
  let warnings :=
    push_if (SectionType_eqb sectionType Transition) msg_transition warnings in
  let warnings := push_if (a >? d) msg_block_depth warnings in
  let warnings := push_if (c >=? d) msg_neutral_axis warnings in
  {| beta1 := beta1;
     a := a;
     c := c;
     epsilon_t := epsilon_t;
     epsilon_y := epsilon_y;
     epsilon_cu := EPSILON_CU;
     rho := rho;
     rho_b := rho_b;
     rho_max := rho_max;
     rho_min := rho_min;
     Mn := Mn;
     Mn_kip_ft := convertToKipFt Mn;
     phi := phi;
     phiMn := phiMn;
     phiMn_kip_ft := convertToKipFt phiMn;
     sectionType := sectionType;
     isAdequatelyReinforced := isAdequatelyReinforced;
     isNotOverReinforced := isNotOverReinforced;
     steelYields := steelYields;
     warnings := warnings |}.

Definition msg_cannot_carry : string :=
  "Section cannot carry the applied moment. Increase section size."%string.

Definition msg_exceeds_max (rho_required rho_max : float) : string :=
  "Required reinforcement ratio (" +++ toFixed (rho_required * 100) 3
    +++ "%) exceeds maximum (" +++ toFixed (rho_max * 100) 3 +++ "%).".

(** The radicand [1 - (2 * R_n) / (0.85 * fc)] of the solver and the ratio
    it yields, named so that statements can refer to them. *)
Definition required_R_n (Mu b d : float) : float :=
  let phi := 0.9 in
  Mu / (phi * b * d * d).

Definition required_radicand (Mu b d fc : float) : float :=
  1 - (2 * required_R_n Mu b d) / (0.85 * fc).

Definition required_rho (Mu b d fc fy : float) : float :=
  (0.85 * fc / fy) * (1 - JS.Math_sqrt (required_radicand Mu b d fc)).

Definition calculateRequiredSteel (Mu b d fc fy : float) : RequiredSteel :=
  let rho_required := required_rho Mu b d fc fy in
  if JS.isNaN rho_required || (rho_required <? 0) then
    {| As_required := 0; isValid := false; message := msg_cannot_carry |}
  else
    let As_required := rho_required * b * d in
    let rho_max := calculateRhoMax fc fy (calculateBeta1 fc) EPSILON_CU in
    if rho_required >? rho_max then
      {| As_required := As_required; isValid := false;
         message := msg_exceeds_max rho_required rho_max |}
    else
      {| As_required := As_required; isValid := true; message := "OK"%string |}.

End Engine.

(** ** A positional formatter to run the engine on examples

    [Number.prototype.toFixed] as ECMAScript defines it on NaN, on the
    infinities and on finite values below 1e21 in magnitude: the integer [n]
    nearest to [|x| * 10^digits] (the larger one on a tie) printed with
    [digits] decimals, after a minus sign when [x < 0].  (From 1e21 on the
    runtime prints in exponent notation; those values are not used below.) *)

Fixpoint zeros (k : nat) : string :=
  match k with
  | O => EmptyString
  | S k' => String "0" (zeros k')
  end.

Definition toFixed_digits (n : N) (digits : nat) : string :=
  let m := NilEmpty.string_of_uint (N.to_uint n) in
  let m :=
    if (String.length m <=? digits)%nat
    then String.append (zeros (digits + 1 - String.length m)) m else m in
  let k := String.length m in
  match digits with
  | O => m
  | _ => String.append (substring 0 (k - digits) m)
                       (String "." (substring (k - digits) digits m))
  end.

Definition scaled_nearest (m : positive) (e : Z) (digits : nat) : N :=
  let scaled := (Z.pos m * 10 ^ Z.of_nat digits)%Z in
  match e with
  | Zneg p => Z.to_N ((2 * scaled + 2 ^ Z.pos p) / 2 ^ (Z.pos p + 1))
  | _ => Z.to_N (scaled * 2 ^ e)
  end.

Definition toFixed_positional (x : float) (digits : nat) : string :=
  match Prim2SF x with
  | S754_nan => "NaN"%string
  | S754_infinity false => "Infinity"%string
  | S754_infinity true => "-Infinity"%string
  | S754_zero _ => toFixed_digits 0 digits
  | S754_finite s m e =>
      String.append (if s then "-"%string else EmptyString)
                    (toFixed_digits (scaled_nearest m e digits) digits)
  end.

(** The last two characters of a string (the string itself when shorter). *)
Fixpoint last2 (s : string) : string :=
  match s with
  | String _ (String _ (String _ _) as t) => last2 t
  | _ => s
  end.

(** ** Callers of the engine

    The code around [analyzeBeam]: the number formatter of the same file,
    the effect of App.tsx that decides when the engine runs, the list items
    of ResultsDisplay.tsx, the summary of pdfExport.ts and the bar sketch of
    BeamVisualization.tsx. *)

(** The global [isFinite] on a number. *)
Definition isFinite (x : float) : bool :=
  negb (is_nan x) && negb (is_infinity x).

(** [Math.min(x, y)]: NaN as soon as one argument is NaN, and [-0] is
    smaller than [+0]. *)
Definition Math_min (x y : float) : float :=
  if is_nan x || is_nan y then nan
  else if x <? y then x
  else if y <? x then y
  else if JS.is_neg_zero x then x else y.

Section Callers.

Variable toFixed : float -> nat -> string.

(** [Math.round] is left to the runtime. *)
Variable Math_round : float -> float.

(** beamCalculations.ts, [formatNumber]. *)
Definition formatNumber (value : float) (decimals : nat) : string :=
  if negb (isFinite value) then "N/A"%string else toFixed value decimals.

(** App.tsx: the results the effect stores for an input ([null] is [None]). *)
Definition App_results (input : BeamInput) : option BeamResults :=
  if (input.(b) >? 0) && (input.(h) >? 0) && (input.(d) >? 0)
     && (input.(d) <=? input.(h)) && (input.(fc) >? 0) && (input.(fy) >? 0)
     && (input.(Es) >? 0) && (input.(As) >? 0)
  then Some (analyzeBeam toFixed input)
  else None.

(** ResultsDisplay.tsx: the class of the list item of a warning. *)
Definition warning_class (warning : string) : string :=
  if String.prefix "Error" warning then "error"%string else "warning"%string.

(** pdfExport.ts, [drawSummary]: the flag behind ALL CODE CHECKS PASSED and
    the status line. *)
Definition allPassed (results : BeamResults) : bool :=
  results.(isAdequatelyReinforced) && results.(isNotOverReinforced)
  && results.(steelYields).

Definition statusText (results : BeamResults) : string :=
  match results.(sectionType) with
  | TensionControlled => "SECTION IS TENSION-CONTROLLED (phi = 0.90)"%string
  | Transition =>
      String.append "SECTION IN TRANSITION ZONE (phi = "
        (String.append (formatNumber results.(phi) 3) ")")
  | CompressionControlled =>
      "SECTION IS COMPRESSION-CONTROLLED (phi = 0.65)"%string
  end.

(** BeamVisualization.tsx: radius and number of the bars in the sketch. *)
Definition barRadius (As : float) : float :=
  JS.Math_max 4 (Math_min 10 (JS.Math_sqrt As * 4)).

Definition numBars (As : float) : float :=
  Math_min 5 (JS.Math_max 2 (Math_round (As / 0.5))).

(** BeamVisualization.tsx: the distance between two bars of the sketch, for
    the scaled beam width [beamW]. *)
Definition barSpacing (beamW As : float) : float :=
  (beamW - 2 * barRadius As - 20) / (numBars As - 1).

End Callers.

(** An input without tension steel. *)
Definition input_no_steel : BeamInput :=
  {| b := 12; h := 24; d := 21.5; d_prime := 2.5; fc := 4000; fy := 60000;
     Es := 29000000; As := 0; As_prime := 0 |}.

(** ** The input form (components/InputForm.tsx) *)

(** [keyof BeamInput]. *)
Inductive Field : Set :=
  | F_b | F_h | F_d | F_d_prime | F_fc | F_fy | F_Es | F_As | F_As_prime.

(** [input[field]]. *)
Definition get_field (field : Field) (input : BeamInput) : float :=
  match field with
  | F_b => input.(b) | F_h => input.(h) | F_d => input.(d)
  | F_d_prime => input.(d_prime) | F_fc => input.(fc) | F_fy => input.(fy)
  | F_Es => input.(Es) | F_As => input.(As) | F_As_prime => input.(As_prime)
  end.

(** [handleChange]: the object [{ ...input, [field]: value }] handed to
    [onChange]. *)
Definition handleChange (input : BeamInput) (field : Field) (value : float)
  : BeamInput :=
  match field with
  | F_b => {| b := value; h := input.(h); d := input.(d);
              d_prime := input.(d_prime); fc := input.(fc); fy := input.(fy);
              Es := input.(Es); As := input.(As); As_prime := input.(As_prime) |}
  | F_h => {| b := input.(b); h := value; d := input.(d);
              d_prime := input.(d_prime); fc := input.(fc); fy := input.(fy);
              Es := input.(Es); As := input.(As); As_prime := input.(As_prime) |}
  | F_d => {| b := input.(b); h := input.(h); d := value;
              d_prime := input.(d_prime); fc := input.(fc); fy := input.(fy);
              Es := input.(Es); As := input.(As); As_prime := input.(As_prime) |}
  | F_d_prime => {| b := input.(b); h := input.(h); d := input.(d);
              d_prime := value; fc := input.(fc); fy := input.(fy);
              Es := input.(Es); As := input.(As); As_prime := input.(As_prime) |}
  | F_fc => {| b := input.(b); h := input.(h); d := input.(d);
              d_prime := input.(d_prime); fc := value; fy := input.(fy);
              Es := input.(Es); As := input.(As); As_prime := input.(As_prime) |}
  | F_fy => {| b := input.(b); h := input.(h); d := input.(d);
              d_prime := input.(d_prime); fc := input.(fc); fy := value;
              Es := input.(Es); As := input.(As); As_prime := input.(As_prime) |}
  | F_Es => {| b := input.(b); h := input.(h); d := input.(d);
              d_prime := input.(d_prime); fc := input.(fc); fy := input.(fy);
              Es := value; As := input.(As); As_prime := input.(As_prime) |}
  | F_As => {| b := input.(b); h := input.(h); d := input.(d);
              d_prime := input.(d_prime); fc := input.(fc); fy := input.(fy);
              Es := input.(Es); As := value; As_prime := input.(As_prime) |}
  | F_As_prime => {| b := input.(b); h := input.(h); d := input.(d);
              d_prime := input.(d_prime); fc := input.(fc); fy := input.(fy);
              Es := input.(Es); As := input.(As); As_prime := value |}
  end.

(** [x || y] on numbers: NaN, [+0] and [-0] are the falsy numbers. *)
Definition js_or (x y : float) : float :=
  if is_nan x || is_zero x then y else x.

(** The [onChange] handlers of the nine fields, applied to
    [parsed = parseFloat(e.target.value)]: the two selects pass the parsed
    value on, Es falls back to 29000000, the other inputs to 0. *)
Definition onChange_field (input : BeamInput) (field : Field) (parsed : float)
  : BeamInput :=
  handleChange input field
    match field with
    | F_fc | F_fy => parsed
    | F_Es => js_or parsed 29000000
    | _ => js_or parsed 0
    end.

(** ** Samples to run the code on

    [Math.round] rendered on binary64 values: the nearest integer, a tie
    going toward +Infinity; NaN, the infinities, the zeros and the values
    without a fractional part are returned as they are. *)
Definition Math_round_half_up (x : float) : float :=
  match Prim2SF x with
  | S754_finite s m (Z.neg p) =>
      let q := (Z.pos m / 2 ^ Z.pos p)%Z in
      let r := (Z.pos m mod 2 ^ Z.pos p)%Z in
      let up :=
        if s then (2 ^ Z.pos p <? 2 * r)%Z else (2 ^ Z.pos p <=? 2 * r)%Z in
      let n := (if up then q + 1 else q)%Z in
      if (n =? 0)%Z then (if s then (-0) else 0)
      else SF2Prim (binary_normalize prec emax (cond_Zopp s n) 0 false)
  | _ => x
  end.

(** An input with ten times the steel of the default one, and one with a
    third more. *)
Definition input_deep : BeamInput :=
  {| b := 12; h := 24; d := 21.5; d_prime := 2.5; fc := 4000; fy := 60000;
     Es := 29000000; As := 30; As_prime := 0 |}.

Definition input_more_steel : BeamInput :=
  {| b := 12; h := 24; d := 21.5; d_prime := 2.5; fc := 4000; fy := 60000;
     Es := 29000000; As := 4; As_prime := 0 |}.

(** ** binary64 values read as real numbers

    The definitions behind the statements about rounding: the real value of
    a binary64 number, rounding to nearest with ties to even, and the
    relation [Rnd v r] between a real [v] and the binary64 value [r] it
    rounds to (overflow to an infinity included). *)

Local Open Scope R_scope.

Definition bpow (e : Z) : R := powerRZ 2 e.

Definition F2R (m e : Z) : R := IZR m * bpow e.

Definition Zrne (x : R) : Z :=
  let f := Zfloor x in
  match Rcompare (x - IZR f) (/ 2) with
  | Lt => f
  | Eq => if Z.even f then f else (f + 1)%Z
  | Gt => (f + 1)%Z
  end.

(** [u] lies at location [l] of the unit interval that starts at [m]. *)
Definition inbetween (m : Z) (l : location) (u : R) : Prop :=
  match l with
  | loc_Exact => u = IZR m
  | loc_Inexact Lt => IZR m < u < IZR m + / 2
  | loc_Inexact Eq => u = IZR m + / 2
  | loc_Inexact Gt => IZR m + / 2 < u < IZR m + 1
  end.

Definition mag_ok (v : R) (g : Z) : Prop :=
  0 < v < bpow g /\ (bpow (g - 1) <= v \/ (g <= -1074)%Z).

Definition rnd_val (v : R) (g : Z) : R :=
  IZR (Zrne (v / bpow ((SpecFloat.fexp prec emax) g))) * bpow ((SpecFloat.fexp prec emax) g).

Definition SF2R (x : spec_float) : R :=
  match x with
  | S754_finite s m e => F2R (cond_Zopp s (Z.pos m)) e
  | _ => 0
  end.

Definition SFfinite (x : spec_float) : Prop :=
  match x with
  | S754_zero _ | S754_finite _ _ _ => True
  | _ => False
  end.

Definition Rnd_abs (s : bool) (a : R) (r : spec_float) : Prop :=
  exists g : Z,
    mag_ok a g
    /\ match r with
       | S754_zero s' => s' = s /\ rnd_val a g = 0
       | S754_finite s' m e => s' = s /\ F2R (Z.pos m) e = rnd_val a g
       | S754_infinity s' => s' = s /\ bpow emax <= rnd_val a g
       | S754_nan => False
       end.

Definition Rnd (v : R) (r : spec_float) : Prop :=
  (v = 0 /\ exists s, r = S754_zero s)
  \/ (0 < v /\ Rnd_abs false v r)
  \/ (v < 0 /\ Rnd_abs true (- v) r).

Definition B2R (x : float) : R := SF2R (Prim2SF x).

Definition finite (x : float) : Prop := SFfinite (Prim2SF x).

Definition RND (v : R) (x : float) : Prop := Rnd v (Prim2SF x).

(** The largest finite binary64 value. *)
Definition max_float : float := 0x1.fffffffffffffp+1023%float.

Local Close Scope R_scope.

(** * Properties *)

(** ** Comparisons and classification through the binary64 specification *)

Lemma SFcompare_antisym (x y : spec_float) :
  SFcompare y x =
  match SFcompare x y with Some o => Some (CompOpp o) | None => None end.
Proof.
  destruct x as [sx|sx| |sx mx ex], y as [sy|sy| |sy my ey]; cbn;
    try destruct sx; try destruct sy; cbn; try reflexivity.
  all: rewrite (Z.compare_antisym ex ey); destruct (ex ?= ey)%Z; cbn;
    try reflexivity.
  all: rewrite (Pos.compare_cont_antisym mx my Eq); reflexivity.
Qed.

Lemma SFcompare_Eq_inv (x y : spec_float) :
  SFcompare x y = Some Eq ->
  x = y \/ exists s t, x = S754_zero s /\ y = S754_zero t.
Proof.
  destruct x as [sx|sx| |sx mx ex], y as [sy|sy| |sy my ey]; cbn;
    try destruct sx; try destruct sy; cbn; try discriminate; eauto.
  all: destruct (ex ?= ey)%Z eqn:E; try discriminate.
  all: apply Z.compare_eq in E; subst.
  all: intros H; injection H as H.
  - left. f_equal. apply Pos.compare_eq.
    destruct (Pos.compare_cont Eq mx my) eqn:F; try discriminate. exact F.
  - left. f_equal. apply Pos.compare_eq. exact H.
Qed.

Lemma is_nan_SF (x : float) :
  is_nan x = match Prim2SF x with S754_nan => true | _ => false end.
Proof.
  unfold is_nan. rewrite FloatAxioms.eqb_spec. unfold SFeqb.
  destruct (Prim2SF x) as [s|s| |s m e]; cbn; try destruct s; cbn;
    try reflexivity.
  all: rewrite Z.compare_refl, Pos.compare_cont_refl; reflexivity.
Qed.

Lemma is_zero_SF (x : float) :
  is_zero x = match Prim2SF x with S754_zero _ => true | _ => false end.
Proof.
  unfold is_zero. rewrite FloatAxioms.eqb_spec. unfold SFeqb.
  change (Prim2SF 0) with (S754_zero false).
  destruct (Prim2SF x) as [s|s| |s m e]; cbn; try destruct s; cbn; reflexivity.
Qed.

Lemma get_sign_SF (x : float) :
  get_sign x = match Prim2SF x with
               | S754_zero s | S754_infinity s | S754_finite s _ _ => s
               | S754_nan => false
               end.
Proof.
  unfold get_sign. rewrite is_zero_SF.
  destruct (Prim2SF x) as [s|s| |s m e] eqn:E.
  - rewrite FloatAxioms.ltb_spec, div_spec, E.
    change (Prim2SF 1) with (S754_finite false 4503599627370496 (-52)).
    change (Prim2SF 0) with (S754_zero false). destruct s; reflexivity.
  - rewrite FloatAxioms.ltb_spec, E.
    change (Prim2SF 0) with (S754_zero false). destruct s; reflexivity.
  - rewrite FloatAxioms.ltb_spec, E. reflexivity.
  - rewrite FloatAxioms.ltb_spec, E.
    change (Prim2SF 0) with (S754_zero false). destruct s; reflexivity.
Qed.

(** [Math.max] does not depend on the order of its two arguments. *)
Lemma Math_max_comm (x y : float) : JS.Math_max x y = JS.Math_max y x.
Proof.
  unfold JS.Math_max, JS.is_neg_zero.
  rewrite (orb_comm (is_nan y)).
  destruct (is_nan x || is_nan y) eqn:N; [reflexivity|].
  rewrite !FloatAxioms.ltb_spec, !is_zero_SF, !get_sign_SF. unfold SFltb.
  rewrite (SFcompare_antisym (Prim2SF x) (Prim2SF y)).
  destruct (SFcompare (Prim2SF x) (Prim2SF y)) as [[| |]|] eqn:C; cbn;
    try reflexivity.
  - destruct (SFcompare_Eq_inv _ _ C) as [E|(s & t & Ex & Ey)].
    + apply Prim2SF_inj in E. subst. destruct (_ && _); reflexivity.
    + rewrite Ex, Ey. destruct s, t; cbn; try reflexivity.
      all: apply Prim2SF_inj; congruence.
  - apply orb_false_elim in N. destruct N as [Nx Ny].
    rewrite is_nan_SF in Nx, Ny.
    destruct (Prim2SF x), (Prim2SF y); try discriminate; cbn in C;
      discriminate.
Qed.

(** When [x <= y] holds and [t] is a number, [x >= t] fails exactly when
    [x < t] holds. *)
Lemma geb_false_ltb (x y t : float) :
  is_nan t = false -> (x <=? y) = true ->
  (x >=? t) = false <-> (x <? t) = true.
Proof.
  unfold JS.geb.
  rewrite is_nan_SF, !FloatAxioms.leb_spec, FloatAxioms.ltb_spec.
  unfold SFleb, SFltb. intros T L.
  rewrite (SFcompare_antisym (Prim2SF x) (Prim2SF t)).
  destruct (SFcompare (Prim2SF x) (Prim2SF t)) as [[| |]|] eqn:C; cbn;
    try (split; congruence).
  destruct (Prim2SF x), (Prim2SF y), (Prim2SF t); cbn in *; discriminate.
Qed.

(** ** Strings: lengths and final characters *)

Lemma length_append (s t : string) :
  String.length (String.append s t) = (String.length s + String.length t)%nat.
Proof. induction s as [|ch s IH]; cbn; [reflexivity | now rewrite IH]. Qed.

Lemma last2_cons (ch : ascii) (s : string) :
  (2 <= String.length s)%nat -> last2 (String ch s) = last2 s.
Proof.
  destruct s as [|c1 [|c2 s]]; cbn; try lia. reflexivity.
Qed.

Lemma last2_append (s t : string) :
  (2 <= String.length t)%nat -> last2 (String.append s t) = last2 t.
Proof.
  intros Ht. induction s as [|ch s IH]; [reflexivity|].
  cbn [String.append]. rewrite last2_cons; [exact IH|].
  rewrite length_append. lia.
Qed.

(** ** The result record of [analyzeBeam] *)

Section EngineFacts.

Variable toFixed : float -> nat -> string.

(** The divisor of [convertToKipFt] is the binary64 value 12000. *)
Lemma kip_ft_divisor : 1000 * 12 = 12000.
Proof. reflexivity. Qed.

Lemma convertToKipFt_12000 (m : float) : convertToKipFt m = m / 12000.
Proof. unfold convertToKipFt. now rewrite kip_ft_divisor. Qed.

(** C1. Every result of [analyzeBeam] satisfies the closed-form equations
    between its own fields and the input: a = (As * fy) / (0.85 * fc * b),
    c = a / beta1, Mn = As * fy * (d - a / 2), phiMn = phi * Mn,
    Mn_kip_ft = Mn / 12000 and phiMn_kip_ft = phiMn / 12000, each read as
    the binary64 expression. *)
Theorem analyzeBeam_closed_form (input : BeamInput) :
  let r := analyzeBeam toFixed input in
  r.(a) = (input.(As) * input.(fy)) / (0.85 * input.(fc) * input.(b))
  /\ r.(c) = r.(a) / r.(beta1)
  /\ r.(Mn) = input.(As) * input.(fy) * (input.(d) - r.(a) / 2)
  /\ r.(phiMn) = r.(phi) * r.(Mn)
  /\ r.(Mn_kip_ft) = r.(Mn) / 12000
  /\ r.(phiMn_kip_ft) = r.(phiMn) / 12000.
Proof.
  cbn zeta.
  repeat split;
    cbn [analyzeBeam a c Mn phiMn Mn_kip_ft phiMn_kip_ft beta1 phi];
    try reflexivity; apply convertToKipFt_12000.
Qed.

(** C7. The stored booleans are the comparisons of the stored numbers:
    steelYields = (epsilon_t >= epsilon_y), isAdequatelyReinforced =
    (rho >= rho_min) and isNotOverReinforced = (rho <= rho_max). *)
Theorem analyzeBeam_checks_consistent (input : BeamInput) :
  let r := analyzeBeam toFixed input in
  r.(steelYields) = (r.(epsilon_t) >=? r.(epsilon_y))
  /\ r.(isAdequatelyReinforced) = (r.(rho) >=? r.(rho_min))
  /\ r.(isNotOverReinforced) = (r.(rho) <=? r.(rho_max)).
Proof. cbn zeta. repeat split. Qed.

(** C10. [analyzeBeam] reads only b, d, fc, fy, Es and As: two inputs that
    agree on those six fields give the same result record, whatever their
    h, d_prime and As_prime. *)
Theorem analyzeBeam_ignores_h_and_compression_steel (i1 i2 : BeamInput) :
  i1.(b) = i2.(b) -> i1.(d) = i2.(d) -> i1.(fc) = i2.(fc) ->
  i1.(fy) = i2.(fy) -> i1.(Es) = i2.(Es) -> i1.(As) = i2.(As) ->
  analyzeBeam toFixed i1 = analyzeBeam toFixed i2.
Proof.
  intros Hb Hd Hfc Hfy HEs HAs.
  unfold analyzeBeam.
  now rewrite Hb, Hd, Hfc, Hfy, HEs, HAs.
Qed.

(** *** The warning list *)

Lemma last2_below_min (x y : float) :
  last2 (msg_below_min toFixed x y) = "n."%string.
Proof.
  unfold msg_below_min.
  rewrite 4 last2_append; [reflexivity | | | | ];
    repeat rewrite length_append; cbn [String.length]; lia.
Qed.

Lemma last2_above_max (x y : float) :
  last2 (msg_above_max toFixed x y) = "y."%string.
Proof.
  unfold msg_above_max.
  rewrite 4 last2_append; [reflexivity | | | | ];
    repeat rewrite length_append; cbn [String.length]; lia.
Qed.

Lemma below_min_neq_above_max (x y x' y' : float) :
  msg_below_min toFixed x y <> msg_above_max toFixed x' y'.
Proof.
  intros E. apply (f_equal last2) in E.
  rewrite last2_below_min, last2_above_max in E. discriminate.
Qed.

Lemma In_singleton_if (cond : bool) (m m' : string) :
  In m (if cond then [m'] else []) <-> cond = true /\ m' = m.
Proof. destruct cond; cbn; intuition congruence. Qed.

Lemma SectionType_eqb_eq (s t : SectionType) :
  SectionType_eqb s t = true <-> s = t.
Proof. destruct s, t; cbn; split; congruence. Qed.

(** The pushes of [analyzeBeam], read off the result record. *)
Lemma analyzeBeam_warnings_eq (input : BeamInput) :
  let r := analyzeBeam toFixed input in
  r.(warnings) =
    (if negb r.(steelYields) then [msg_no_yield] else [])
    ++ (if negb r.(isAdequatelyReinforced)
        then [msg_below_min toFixed r.(rho) r.(rho_min)] else [])
    ++ (if negb r.(isNotOverReinforced)
        then [msg_above_max toFixed r.(rho) r.(rho_max)] else [])
    ++ (if SectionType_eqb r.(sectionType) CompressionControlled
        then [msg_compression] else [])
    ++ (if SectionType_eqb r.(sectionType) Transition
        then [msg_transition] else [])
    ++ (if r.(a) >? input.(d) then [msg_block_depth] else [])
    ++ (if r.(c) >=? input.(d) then [msg_neutral_axis] else []).
Proof.
  cbn zeta.
  cbn [analyzeBeam warnings steelYields isAdequatelyReinforced
       isNotOverReinforced sectionType a c rho rho_min rho_max].
  unfold push_if.
  repeat match goal with
         | |- context [if ?cond then _ else _] => destruct cond
         end; reflexivity.
Qed.

Ltac msg_discr :=
  let E := fresh "E" in
  intros E;
  first [ exact (below_min_neq_above_max _ _ _ _ E)
        | exact (below_min_neq_above_max _ _ _ _ (eq_sym E))
        | unfold msg_below_min, msg_above_max, msg_no_yield, msg_compression,
            msg_transition, msg_block_depth, msg_neutral_axis in E;
          cbn [String.append] in E; discriminate E ].

(** C6. The warning list is the seven messages in their fixed order, each
    one present exactly when its trigger holds: steel does not yield, rho
    below rho_min, rho above rho_max, compression-controlled, transition
    (a text that begins with Note:), a > d, c >= d.  Only the last two begin
    with the word Error. *)
Theorem analyzeBeam_warnings (input : BeamInput) :
  let r := analyzeBeam toFixed input in
  let m1 := msg_no_yield in
  let m2 := msg_below_min toFixed r.(rho) r.(rho_min) in
  let m3 := msg_above_max toFixed r.(rho) r.(rho_max) in
  let m4 := msg_compression in
  let m5 := msg_transition in
  let m6 := msg_block_depth in
  let m7 := msg_neutral_axis in
  r.(warnings) =
    (if negb r.(steelYields) then [m1] else [])
    ++ (if negb r.(isAdequatelyReinforced) then [m2] else [])
    ++ (if negb r.(isNotOverReinforced) then [m3] else [])
    ++ (if SectionType_eqb r.(sectionType) CompressionControlled
        then [m4] else [])
    ++ (if SectionType_eqb r.(sectionType) Transition then [m5] else [])
    ++ (if r.(a) >? input.(d) then [m6] else [])
    ++ (if r.(c) >=? input.(d) then [m7] else [])
  /\ ((In m1 r.(warnings) <-> r.(steelYields) = false)
      /\ (In m2 r.(warnings) <-> r.(isAdequatelyReinforced) = false)
      /\ (In m3 r.(warnings) <-> r.(isNotOverReinforced) = false)
      /\ (In m4 r.(warnings) <-> r.(sectionType) = CompressionControlled)
      /\ (In m5 r.(warnings) <-> r.(sectionType) = Transition)
      /\ (In m6 r.(warnings) <-> (r.(a) >? input.(d)) = true)
      /\ (In m7 r.(warnings) <-> (r.(c) >=? input.(d)) = true))
  /\ (String.prefix "Error" m1 = false
      /\ String.prefix "Error" m2 = false
      /\ String.prefix "Error" m3 = false
      /\ String.prefix "Error" m4 = false
      /\ String.prefix "Error" m5 = false
      /\ String.prefix "Error" m6 = true
      /\ String.prefix "Error" m7 = true
      /\ String.prefix "Note:" m5 = true).
Proof.
  intros r m1 m2 m3 m4 m5 m6 m7.
  pose proof (analyzeBeam_warnings_eq input) as W. cbn zeta in W.
  fold r in W. fold m1 m2 m3 m4 m5 m6 m7 in W.
  split; [exact W|]. split.
  - rewrite W. rewrite !in_app_iff, !In_singleton_if, !negb_true_iff.
    rewrite !SectionType_eqb_eq.
    subst m1 m2 m3 m4 m5 m6 m7.
    repeat split; intros H;
      repeat match goal with
             | H : _ \/ _ |- _ => destruct H as [H|H]
             | H : _ /\ _ |- _ => destruct H
             end;
      try assumption;
      try (exfalso;
           match goal with E : _ = _ :> string |- _ => revert E; msg_discr end);
      tauto.
  - subst m1 m2 m3 m4 m5 m6 m7. repeat split.
Qed.

End EngineFacts.

Definition input_tall : BeamInput :=
  {| b := 12; h := 30; d := 21.5; d_prime := 3; fc := 4000; fy := 60000;
     Es := 29000000; As := 3.0; As_prime := 1.58 |}.

Lemma analyzeBeam_ignores_h_and_compression_steel_witness :
  analyzeBeam toFixed_positional DEFAULT_BEAM_INPUT
  = analyzeBeam toFixed_positional input_tall.
Proof.
  apply (analyzeBeam_ignores_h_and_compression_steel
           toFixed_positional DEFAULT_BEAM_INPUT input_tall); reflexivity.
Defined.

(** ** Strength reduction factor and classification *)

(** C3, as the code has it.  The two functions take the same branch:
    epsilon_t >= 0.005 gives tension-controlled and 0.90; otherwise
    (epsilon_t < 0.005) epsilon_t <= epsilon_y gives compression-controlled
    and 0.65; in every remaining case the section is in transition and phi
    is the interpolation.  The test against 0.005 comes first, so it wins
    when epsilon_y >= 0.005 makes both conditions hold. *)
Theorem phi_and_classification_agree (epsilon_t epsilon_y : float) :
  ((epsilon_t >=? 0.005) = true ->
     classifySection epsilon_t epsilon_y = TensionControlled
     /\ calculatePhi epsilon_t epsilon_y = 0.90)
  /\ ((epsilon_t <? 0.005) = true -> (epsilon_t <=? epsilon_y) = true ->
     classifySection epsilon_t epsilon_y = CompressionControlled
     /\ calculatePhi epsilon_t epsilon_y = 0.65)
  /\ ((epsilon_t >=? 0.005) = false -> (epsilon_t <=? epsilon_y) = false ->
     classifySection epsilon_t epsilon_y = Transition
     /\ calculatePhi epsilon_t epsilon_y
        = 0.65 + 0.25 * (epsilon_t - epsilon_y) / (0.005 - epsilon_y)).
Proof.
  unfold classifySection, calculatePhi. repeat split.
  - now rewrite H.
  - now rewrite H.
  - apply (geb_false_ltb _ epsilon_y 0.005 eq_refl H0) in H.
    now rewrite H, H0.
  - apply (geb_false_ltb _ epsilon_y 0.005 eq_refl H0) in H.
    now rewrite H, H0.
  - now rewrite H, H0.
  - now rewrite H, H0.
Qed.

Lemma phi_and_classification_agree_witness :
  (classifySection 0.006 0.002 = TensionControlled
   /\ calculatePhi 0.006 0.002 = 0.90)
  /\ (classifySection 0.001 0.002 = CompressionControlled
      /\ calculatePhi 0.001 0.002 = 0.65)
  /\ (classifySection 0.003 0.002 = Transition
      /\ calculatePhi 0.003 0.002
         = 0.65 + 0.25 * (0.003 - 0.002) / (0.005 - 0.002)).
Proof.
  split; [|split].
  - apply (proj1 (phi_and_classification_agree 0.006 0.002)). reflexivity.
  - apply (proj1 (proj2 (phi_and_classification_agree 0.001 0.002)));
      reflexivity.
  - apply (proj2 (proj2 (phi_and_classification_agree 0.003 0.002)));
      reflexivity.
Defined.

(** With a yield strain of 0.005 or more, a strain can be at most epsilon_y
    and at least 0.005 at once: the section is then tension-controlled, not
    compression-controlled. *)
Lemma compression_clause_fails_above_0_005 :
  ~ (forall epsilon_t epsilon_y : float,
        (epsilon_t <=? epsilon_y) = true ->
        classifySection epsilon_t epsilon_y = CompressionControlled
        /\ calculatePhi epsilon_t epsilon_y = 0.65).
Proof.
  intros H. destruct (H 0.006 0.01 eq_refl) as [E _]. discriminate E.
Qed.

(** ** Stress-block factor *)

(** C2, as the code has it.  beta1 is 0.85 when fc <= 4000 and otherwise
    the larger of 0.65 and 0.85 - 0.05 * ((fc - 4000) / 1000), evaluated in
    binary64.  At fc = 10000 the floor gives 0.65; at fc = 5000 the rounded
    difference 0.85 - 0.05 is 0.7999999999999999, the binary64 value just
    below 0.80. *)
Theorem calculateBeta1_cases (fc : float) :
  ((fc <=? 4000) = true -> calculateBeta1 fc = 0.85)
  /\ ((fc <=? 4000) = false ->
      calculateBeta1 fc
      = JS.Math_max 0.65 (0.85 - 0.05 * ((fc - 4000) / 1000)))
  /\ calculateBeta1 5000 = 0.7999999999999999
  /\ next_up (calculateBeta1 5000) = 0.80
  /\ calculateBeta1 10000 = 0.65.
Proof.
  unfold calculateBeta1. repeat split.
  - intros H. now rewrite H.
  - intros H. rewrite H. apply Math_max_comm.
Qed.

Lemma calculateBeta1_cases_witness :
  calculateBeta1 3000 = 0.85
  /\ calculateBeta1 6000
     = JS.Math_max 0.65 (0.85 - 0.05 * ((6000 - 4000) / 1000)).
Proof.
  split.
  - apply (proj1 (calculateBeta1_cases 3000)). reflexivity.
  - apply (proj1 (proj2 (calculateBeta1_cases 6000))). reflexivity.
Defined.

(** The example of the specification at fc = 5000 does not hold to the last
    bit: the code returns the binary64 value below 0.80. *)
Lemma calculateBeta1_5000_is_not_0_80 : calculateBeta1 5000 <> 0.80.
Proof.
  intros E. apply (f_equal Prim2SF) in E. vm_compute in E. discriminate E.
Qed.

(** ** Required-steel solver *)

Section Solver.

Variable toFixed : float -> nat -> string.

(** The square root of a negative number is NaN. *)
Lemma sqrt_negative_nan (x : float) : (x <? 0) = true -> is_nan (sqrt x) = true.
Proof.
  rewrite FloatAxioms.ltb_spec, is_nan_SF, sqrt_spec.
  change (Prim2SF 0) with (S754_zero false).
  destruct (Prim2SF x) as [s|s| |s m e]; cbn; try destruct s; cbn;
    congruence.
Qed.

(** NaN goes through subtraction and multiplication. *)
Lemma sub_nan_r (x y : float) : is_nan y = true -> is_nan (x - y) = true.
Proof.
  rewrite !is_nan_SF, sub_spec.
  destruct (Prim2SF y); try discriminate. intros _.
  destruct (Prim2SF x); reflexivity.
Qed.

Lemma mul_nan_r (x y : float) : is_nan y = true -> is_nan (x * y) = true.
Proof.
  rewrite !is_nan_SF, mul_spec.
  destruct (Prim2SF y); try discriminate. intros _.
  destruct (Prim2SF x); reflexivity.
Qed.

(** A negative radicand makes the required ratio NaN. *)
Lemma negative_radicand_nan (Mu b d fc fy : float) :
  (required_radicand Mu b d fc <? 0) = true ->
  JS.isNaN (required_rho Mu b d fc fy) = true.
Proof.
  intros H. unfold required_rho, JS.isNaN, JS.Math_sqrt.
  apply mul_nan_r, sub_nan_r, sqrt_negative_nan, H.
Qed.

(** Every binary64 value is NaN, negative, or at least zero. *)
Lemma nan_or_negative_or_not :
  forall x : float, is_nan x = true \/ (x <? 0) = true \/ (0 <=? x) = true.
Proof.
  intros x. rewrite is_nan_SF, FloatAxioms.ltb_spec, FloatAxioms.leb_spec.
  change (Prim2SF 0) with (S754_zero false).
  destruct (Prim2SF x) as [s|s| |s m e]; cbn; try destruct s; cbn; auto.
Qed.

Lemma nonneg_not_nan_not_negative (x : float) :
  (0 <=? x) = true -> is_nan x = false /\ (x <? 0) = false.
Proof.
  rewrite is_nan_SF, FloatAxioms.ltb_spec, FloatAxioms.leb_spec.
  change (Prim2SF 0) with (S754_zero false).
  destruct (Prim2SF x) as [s|s| |s m e]; cbn; try destruct s; cbn;
    intros; try discriminate; auto.
Qed.

(** C9, as the code has it.  The solver is a total function.  It gives the
    invalid result with area 0 and a non-empty message when the radicand is
    negative, when the required ratio is NaN for any other reason, and when
    the ratio is negative; a ratio of at least zero that exceeds rho_max
    (from a fresh beta1) is invalid with area rho_required * b * d; a ratio
    of at least zero that does not is valid with message OK.  These cases
    cover every value of the ratio. *)
Theorem calculateRequiredSteel_cases (Mu b d fc fy : float) :
  let rho_required := required_rho Mu b d fc fy in
  let rho_max := calculateRhoMax fc fy (calculateBeta1 fc) EPSILON_CU in
  let r := calculateRequiredSteel toFixed Mu b d fc fy in
  let invalid :=
    {| As_required := 0; isValid := false; message := msg_cannot_carry |} in
  ((required_radicand Mu b d fc <? 0) = true -> r = invalid)
  /\ (JS.isNaN rho_required = true -> r = invalid)
  /\ ((rho_required <? 0) = true -> r = invalid)
  /\ ((0 <=? rho_required) = true -> (rho_required >? rho_max) = true ->
      r = {| As_required := rho_required * b * d; isValid := false;
             message := msg_exceeds_max toFixed rho_required rho_max |})
  /\ ((0 <=? rho_required) = true -> (rho_required >? rho_max) = false ->
      r = {| As_required := rho_required * b * d; isValid := true;
             message := "OK" |})
  /\ (JS.isNaN rho_required = true \/ (rho_required <? 0) = true
      \/ (0 <=? rho_required) = true)
  /\ msg_cannot_carry <> EmptyString.
Proof.
  intros rho_required rho_max r invalid.
  assert (Hnan : JS.isNaN rho_required = true -> r = invalid).
  { intros H. subst r. unfold calculateRequiredSteel.
    fold rho_required. now rewrite H. }
  repeat split.
  - intros H. apply Hnan. now apply negative_radicand_nan.
  - exact Hnan.
  - intros H. subst r. unfold calculateRequiredSteel.
    fold rho_required. rewrite H. now rewrite orb_true_r.
  - intros H0 H1. subst r. unfold calculateRequiredSteel.
    fold rho_required rho_max.
    destruct (nonneg_not_nan_not_negative _ H0) as [N L].
    unfold JS.isNaN. now rewrite N, L, H1.
  - intros H0 H1. subst r. unfold calculateRequiredSteel.
    fold rho_required rho_max.
    destruct (nonneg_not_nan_not_negative _ H0) as [N L].
    unfold JS.isNaN. now rewrite N, L, H1.
  - apply nan_or_negative_or_not.
  - discriminate.
Qed.

End Solver.

Lemma calculateRequiredSteel_cases_witness :
  calculateRequiredSteel toFixed_positional 1e9 12 21.5 4000 60000
  = {| As_required := 0; isValid := false; message := msg_cannot_carry |}
  /\ calculateRequiredSteel toFixed_positional 3000000 12 21.5 4000 60000
     = {| As_required := required_rho 3000000 12 21.5 4000 60000 * 12 * 21.5;
          isValid := true; message := "OK" |}.
Proof.
  split.
  - apply (proj1 (calculateRequiredSteel_cases toFixed_positional 1e9 12 21.5
                    4000 60000)). reflexivity.
  - apply (proj1 (proj2 (proj2 (proj2 (proj2
             (calculateRequiredSteel_cases toFixed_positional 3000000 12 21.5
                4000 60000)))))); reflexivity.
Defined.

(** A moment that is not a number leaves the radicand not negative and the
    ratio neither negative nor above rho_max, and the result is invalid all
    the same. *)
Lemma calculateRequiredSteel_nan_is_invalid :
  let rho_required := required_rho nan 12 21.5 4000 60000 in
  let rho_max := calculateRhoMax 4000 60000 (calculateBeta1 4000) EPSILON_CU in
  (required_radicand nan 12 21.5 4000 <? 0) = false
  /\ (rho_required <? 0) = false
  /\ ((0 <=? rho_required) && (rho_required >? rho_max)) = false
  /\ isValid (calculateRequiredSteel toFixed_positional nan 12 21.5 4000 60000)
     = false.
Proof. cbn zeta. repeat split. Qed.

(** * The code around the engine *)

(** ** Order facts on binary64 values *)

Lemma ltb_not_nan (x y : float) :
  (x <? y) = true -> is_nan x = false /\ is_nan y = false.
Proof.
  rewrite FloatAxioms.ltb_spec, !is_nan_SF. unfold SFltb.
  destruct (Prim2SF x), (Prim2SF y); cbn; intros; try discriminate; auto.
Qed.

Lemma leb_not_nan (x y : float) :
  (x <=? y) = true -> is_nan x = false /\ is_nan y = false.
Proof.
  rewrite FloatAxioms.leb_spec, !is_nan_SF. unfold SFleb.
  destruct (Prim2SF x), (Prim2SF y); cbn; intros; try discriminate; auto.
Qed.

Lemma ltb_leb (x y : float) : (x <? y) = true -> (x <=? y) = true.
Proof.
  rewrite FloatAxioms.ltb_spec, FloatAxioms.leb_spec. unfold SFltb, SFleb.
  destruct (SFcompare _ _) as [[| |]|]; congruence.
Qed.

Lemma ltb_asym (x y : float) : (x <? y) = true -> (y <=? x) = false.
Proof.
  rewrite FloatAxioms.ltb_spec, FloatAxioms.leb_spec. unfold SFltb, SFleb.
  rewrite (SFcompare_antisym (Prim2SF x) (Prim2SF y)).
  destruct (SFcompare _ _) as [[| |]|]; cbn; congruence.
Qed.

Lemma SFcompare_not_nan (x y : spec_float) :
  x <> S754_nan -> y <> S754_nan -> SFcompare x y <> None.
Proof. destruct x, y; cbn; congruence. Qed.

Lemma is_nan_false_SF (x : float) : is_nan x = false -> Prim2SF x <> S754_nan.
Proof. rewrite is_nan_SF. destruct (Prim2SF x); congruence. Qed.

(** On numbers the order is total: when [x <= y] fails, [y < x] holds. *)
Lemma leb_false_ltb (x y : float) :
  is_nan x = false -> is_nan y = false ->
  (x <=? y) = false -> (y <? x) = true.
Proof.
  intros Nx Ny. rewrite FloatAxioms.ltb_spec, FloatAxioms.leb_spec.
  unfold SFltb, SFleb.
  pose proof (SFcompare_not_nan _ _ (is_nan_false_SF _ Nx) (is_nan_false_SF _ Ny)) as C.
  rewrite (SFcompare_antisym (Prim2SF x) (Prim2SF y)).
  destruct (SFcompare _ _) as [[| |]|]; cbn; congruence.
Qed.

Lemma leb_refl (x : float) : is_nan x = false -> (x <=? x) = true.
Proof.
  intros N. rewrite FloatAxioms.leb_spec. unfold SFleb.
  apply is_nan_false_SF in N.
  destruct (Prim2SF x) as [s|s| |s m e]; cbn; try destruct s; cbn;
    try congruence.
  all: rewrite Z.compare_refl, Pos.compare_cont_refl; reflexivity.
Qed.

(** [x > 0] fails exactly on NaN and on the values that are at most zero. *)
Lemma gtb_0_false_iff (x : float) :
  (x >? 0) = false <-> is_nan x = true \/ (x <=? 0) = true.
Proof.
  unfold JS.gtb. split.
  - intros H. destruct (is_nan x) eqn:N; [now left|right].
    destruct (x <=? 0) eqn:L; [reflexivity|].
    rewrite (leb_false_ltb x 0 N eq_refl L) in H. discriminate.
  - intros [N|L].
    + destruct (0 <? x) eqn:E; [|reflexivity].
      apply ltb_not_nan in E. destruct E. congruence.
    + destruct (0 <? x) eqn:E; [|reflexivity].
      apply ltb_asym in E. congruence.
Qed.

Section CallerFacts.

Variable toFixed : float -> nat -> string.
Variable Math_round : float -> float.

(** X1. App.tsx runs the engine only behind its eight tests.  No results
    are stored exactly when one of b, h, d, fc, fy, Es, As is NaN, zero or
    negative, or when d exceeds h; in every other case the stored results
    are those of [analyzeBeam] on that input.  d_prime and As_prime are not
    tested. *)
Theorem App_results_gate (input : BeamInput) :
  let checked :=
    [input.(b); input.(h); input.(d); input.(fc); input.(fy); input.(Es);
     input.(As)] in
  (App_results toFixed input = None <->
   Exists (fun x => is_nan x = true \/ (x <=? 0) = true) checked
   \/ (input.(h) <? input.(d)) = true)
  /\ (App_results toFixed input <> None ->
      App_results toFixed input = Some (analyzeBeam toFixed input)).
Proof.
  cbn zeta. unfold App_results.
  destruct (b input >? 0) eqn:Hb; cbn [andb].
  2:{ split; [|congruence]. split; [intros _|reflexivity].
      left. apply Exists_cons_hd. now apply gtb_0_false_iff. }
  destruct (h input >? 0) eqn:Hh; cbn [andb].
  2:{ split; [|congruence]. split; [intros _|reflexivity].
      left. apply Exists_cons_tl, Exists_cons_hd. now apply gtb_0_false_iff. }
  destruct (d input >? 0) eqn:Hd; cbn [andb].
  2:{ split; [|congruence]. split; [intros _|reflexivity].
      left. do 2 apply Exists_cons_tl. apply Exists_cons_hd.
      now apply gtb_0_false_iff. }
  destruct (d input <=? h input) eqn:Hdh; cbn [andb].
  2:{ split; [|congruence]. split; [intros _|reflexivity].
      right. apply leb_false_ltb; [| |exact Hdh].
      - now apply ltb_not_nan in Hd.
      - now apply ltb_not_nan in Hh. }
  destruct (fc input >? 0) eqn:Hfc; cbn [andb].
  2:{ split; [|congruence]. split; [intros _|reflexivity].
      left. do 3 apply Exists_cons_tl. apply Exists_cons_hd.
      now apply gtb_0_false_iff. }
  destruct (fy input >? 0) eqn:Hfy; cbn [andb].
  2:{ split; [|congruence]. split; [intros _|reflexivity].
      left. do 4 apply Exists_cons_tl. apply Exists_cons_hd.
      now apply gtb_0_false_iff. }
  destruct (Es input >? 0) eqn:HEs; cbn [andb].
  2:{ split; [|congruence]. split; [intros _|reflexivity].
      left. do 5 apply Exists_cons_tl. apply Exists_cons_hd.
      now apply gtb_0_false_iff. }
  destruct (As input >? 0) eqn:HAs; cbn [andb].
  2:{ split; [|congruence]. split; [intros _|reflexivity].
      left. do 6 apply Exists_cons_tl. apply Exists_cons_hd.
      now apply gtb_0_false_iff. }
  split; [|reflexivity]. split; [discriminate|].
  intros [E|E]; exfalso.
  - repeat match goal with
           | H : Exists _ (_ :: _) |- _ =>
               apply Exists_cons in H; destruct H as [H|H]
           | H : Exists _ [] |- _ => apply Exists_nil in H; contradiction
           end;
      apply gtb_0_false_iff in E; congruence.
  - apply ltb_asym in E. congruence.
Qed.

(** X2. In the list ResultsDisplay.tsx renders, the items of class warning
    come first and the items of class error last: at most four warnings
    followed by at most two errors, and no error item at all exactly when
    neither a > d nor c >= d holds. *)
Theorem warning_classes_errors_last (input : BeamInput) :
  let r := analyzeBeam toFixed input in
  exists k j : nat,
    map warning_class r.(warnings)
    = repeat "warning"%string k ++ repeat "error"%string j
    /\ (k <= 4)%nat /\ (j <= 2)%nat
    /\ (j = 0%nat <->
        (r.(a) >? input.(d)) = false /\ (r.(c) >=? input.(d)) = false).
Proof.
  intros r.
  exists (List.length (filter (fun w => negb (String.prefix "Error" w))
                         r.(warnings))),
         (List.length (filter (String.prefix "Error") r.(warnings))).
  pose proof (analyzeBeam_warnings_eq toFixed input) as W.
  cbn zeta in W. fold r in W. rewrite W. clear W.
  destruct (sectionType r), (negb (steelYields r)),
    (negb (isAdequatelyReinforced r)), (negb (isNotOverReinforced r)),
    (a r >? d input), (c r >=? d input);
    cbn; repeat split; try lia; try reflexivity; try discriminate;
    intros [? ?]; discriminate.
Qed.

(** X3. The warning list is empty exactly when the three stored checks
    pass (the flag of the PDF summary), the section is tension-controlled
    and neither geometry error (a > d, c >= d) is raised. *)
Theorem no_warnings_iff (input : BeamInput) :
  let r := analyzeBeam toFixed input in
  r.(warnings) = [] <->
  allPassed r = true /\ r.(sectionType) = TensionControlled
  /\ (r.(a) >? input.(d)) = false /\ (r.(c) >=? input.(d)) = false.
Proof.
  intros r. pose proof (analyzeBeam_warnings_eq toFixed input) as W.
  cbn zeta in W. fold r in W. rewrite W. clear W.
  unfold allPassed.
  destruct (sectionType r), (steelYields r), (isAdequatelyReinforced r),
    (isNotOverReinforced r), (a r >? d input), (c r >=? d input);
    cbn; split; try discriminate; try tauto;
    intros (? & ? & ? & ?); discriminate.
Qed.

(** X4. In every result record the section type fixes the factor: 0.90
    when tension-controlled, 0.65 when compression-controlled, the
    interpolation of the record's own strains in the transition zone.  The
    status line of the PDF summary, which prints 0.90 and 0.65 as literals,
    therefore names the factor of the record. *)
Theorem sectionType_fixes_phi (input : BeamInput) :
  let r := analyzeBeam toFixed input in
  (r.(sectionType) = TensionControlled ->
     r.(phi) = 0.90
     /\ statusText toFixed r
        = "SECTION IS TENSION-CONTROLLED (phi = 0.90)"%string)
  /\ (r.(sectionType) = CompressionControlled ->
     r.(phi) = 0.65
     /\ statusText toFixed r
        = "SECTION IS COMPRESSION-CONTROLLED (phi = 0.65)"%string)
  /\ (r.(sectionType) = Transition ->
     r.(phi) = 0.65 + 0.25 * (r.(epsilon_t) - r.(epsilon_y))
                      / (0.005 - r.(epsilon_y))
     /\ statusText toFixed r
        = String.append "SECTION IN TRANSITION ZONE (phi = "
            (String.append (formatNumber toFixed r.(phi) 3) ")")).
Proof.
  intros r. unfold statusText.
  assert (S : sectionType r = classifySection (epsilon_t r) (epsilon_y r))
    by reflexivity.
  assert (P : phi r = calculatePhi (epsilon_t r) (epsilon_y r))
    by reflexivity.
  rewrite S, P. unfold classifySection, calculatePhi.
  destruct (epsilon_t r >=? 0.005); [|destruct (epsilon_t r <=? epsilon_y r)];
    repeat split; intros; try discriminate; reflexivity.
Qed.

(** X5. When the neutral-axis depth of the result is not positive (As = 0,
    for one), the strain is the sentinel Infinity: the section is reported
    tension-controlled with phi = 0.90, phiMn = 0.90 * Mn, the steel counts
    as yielding unless epsilon_y is NaN, and [formatNumber] shows the strain
    as N/A for any number of decimals. *)
Theorem nonpositive_neutral_axis (input : BeamInput) :
  let r := analyzeBeam toFixed input in
  (r.(c) <=? 0) = true ->
  r.(epsilon_t) = infinity
  /\ r.(sectionType) = TensionControlled
  /\ r.(phi) = 0.90
  /\ r.(phiMn) = 0.90 * r.(Mn)
  /\ r.(steelYields) = negb (is_nan r.(epsilon_y))
  /\ (forall decimals, formatNumber toFixed r.(epsilon_t) decimals = "N/A"%string).
Proof.
  intros r H.
  assert (E : epsilon_t r = infinity).
  { change (epsilon_t r)
      with (calculateTensionStrain (d input) (c r) EPSILON_CU).
    unfold calculateTensionStrain. now rewrite H. }
  assert (S : sectionType r = classifySection (epsilon_t r) (epsilon_y r))
    by reflexivity.
  assert (P : phi r = calculatePhi (epsilon_t r) (epsilon_y r))
    by reflexivity.
  assert (Y : steelYields r = (epsilon_t r >=? epsilon_y r)) by reflexivity.
  assert (M : phiMn r = phi r * Mn r) by reflexivity.
  rewrite M, Y, S, P, E. repeat split.
  - unfold JS.geb. rewrite FloatAxioms.leb_spec, is_nan_SF.
    change (Prim2SF infinity) with (S754_infinity false).
    destruct (Prim2SF (epsilon_y r)) as [s|s| |s m e]; cbn; try destruct s;
      reflexivity.
Qed.

(** X7. How the yield check and the classification of one record relate.
    A transition section whose steel does not yield has a NaN strain; a
    compression-controlled section whose steel yields sits on the boundary
    epsilon_t = epsilon_y; and when the steel does not yield, with numeric
    strains and epsilon_t < 0.005, the section is compression-controlled. *)
Theorem yield_and_classification (input : BeamInput) :
  let r := analyzeBeam toFixed input in
  (r.(sectionType) = Transition ->
     r.(steelYields) = false ->
     is_nan r.(epsilon_t) = true \/ is_nan r.(epsilon_y) = true)
  /\ (r.(sectionType) = CompressionControlled ->
     r.(steelYields) = true -> (r.(epsilon_t) =? r.(epsilon_y)) = true)
  /\ (r.(steelYields) = false ->
     is_nan r.(epsilon_t) = false -> is_nan r.(epsilon_y) = false ->
     (r.(epsilon_t) <? 0.005) = true ->
     r.(sectionType) = CompressionControlled).
Proof.
  intros r.
  assert (S : sectionType r = classifySection (epsilon_t r) (epsilon_y r))
    by reflexivity.
  assert (Y : steelYields r = (epsilon_t r >=? epsilon_y r)) by reflexivity.
  rewrite S, Y. unfold classifySection, JS.geb.
  set (et := epsilon_t r). set (ey := epsilon_y r).
  repeat split.
  - destruct (0.005 <=? et); [discriminate|].
    destruct (et <=? ey) eqn:L; [discriminate|]. intros _ G.
    destruct (is_nan et) eqn:Nt; [now left|].
    destruct (is_nan ey) eqn:Ny; [now right|].
    apply (leb_false_ltb _ _ Nt Ny) in L. apply ltb_leb in L. congruence.
  - destruct (0.005 <=? et); [discriminate|].
    destruct (et <=? ey) eqn:L; [|discriminate]. intros _ G.
    rewrite FloatAxioms.eqb_spec. rewrite FloatAxioms.leb_spec in L, G.
    unfold SFeqb. unfold SFleb in L, G.
    rewrite (SFcompare_antisym (Prim2SF et) (Prim2SF ey)) in G.
    destruct (SFcompare (Prim2SF et) (Prim2SF ey)) as [[| |]|];
      cbn in *; congruence.
  - intros G Nt Ny T.
    assert (T' : (0.005 <=? et) = false) by now apply ltb_asym.
    rewrite T'.
    apply (leb_false_ltb _ _ Ny Nt) in G. apply ltb_leb in G. now rewrite G.
Qed.

(** X6. What a result of the solver tells its caller.  It is valid exactly
    when its message is OK.  A valid result comes from a radicand that is
    not negative and a ratio that is a number of at least zero, not above
    rho_max (unless rho_max is NaN), with As_required = rho_required * b * d.
    An invalid result has As_required = 0 or a ratio above rho_max. *)
Theorem calculateRequiredSteel_valid_iff_ok (Mu b d fc fy : float) :
  let rho_required := required_rho Mu b d fc fy in
  let rho_max := calculateRhoMax fc fy (calculateBeta1 fc) EPSILON_CU in
  let r := calculateRequiredSteel toFixed Mu b d fc fy in
  (r.(isValid) = true <-> r.(message) = "OK"%string)
  /\ (r.(isValid) = true ->
      (0 <=? rho_required) = true
      /\ ((rho_required <=? rho_max) = true \/ is_nan rho_max = true))
  /\ (r.(isValid) = true ->
      (required_radicand Mu b d fc <? 0) = false
      /\ r.(As_required) = rho_required * b * d)
  /\ (r.(isValid) = false ->
      r.(As_required) = 0 \/ (rho_max <? rho_required) = true).
Proof.
  intros rho_required rho_max r. subst r. unfold calculateRequiredSteel.
  fold rho_required. fold rho_max.
  destruct (JS.isNaN rho_required || (rho_required <? 0)) eqn:G.
  - cbn. repeat split; intros; try discriminate; auto.
  - apply orb_false_elim in G. destruct G as [N L]. unfold JS.isNaN in N.
    assert (Z : (0 <=? rho_required) = true).
    { destruct (nan_or_negative_or_not rho_required) as [H|[H|H]];
        congruence. }
    assert (R : (required_radicand Mu b d fc <? 0) = false).
    { destruct (required_radicand Mu b d fc <? 0) eqn:R; [|reflexivity].
      pose proof (negative_radicand_nan Mu b d fc fy R) as H.
      unfold JS.isNaN in H. fold rho_required in H. congruence. }
    unfold JS.gtb. destruct (rho_max <? rho_required) eqn:X;
      cbn [isValid message As_required].
    + split; [split; intros; discriminate|].
      split; [intros; discriminate|].
      split; [intros; discriminate|]. intros _. now right.
    + split; [split; reflexivity|].
      split; [|split; [intros _; split; [exact R|reflexivity]
                      |intros; discriminate]].
      intros _. split; [exact Z|].
      destruct (is_nan rho_max) eqn:M; [now right|left].
      destruct (rho_required <=? rho_max) eqn:Y; [reflexivity|].
      rewrite (leb_false_ltb _ _ N M Y) in X. discriminate X.
Qed.

(** [Math.min] and [Math.max] on numbers. *)
Lemma Math_min_cases (x y : float) :
  is_nan x = false -> is_nan y = false ->
  (Math_min x y = x \/ Math_min x y = y)
  /\ (Math_min x y <=? x) = true /\ (Math_min x y <=? y) = true.
Proof.
  intros Nx Ny. unfold Math_min. rewrite Nx, Ny. cbn [orb].
  destruct (x <? y) eqn:A.
  { repeat split; auto using leb_refl, ltb_leb. }
  destruct (y <? x) eqn:B.
  { repeat split; auto using leb_refl, ltb_leb. }
  assert (L1 : (x <=? y) = true).
  { destruct (x <=? y) eqn:E; [reflexivity|].
    rewrite (leb_false_ltb _ _ Nx Ny E) in B. discriminate. }
  assert (L2 : (y <=? x) = true).
  { destruct (y <=? x) eqn:E; [reflexivity|].
    rewrite (leb_false_ltb _ _ Ny Nx E) in A. discriminate. }
  destruct (JS.is_neg_zero x); repeat split; auto using leb_refl.
Qed.

Lemma Math_max_cases (x y : float) :
  is_nan x = false -> is_nan y = false ->
  (JS.Math_max x y = x \/ JS.Math_max x y = y)
  /\ (x <=? JS.Math_max x y) = true /\ (y <=? JS.Math_max x y) = true.
Proof.
  intros Nx Ny. unfold JS.Math_max. rewrite Nx, Ny. cbn [orb].
  destruct (x <? y) eqn:A.
  { repeat split; auto using leb_refl, ltb_leb. }
  destruct (y <? x) eqn:B.
  { repeat split; auto using leb_refl, ltb_leb. }
  assert (L1 : (x <=? y) = true).
  { destruct (x <=? y) eqn:E; [reflexivity|].
    rewrite (leb_false_ltb _ _ Nx Ny E) in B. discriminate. }
  assert (L2 : (y <=? x) = true).
  { destruct (y <=? x) eqn:E; [reflexivity|].
    rewrite (leb_false_ltb _ _ Ny Nx E) in A. discriminate. }
  destruct (JS.is_neg_zero x); repeat split; auto using leb_refl.
Qed.

Lemma Math_min_nan (x y : float) :
  is_nan (Math_min x y) = is_nan x || is_nan y.
Proof.
  destruct (is_nan x) eqn:Nx; [unfold Math_min; now rewrite Nx|].
  destruct (is_nan y) eqn:Ny;
    [unfold Math_min; rewrite Nx, Ny; reflexivity|].
  destruct (Math_min_cases x y Nx Ny) as [[E|E] _]; rewrite E; cbn; congruence.
Qed.

Lemma Math_max_nan (x y : float) :
  is_nan (JS.Math_max x y) = is_nan x || is_nan y.
Proof.
  destruct (is_nan x) eqn:Nx; [unfold JS.Math_max; now rewrite Nx|].
  destruct (is_nan y) eqn:Ny;
    [unfold JS.Math_max; rewrite Nx, Ny; reflexivity|].
  destruct (Math_max_cases x y Nx Ny) as [[E|E] _]; rewrite E; cbn; congruence.
Qed.

(** X8. The bar sketch of BeamVisualization.tsx.  The radius is NaN exactly
    when sqrt(As) * 4 is, and otherwise lies between 4 and 10; the number of
    bars is NaN exactly when Math.round(As / 0.5) is, and otherwise lies
    between 2 and 5. *)
Theorem sketch_bars_clamped (As : float) :
  (is_nan (barRadius As) = is_nan (JS.Math_sqrt As * 4)
   /\ (is_nan (barRadius As) = false ->
       (4 <=? barRadius As) = true /\ (barRadius As <=? 10) = true))
  /\ (is_nan (numBars Math_round As) = is_nan (Math_round (As / 0.5))
      /\ (is_nan (numBars Math_round As) = false ->
          (2 <=? numBars Math_round As) = true
          /\ (numBars Math_round As <=? 5) = true)).
Proof.
  unfold barRadius, numBars. split.
  - set (y := JS.Math_sqrt As * 4).
    split; [now rewrite Math_max_nan, Math_min_nan|].
    rewrite Math_max_nan, Math_min_nan. cbn [orb is_nan]. intros Ny.
    change (is_nan 4) with false in Ny. change (is_nan 10) with false in Ny.
    cbn [orb] in Ny.
    destruct (Math_min_cases 10 y eq_refl Ny) as (_ & M10 & _).
    assert (Nm : is_nan (Math_min 10 y) = false)
      by (rewrite Math_min_nan, Ny; reflexivity).
    destruct (Math_max_cases 4 (Math_min 10 y) eq_refl Nm) as ([E|E] & L4 & _).
    + split; [exact L4|]. rewrite E. reflexivity.
    + split; [exact L4|]. rewrite E. exact M10.
  - set (y := Math_round (As / 0.5)).
    split; [now rewrite Math_min_nan, Math_max_nan|].
    rewrite Math_min_nan, Math_max_nan. intros Ny.
    change (is_nan 5) with false in Ny. change (is_nan 2) with false in Ny.
    cbn [orb] in Ny.
    destruct (Math_max_cases 2 y eq_refl Ny) as (_ & M2 & _).
    assert (Nm : is_nan (JS.Math_max 2 y) = false)
      by (rewrite Math_max_nan, Ny; reflexivity).
    destruct (Math_min_cases 5 (JS.Math_max 2 y) eq_refl Nm) as ([E|E] & L5 & _).
    + split; [|exact L5]. rewrite E. reflexivity.
    + split; [|exact L5]. rewrite E. exact M2.
Qed.

End CallerFacts.

Lemma nonpositive_neutral_axis_witness :
  let r := analyzeBeam toFixed_positional input_no_steel in
  r.(epsilon_t) = infinity
  /\ r.(sectionType) = TensionControlled
  /\ r.(phi) = 0.90
  /\ r.(phiMn) = 0.90 * r.(Mn)
  /\ r.(steelYields) = negb (is_nan r.(epsilon_y))
  /\ (forall decimals,
        formatNumber toFixed_positional r.(epsilon_t) decimals = "N/A"%string).
Proof.
  apply (nonpositive_neutral_axis toFixed_positional input_no_steel).
  reflexivity.
Defined.

(** * Rounding

    The binary64 operations of the engine are the roundings of the real
    operations: the specification of the Standard Library's [SpecFloat] is
    related here to rounding to nearest, ties to even, on the reals, which
    gives the order and monotonicity facts the next part relies on. *)

Local Open Scope R_scope.
Lemma bpow_gt_0 e : 0 < bpow e.
Proof. apply powerRZ_lt. lra. Qed.

Lemma bpow_plus a b : bpow (a + b) = bpow a * bpow b.
Proof. apply powerRZ_add. lra. Qed.

Lemma bpow_1 : bpow 1 = 2.
Proof. exact (powerRZ_1 2). Qed.

Lemma bpow_0 : bpow 0 = 1.
Proof. reflexivity. Qed.

Lemma bpow_succ e : bpow (e + 1) = 2 * bpow e.
Proof. rewrite bpow_plus, bpow_1. lra. Qed.

Lemma bpow_ge_1 n : (0 <= n)%Z -> 1 <= bpow n.
Proof.
  revert n. apply natlike_ind.
  - rewrite bpow_0. lra.
  - intros n Hn IH. unfold Z.succ. rewrite bpow_succ. lra.
Qed.

Lemma bpow_le a b : (a <= b)%Z -> bpow a <= bpow b.
Proof.
  intros H. replace b with (a + (b - a))%Z by lia. rewrite bpow_plus.
  pose proof (bpow_gt_0 a). pose proof (bpow_ge_1 (b - a) ltac:(lia)). nra.
Qed.

Lemma bpow_lt a b : (a < b)%Z -> bpow a < bpow b.
Proof.
  intros H. apply Rlt_le_trans with (bpow (a + 1)).
  - rewrite bpow_succ. pose proof (bpow_gt_0 a). lra.
  - apply bpow_le. lia.
Qed.

Lemma bpow_lt_inv a b : bpow a < bpow b -> (a < b)%Z.
Proof.
  intros H. destruct (Z_lt_le_dec a b) as [L|L]; [exact L|].
  apply bpow_le in L. lra.
Qed.

Lemma bpow_opp e : bpow (- e) = / bpow e.
Proof. apply powerRZ_neg'. Qed.

Lemma bpow_IZR n : (0 <= n)%Z -> bpow n = IZR (2 ^ n).
Proof.
  revert n. apply natlike_ind.
  - reflexivity.
  - intros n Hn IH. unfold Z.succ. rewrite bpow_succ, IH, Z.pow_add_r by lia.
    rewrite mult_IZR. change (2 ^ 1)%Z with 2%Z. lra.
Qed.

(** Digits *)
Lemma digits2_pos_bounds (p : positive) :
  (2 ^ (Z.pos (digits2_pos p) - 1) <= Z.pos p < 2 ^ Z.pos (digits2_pos p))%Z.
Proof.
  induction p as [p IH|p IH|]; cbn [digits2_pos].
  - rewrite Pos2Z.inj_succ. replace (Z.succ (Z.pos (digits2_pos p)) - 1)%Z
      with (Z.pos (digits2_pos p) - 1 + 1)%Z by lia.
    unfold Z.succ. rewrite !Z.pow_add_r by lia. change (2^1)%Z with 2%Z. lia.
  - rewrite Pos2Z.inj_succ. replace (Z.succ (Z.pos (digits2_pos p)) - 1)%Z
      with (Z.pos (digits2_pos p) - 1 + 1)%Z by lia.
    unfold Z.succ. rewrite !Z.pow_add_r by lia. change (2^1)%Z with 2%Z. lia.
  - cbn. lia.
Qed.

Lemma digits2_bpow (p : positive) :
  bpow (Z.pos (digits2_pos p) - 1) <= IZR (Z.pos p) < bpow (Z.pos (digits2_pos p)).
Proof.
  destruct (digits2_pos_bounds p) as [L U].
  rewrite !bpow_IZR by lia. split; [apply IZR_le, L | apply IZR_lt, U].
Qed.

(** Zrne *)
Lemma Zrne_IZR (k : Z) : Zrne (IZR k) = k.
Proof.
  unfold Zrne. rewrite ZfloorZ. replace (IZR k - IZR k) with 0 by lra.
  destruct (Rcompare_spec 0 (/2)); try lra. reflexivity.
Qed.

Lemma Zrne_bounds (x : R) : (Zfloor x <= Zrne x <= Zfloor x + 1)%Z.
Proof.
  unfold Zrne. destruct (Rcompare _ _); try destruct (Z.even _); lia.
Qed.

Lemma Zrne_le_int (x : R) (n : Z) : x <= IZR n -> (Zrne x <= n)%Z.
Proof.
  intros H. pose proof (Zfloor_bound x) as [B1 B2].
  destruct (Z_lt_le_dec (Zfloor x) n) as [L|L].
  - pose proof (Zrne_bounds x). lia.
  - assert (E : Zfloor x = n).
    { apply Z.le_antisymm; [|exact L]. apply le_IZR. lra. }
    assert (x = IZR n) by (rewrite E in B1; lra). subst x. rewrite Zrne_IZR. lia.
Qed.

Lemma Zrne_ge_int (x : R) (n : Z) : IZR n <= x -> (n <= Zrne x)%Z.
Proof.
  intros H. pose proof (Zfloor_lub n x H). pose proof (Zrne_bounds x). lia.
Qed.

Lemma Zrne_mono (x y : R) : x <= y -> (Zrne x <= Zrne y)%Z.
Proof.
  intros H.
  destruct (Z_lt_le_dec (Zfloor x) (Zfloor y)) as [L|L].
  - pose proof (Zrne_bounds x). pose proof (Zrne_bounds y).
    destruct (Z.eq_dec (Zrne x) (Zfloor x + 1)) as [E|E]; [|lia].
    destruct (Z.eq_dec (Zrne y) (Zfloor y)) as [E'|E']; [|lia].
    destruct (Z.eq_dec (Zfloor x + 1) (Zfloor y)) as [E''|E'']; lia.
  - pose proof (Zfloor_le x y H). assert (E : Zfloor x = Zfloor y) by lia.
    unfold Zrne. rewrite E.
    destruct (Rcompare_spec (x - IZR (Zfloor y)) (/2));
    destruct (Rcompare_spec (y - IZR (Zfloor y)) (/2));
      try destruct (Z.even _); try lia; lra.
Qed.

Lemma inbetween_Zrne (m : Z) (l : location) (u : R) :
  inbetween m l u -> round_nearest_even m l = Zrne u.
Proof.
  intros H. unfold Zrne.
  assert (F : Zfloor u = m).
  { apply Zfloor_eq. destruct l as [|[| |]]; cbn in H; lra. }
  rewrite F.
  destruct l as [|[| |]]; cbn in H |- *.
  - subst u. destruct (Rcompare_spec (IZR m - IZR m) (/2)); try lra. reflexivity.
  - destruct (Rcompare_spec (u - IZR m) (/2)); try lra. reflexivity.
  - destruct (Rcompare_spec (u - IZR m) (/2)); try lra. reflexivity.
  - destruct (Rcompare_spec (u - IZR m) (/2)); try lra. reflexivity.
Qed.

Lemma fexp_eq (e : Z) : (SpecFloat.fexp prec emax) e = Z.max (e - 53) (-1074).
Proof. reflexivity. Qed.

Lemma IZR_xO (p : positive) : IZR (Z.pos p~0) = 2 * IZR (Z.pos p).
Proof. rewrite Pos2Z.inj_xO, mult_IZR. reflexivity. Qed.

Lemma IZR_xI (p : positive) : IZR (Z.pos p~1) = 2 * IZR (Z.pos p) + 1.
Proof. rewrite Pos2Z.inj_xI, plus_IZR, mult_IZR. reflexivity. Qed.

Lemma shr_1_inbetween (mrs : shr_record) (u : R) :
  (0 <= shr_m mrs)%Z ->
  inbetween (shr_m mrs) (loc_of_shr_record mrs) u ->
  (0 <= shr_m (shr_1 mrs))%Z
  /\ inbetween (shr_m (shr_1 mrs)) (loc_of_shr_record (shr_1 mrs)) (u / 2).
Proof.
  destruct mrs as [m r s]. cbn [shr_m].
  destruct m as [|p|p]; [ | destruct p as [p|p|] | ]; intros Hm; try lia;
    destruct r, s; cbn [shr_1 orb shr_m loc_of_shr_record inbetween];
    try rewrite (IZR_xO p); try rewrite (IZR_xI p);
    intros H; (split; [lia | lra]).
Qed.

Lemma iter_shr_1_inbetween (n : positive) :
  forall (mrs : shr_record) (u : R),
    (0 <= shr_m mrs)%Z ->
    inbetween (shr_m mrs) (loc_of_shr_record mrs) u ->
    (0 <= shr_m (SpecFloat.iter_pos shr_1 n mrs))%Z
    /\ inbetween (shr_m (SpecFloat.iter_pos shr_1 n mrs))
                 (loc_of_shr_record (SpecFloat.iter_pos shr_1 n mrs))
                 (u / bpow (Z.pos n)).
Proof.
  induction n as [n IH|n IH|]; intros mrs u Hm H; cbn [SpecFloat.iter_pos].
  - destruct (shr_1_inbetween _ _ Hm H) as [Hm1 H1].
    destruct (IH _ _ Hm1 H1) as [Hm2 H2].
    destruct (IH _ _ Hm2 H2) as [Hm3 H3].
    split; [exact Hm3|].
    replace (u / bpow (Z.pos n~1)) with (u / 2 / bpow (Z.pos n) / bpow (Z.pos n));
      [exact H3|].
    rewrite Pos2Z.inj_xI. replace (2 * Z.pos n + 1)%Z with (Z.pos n + Z.pos n + 1)%Z by lia.
    rewrite !bpow_plus, bpow_1. pose proof (bpow_gt_0 (Z.pos n)). field. lra.
  - destruct (IH _ _ Hm H) as [Hm2 H2].
    destruct (IH _ _ Hm2 H2) as [Hm3 H3].
    split; [exact Hm3|].
    replace (u / bpow (Z.pos n~0)) with (u / bpow (Z.pos n) / bpow (Z.pos n));
      [exact H3|].
    rewrite Pos2Z.inj_xO. replace (2 * Z.pos n)%Z with (Z.pos n + Z.pos n)%Z by lia.
    rewrite !bpow_plus. pose proof (bpow_gt_0 (Z.pos n)). field. lra.
  - rewrite bpow_1. now apply shr_1_inbetween.
Qed.

Lemma shr_inbetween (mrs : shr_record) (e n : Z) (v : R) :
  (0 <= shr_m mrs)%Z ->
  inbetween (shr_m mrs) (loc_of_shr_record mrs) (v / bpow e) ->
  let e' := (e + Z.max n 0)%Z in
  snd (shr mrs e n) = e'
  /\ (0 <= shr_m (fst (shr mrs e n)))%Z
  /\ inbetween (shr_m (fst (shr mrs e n)))
               (loc_of_shr_record (fst (shr mrs e n))) (v / bpow e').
Proof.
  intros Hm H. destruct n as [|p|p]; cbn [shr fst snd Z.max Z.compare].
  - rewrite Z.add_0_r. auto.
  - replace (Z.max (Z.pos p) 0) with (Z.pos p) by lia.
    split; [reflexivity|].
    destruct (iter_shr_1_inbetween p _ _ Hm H) as [Hm' H'].
    split; [exact Hm'|].
    replace (v / bpow (e + Z.pos p)) with (v / bpow e / bpow (Z.pos p)); [exact H'|].
    rewrite bpow_plus. pose proof (bpow_gt_0 e). pose proof (bpow_gt_0 (Z.pos p)).
    field. lra.
  - replace (Z.max (Z.neg p) 0) with 0%Z by lia. rewrite Z.add_0_r. auto.
Qed.

Lemma loc_of_shr_record_of_loc (m : Z) (l : location) :
  loc_of_shr_record (shr_record_of_loc m l) = l
  /\ shr_m (shr_record_of_loc m l) = m.
Proof. destruct l as [|[| |]]; split; reflexivity. Qed.

Lemma Zdigits2_le_53 (k : Z) : (0 < k < 2 ^ 53)%Z -> (1 <= Zdigits2 k <= 53)%Z.
Proof.
  destruct k as [|p|p]; try lia. intros [_ H]. cbn [Zdigits2].
  destruct (digits2_pos_bounds p) as [L _].
  split; [lia|].
  destruct (Z_le_gt_dec (Z.pos (digits2_pos p)) 53) as [G|G]; [exact G|].
  exfalso. assert (2 ^ 53 <= 2 ^ (Z.pos (digits2_pos p) - 1))%Z
    by (apply Z.pow_le_mono_r; lia). lia.
Qed.

Lemma inbetween_bounds (m : Z) (l : location) (u : R) :
  inbetween m l u -> IZR m <= u < IZR m + 1.
Proof. destruct l as [|[| |]]; cbn; lra. Qed.

Lemma Zdigits2_bpow (m : Z) :
  (0 <= m)%Z -> IZR m + 1 <= bpow (Zdigits2 m)
  /\ ((0 < m)%Z -> bpow (Zdigits2 m - 1) <= IZR m).
Proof.
  intros H. destruct m as [|p|p]; try lia.
  - cbn [Zdigits2]. rewrite bpow_0. split; [lra|lia].
  - cbn [Zdigits2]. destruct (digits2_pos_bounds p) as [L U].
    rewrite !bpow_IZR by lia. split.
    + rewrite <- plus_IZR. apply IZR_le. lia.
    + intros _. apply IZR_le. exact L.
Qed.

Lemma binary_round_aux_spec (sx : bool) (mx ex : Z) (lx : location) (v : R) :
  (0 <= mx)%Z ->
  (ex <= (SpecFloat.fexp prec emax) (Zdigits2 mx + ex))%Z ->
  inbetween mx lx (v / bpow ex) ->
  let E := (SpecFloat.fexp prec emax) (Zdigits2 mx + ex) in
  let k := Zrne (v / bpow E) in
  match binary_round_aux prec emax sx mx ex lx with
  | S754_zero s => s = sx /\ k = 0%Z
  | S754_finite s m e => s = sx /\ F2R (Z.pos m) e = IZR k * bpow E
  | S754_infinity s => s = sx /\ bpow emax <= IZR k * bpow E
  | S754_nan => False
  end.
Proof.
  intros Hm Hex Hin E k.
  unfold binary_round_aux, shr_fexp. fold E.
  destruct (loc_of_shr_record_of_loc mx lx) as [Hl Hs].
  assert (Hm0 : (0 <= shr_m (shr_record_of_loc mx lx))%Z) by (rewrite Hs; exact Hm).
  assert (Hin0 : inbetween (shr_m (shr_record_of_loc mx lx))
                   (loc_of_shr_record (shr_record_of_loc mx lx)) (v / bpow ex))
    by (rewrite Hs, Hl; exact Hin).
  destruct (shr_inbetween _ ex (E - ex) v Hm0 Hin0) as (He' & Hm' & Hin').
  destruct (shr (shr_record_of_loc mx lx) ex (E - ex)) as [mrs' e'].
  cbn [fst snd] in He', Hm', Hin'.
  replace (ex + Z.max (E - ex) 0)%Z with E in He', Hin' by lia.
  subst e'.
  rewrite (inbetween_Zrne _ _ _ Hin'). fold k.
  (* bounds on k *)
  pose proof (bpow_gt_0 ex) as Pex. pose proof (bpow_gt_0 E) as PE.
  destruct (inbetween_bounds _ _ _ Hin) as [Lv Uv].
  destruct (Zdigits2_bpow mx Hm) as [Ud Ld].
  assert (HE : E = Z.max (Zdigits2 mx + ex - 53) (-1074)) by apply fexp_eq.
  assert (Uk : (k <= 2 ^ 53)%Z).
  { apply Zrne_le_int. rewrite <- bpow_IZR by lia.
    apply Rle_trans with (bpow (Zdigits2 mx + ex - E)).
    - apply Rmult_le_reg_r with (bpow E); [exact PE|].
      rewrite <- bpow_plus. replace (Zdigits2 mx + ex - E + E)%Z with (Zdigits2 mx + ex)%Z by lia.
      unfold Rdiv. rewrite Rmult_assoc, Rinv_l, Rmult_1_r by lra.
      rewrite bpow_plus.
      assert (v < (IZR mx + 1) * bpow ex).
      { apply Rmult_lt_reg_r with (/ bpow ex); [apply Rinv_0_lt_compat; exact Pex|].
        rewrite Rmult_assoc, Rinv_r, Rmult_1_r by lra. exact Uv. }
      nra.
    - apply bpow_le. lia. }
  assert (Lk : (0 <= k)%Z).
  { apply Zrne_ge_int. apply Rle_trans with (IZR (shr_m mrs')).
    - apply IZR_le. exact Hm'.
    - apply (inbetween_bounds _ _ _ Hin'). }
  (* overflow bound *)
  assert (Ov : (971 < E)%Z -> (2 ^ 52 <= k)%Z).
  { intros G. apply Zrne_ge_int. rewrite <- bpow_IZR by lia.
    assert (0 < mx)%Z.
    { destruct (Z.eq_dec mx 0) as [Z0|Z0]; [|lia]. subst mx.
      cbn [Zdigits2] in HE, Hex. rewrite fexp_eq in Hex. cbn [Zdigits2] in Hex. lia. }
    specialize (Ld H).
    replace 52%Z with (Zdigits2 mx - 1 + ex - E)%Z by lia.
    apply Rmult_le_reg_r with (bpow E); [exact PE|].
    rewrite <- bpow_plus. replace (Zdigits2 mx - 1 + ex - E + E)%Z with (Zdigits2 mx - 1 + ex)%Z by lia.
    unfold Rdiv. rewrite Rmult_assoc, Rinv_l, Rmult_1_r by lra.
    rewrite bpow_plus.
    assert (IZR mx * bpow ex <= v).
    { apply Rmult_le_reg_r with (/ bpow ex); [apply Rinv_0_lt_compat; exact Pex|].
      rewrite Rmult_assoc, Rinv_r, Rmult_1_r by lra. exact Lv. }
    nra. }
  (* second shift *)
  clearbody k.
  destruct (Z.eq_dec k (2 ^ 53)) as [K|K].
  - subst k. clear Uk Lk Ov.
    change (Zdigits2 (2 ^ 53)) with 54%Z.
    rewrite fexp_eq. replace (Z.max (54 + E - 53) (-1074) - E)%Z with 1%Z by lia.
    change (2 ^ 53)%Z with (Z.pos (4503599627370496~0)).
    cbn [shr_record_of_loc shr SpecFloat.iter_pos shr_1 shr_m orb].
    change (emax - prec)%Z with 971%Z.
    destruct (Z.leb_spec (E + 1) 971) as [G|G].
    + split; [reflexivity|]. unfold F2R. rewrite bpow_succ.
      rewrite (IZR_xO 4503599627370496). lra.
    + split; [reflexivity|].
      change (Z.pos (4503599627370496~0)) with (2 ^ 53)%Z.
      rewrite <- bpow_IZR, <- bpow_plus by lia. apply bpow_le. unfold emax. lia.
  - destruct (Z.eq_dec k 0) as [K0|K0].
    + subst k. cbn [shr_record_of_loc Zdigits2]. rewrite fexp_eq.
      replace (Z.max (0 + E - 53) (-1074) - E)%Z with (Z.max (-53) (-1074 - E))%Z by lia.
      assert (Z.max (-53) (-1074 - E) <= 0)%Z by lia.
      destruct (Z.max (-53) (-1074 - E))%Z eqn:Q; try lia; cbn [shr shr_m]; auto.
    + assert (D : (1 <= Zdigits2 k <= 53)%Z) by (apply Zdigits2_le_53; lia).
      cbn [shr_record_of_loc]. rewrite fexp_eq.
      assert (Z.max (Zdigits2 k + E - 53) (-1074) - E <= 0)%Z by lia.
      destruct (Z.max (Zdigits2 k + E - 53) (-1074) - E)%Z eqn:Q; try lia;
        cbn [shr shr_m].
      * destruct k as [|p|p]; try lia.
        change (emax - prec)%Z with 971%Z.
        destruct (Z.leb_spec E 971) as [G|G].
        -- split; reflexivity.
        -- split; [reflexivity|]. specialize (Ov G).
           apply Rle_trans with (bpow 52 * bpow E).
           ++ rewrite <- bpow_plus. apply bpow_le. unfold emax. lia.
           ++ apply Rmult_le_compat_r; [lra|]. rewrite bpow_IZR by lia.
              apply IZR_le. exact Ov.
      * destruct k as [|p'|p']; try lia.
        change (emax - prec)%Z with 971%Z.
        destruct (Z.leb_spec E 971) as [G|G].
        -- split; reflexivity.
        -- split; [reflexivity|]. specialize (Ov G).
           apply Rle_trans with (bpow 52 * bpow E).
           ++ rewrite <- bpow_plus. apply bpow_le. unfold emax. lia.
           ++ apply Rmult_le_compat_r; [lra|]. rewrite bpow_IZR by lia.
              apply IZR_le. exact Ov.
Qed.

(** ** Rounding a positive real *)

Lemma div_bpow_le (x : R) (a b : Z) :
  x <= bpow a -> x / bpow b <= bpow (a - b).
Proof.
  intros H. pose proof (bpow_gt_0 b).
  apply Rmult_le_reg_r with (bpow b); [assumption|].
  rewrite <- bpow_plus. replace (a - b + b)%Z with a by lia.
  unfold Rdiv. rewrite Rmult_assoc, Rinv_l, Rmult_1_r by lra. exact H.
Qed.

Lemma div_bpow_ge (x : R) (a b : Z) :
  bpow a <= x -> bpow (a - b) <= x / bpow b.
Proof.
  intros H. pose proof (bpow_gt_0 b).
  apply Rmult_le_reg_r with (bpow b); [assumption|].
  rewrite <- bpow_plus. replace (a - b + b)%Z with a by lia.
  unfold Rdiv. rewrite Rmult_assoc, Rinv_l, Rmult_1_r by lra. exact H.
Qed.

Lemma rnd_val_nonneg (v : R) (g : Z) : 0 < v -> 0 <= rnd_val v g.
Proof.
  intros H. unfold rnd_val. pose proof (bpow_gt_0 ((SpecFloat.fexp prec emax) g)).
  apply Rmult_le_pos; [|lra]. apply IZR_le. apply Zrne_ge_int.
  apply Rlt_le. apply Rdiv_lt_0_compat; assumption.
Qed.

Lemma rnd_val_mono (v1 v2 : R) (g1 g2 : Z) :
  mag_ok v1 g1 -> mag_ok v2 g2 -> v1 <= v2 ->
  rnd_val v1 g1 <= rnd_val v2 g2.
Proof.
  intros [[P1 U1] M1] [[P2 U2] M2] H.
  assert (A : ((SpecFloat.fexp prec emax) g1 <= (SpecFloat.fexp prec emax) g2)%Z).
  { rewrite !fexp_eq. destruct (Z_le_gt_dec g1 g2) as [G|G]; [lia|].
    destruct M1 as [M1|M1]; [|lia].
    assert (bpow (g1 - 1) < bpow g2) by lra.
    apply bpow_lt_inv in H0. lia. }
  unfold rnd_val.
  destruct (Z.eq_dec ((SpecFloat.fexp prec emax) g1) ((SpecFloat.fexp prec emax) g2)) as [E|E].
  - rewrite E. pose proof (bpow_gt_0 ((SpecFloat.fexp prec emax) g2)).
    apply Rmult_le_compat_r; [lra|]. apply IZR_le, Zrne_mono.
    unfold Rdiv. apply Rmult_le_compat_r; [|exact H].
    apply Rlt_le, Rinv_0_lt_compat. assumption.
  - assert (G2 : (SpecFloat.fexp prec emax) g2 = (g2 - 53)%Z) by (rewrite !fexp_eq in *; lia).
    assert (G12 : (g1 < g2)%Z) by (rewrite !fexp_eq in *; lia).
    assert (L2 : bpow (g2 - 1) <= v2).
    { destruct M2 as [M2|M2]; [exact M2|]. rewrite !fexp_eq in *. lia. }
    apply Rle_trans with (bpow (g2 - 1)).
    + pose (hh := Z.max g1 ((SpecFloat.fexp prec emax) g1)).
      assert (Hh : hh = Z.max g1 ((SpecFloat.fexp prec emax) g1)) by reflexivity. clearbody hh.
      apply Rle_trans with (bpow hh).
      * replace hh with (hh - (SpecFloat.fexp prec emax) g1 + (SpecFloat.fexp prec emax) g1)%Z by lia.
        rewrite bpow_plus. pose proof (bpow_gt_0 ((SpecFloat.fexp prec emax) g1)).
        apply Rmult_le_compat_r; [lra|].
        rewrite (bpow_IZR (hh - (SpecFloat.fexp prec emax) g1)) by lia. apply IZR_le, Zrne_le_int.
        rewrite <- (bpow_IZR (hh - (SpecFloat.fexp prec emax) g1)) by lia.
        apply Rle_trans with (bpow (g1 - (SpecFloat.fexp prec emax) g1)).
        -- apply div_bpow_le. lra.
        -- apply bpow_le. lia.
      * apply bpow_le. rewrite !fexp_eq in *. lia.
    + replace (g2 - 1)%Z with (52 + (SpecFloat.fexp prec emax) g2)%Z at 1 by lia.
      rewrite bpow_plus. pose proof (bpow_gt_0 ((SpecFloat.fexp prec emax) g2)).
      apply Rmult_le_compat_r; [lra|].
      rewrite (bpow_IZR 52) by lia. apply IZR_le, Zrne_ge_int.
      rewrite <- (bpow_IZR 52) by lia.
      replace 52%Z with (g2 - 1 - (SpecFloat.fexp prec emax) g2)%Z by lia.
      apply div_bpow_ge. exact L2.
Qed.

(** ** Canonical mantissas and the order of finite values *)

Lemma F2R_pos (m : positive) (e : Z) : 0 < F2R (Z.pos m) e.
Proof.
  unfold F2R. apply Rmult_lt_0_compat; [|apply bpow_gt_0].
  apply IZR_lt. lia.
Qed.

Lemma bounded_facts (m : positive) (e : Z) :
  SpecFloat.bounded prec emax m e = true ->
  (-1074 <= e <= 971)%Z
  /\ (SpecFloat.fexp prec emax) (Z.pos (digits2_pos m) + e) = e
  /\ F2R (Z.pos m) e < bpow (e + 53)
  /\ ((-1074 < e)%Z -> bpow (e + 52) <= F2R (Z.pos m) e).
Proof.
  unfold SpecFloat.bounded, canonical_mantissa. intros H.
  apply andb_true_iff in H. destruct H as [C B].
  apply Z.eqb_eq in C. apply Z.leb_le in B.
  change (emax - prec)%Z with 971%Z in B.
  pose proof C as C'. rewrite fexp_eq in C'.
  destruct (digits2_bpow m) as [L U]. pose proof (bpow_gt_0 e).
  split; [lia|]. split; [exact C|]. split.
  - unfold F2R. rewrite Z.add_comm, bpow_plus.
    apply Rmult_lt_compat_r; [assumption|].
    apply Rlt_le_trans with (1 := U). apply bpow_le. lia.
  - intros G. unfold F2R. rewrite Z.add_comm, bpow_plus.
    apply Rmult_le_compat_r; [lra|].
    apply Rle_trans with (2 := L). apply bpow_le. lia.
Qed.

Lemma F2R_lt_exp (m1 m2 : positive) (e1 e2 : Z) :
  SpecFloat.bounded prec emax m1 e1 = true -> SpecFloat.bounded prec emax m2 e2 = true ->
  (e1 < e2)%Z -> F2R (Z.pos m1) e1 < F2R (Z.pos m2) e2.
Proof.
  intros B1 B2 H.
  destruct (bounded_facts _ _ B1) as (R1 & _ & U1 & _).
  destruct (bounded_facts _ _ B2) as (R2 & _ & _ & L2).
  apply Rlt_le_trans with (1 := U1).
  apply Rle_trans with (2 := L2 ltac:(lia)). apply bpow_le. lia.
Qed.

Lemma F2R_le_same_exp (m1 m2 : positive) (e : Z) :
  F2R (Z.pos m1) e <= F2R (Z.pos m2) e <-> (m1 <= m2)%positive.
Proof.
  unfold F2R. pose proof (bpow_gt_0 e). split.
  - intros L. apply Rmult_le_reg_r in L; [|assumption].
    apply le_IZR in L. lia.
  - intros L. apply Rmult_le_compat_r; [lra|]. apply IZR_le. lia.
Qed.

Lemma F2R_opp (m e : Z) : F2R (- m) e = - F2R m e.
Proof. unfold F2R. rewrite opp_IZR. ring. Qed.

Lemma SF2R_finite (s : bool) (m : positive) (e : Z) :
  SF2R (S754_finite s m e)
  = if s then - F2R (Z.pos m) e else F2R (Z.pos m) e.
Proof. destruct s; cbn [SF2R cond_Zopp]; [apply F2R_opp|reflexivity]. Qed.

(** On finite values the comparison of the format is the comparison of the
    reals they denote. *)
Lemma SFleb_of_Rle (x y : spec_float) :
  valid_binary x = true -> valid_binary y = true ->
  SFfinite x -> SFfinite y ->
  SF2R x <= SF2R y -> SFleb x y = true.
Proof.
  intros Vx Vy Fx Fy.
  destruct x as [sx|sx| |sx mx ex], y as [sy|sy| |sy my ey];
    try contradiction; cbn [valid_binary] in Vx, Vy.
  - reflexivity.
  - rewrite SF2R_finite. cbn [SF2R]. pose proof (F2R_pos my ey).
    destruct sy; intros; [lra|reflexivity].
  - rewrite SF2R_finite. cbn [SF2R]. pose proof (F2R_pos mx ex).
    destruct sx; intros; [reflexivity|lra].
  - rewrite !SF2R_finite. pose proof (F2R_pos mx ex). pose proof (F2R_pos my ey).
    unfold SFleb, SFcompare.
    destruct sx, sy; intros L; try reflexivity; try lra.
    + destruct (Z.compare_spec ex ey) as [E|E|E].
      * subst ey. assert (my <= mx)%positive by (apply (F2R_le_same_exp my mx ex); lra).
        rewrite Pos.compare_cont_spec. cbn [Pos.switch_Eq].
        destruct (Pos.compare_spec mx my); cbn; try reflexivity; lia.
      * pose proof (F2R_lt_exp _ _ _ _ Vx Vy E). lra.
      * reflexivity.
    + destruct (Z.compare_spec ex ey) as [E|E|E].
      * subst ey. assert (mx <= my)%positive by (apply (F2R_le_same_exp mx my ex); lra).
        rewrite Pos.compare_cont_spec. cbn [Pos.switch_Eq].
        destruct (Pos.compare_spec mx my); cbn; try reflexivity; lia.
      * reflexivity.
      * pose proof (F2R_lt_exp _ _ _ _ Vy Vx E). lra.
Qed.

Lemma SFleb_antisym (x y : spec_float) :
  SFleb x y = true -> SFleb y x = true -> SFcompare x y = Some Eq.
Proof.
  unfold SFleb. rewrite (SFcompare_antisym x y).
  destruct (SFcompare x y) as [[| |]|]; cbn; congruence.
Qed.

Lemma SF2R_zero_iff (x : spec_float) :
  SFfinite x -> (SF2R x = 0 <-> exists s, x = S754_zero s).
Proof.
  destruct x as [s|s| |s m e]; cbn [SFfinite]; try contradiction; intros _.
  - split; [eauto|reflexivity].
  - rewrite SF2R_finite. pose proof (F2R_pos m e). split.
    + destruct s; intros; lra.
    + intros [s' E]. discriminate.
Qed.

Lemma Rle_of_SFleb (x y : spec_float) :
  valid_binary x = true -> valid_binary y = true ->
  SFfinite x -> SFfinite y ->
  SFleb x y = true -> SF2R x <= SF2R y.
Proof.
  intros Vx Vy Fx Fy L.
  destruct (Rle_or_lt (SF2R x) (SF2R y)) as [H|H]; [exact H|exfalso].
  assert (L' : SFleb y x = true) by (apply SFleb_of_Rle; auto; lra).
  pose proof (SFleb_antisym _ _ L L') as C.
  destruct (SFcompare_Eq_inv _ _ C) as [E|(s & t & Ex & Ey)].
  - subst. lra.
  - subst. cbn in H. lra.
Qed.

Lemma Rlt_of_SFltb (x y : spec_float) :
  valid_binary x = true -> valid_binary y = true ->
  SFfinite x -> SFfinite y ->
  SFltb x y = true -> SF2R x < SF2R y.
Proof.
  intros Vx Vy Fx Fy L.
  destruct (Rle_or_lt (SF2R y) (SF2R x)) as [H|H]; [exfalso|exact H].
  assert (L' : SFleb y x = true) by (apply SFleb_of_Rle; auto).
  unfold SFltb in L. unfold SFleb in L'.
  rewrite (SFcompare_antisym x y) in L'.
  destruct (SFcompare x y) as [[| |]|]; cbn in *; congruence.
Qed.

Lemma SFltb_of_Rlt (x y : spec_float) :
  valid_binary x = true -> valid_binary y = true ->
  SFfinite x -> SFfinite y ->
  SF2R x < SF2R y -> SFltb x y = true.
Proof.
  intros Vx Vy Fx Fy H.
  assert (L : SFleb x y = true) by (apply SFleb_of_Rle; auto; lra).
  unfold SFltb. unfold SFleb in L.
  destruct (SFcompare x y) as [[| |]|] eqn:C; try congruence.
  destruct (SFcompare_Eq_inv _ _ C) as [E|(s & t & Ex & Ey)].
  - subst. lra.
  - subst. cbn in H. lra.
Qed.

(** ** A value of the format as the rounding of a real *)

Lemma valid_lt_emax (m : positive) (e : Z) :
  SpecFloat.bounded prec emax m e = true -> F2R (Z.pos m) e < bpow emax.
Proof.
  intros B. destruct (bounded_facts _ _ B) as (R1 & _ & U & _).
  apply Rlt_le_trans with (1 := U). apply bpow_le. unfold emax. lia.
Qed.

Lemma Rnd_abs_mono (s : bool) (a1 a2 : R) (r1 r2 : spec_float) :
  Rnd_abs s a1 r1 -> Rnd_abs s a2 r2 ->
  valid_binary r1 = true -> valid_binary r2 = true ->
  a1 <= a2 ->
  if s then SFleb r2 r1 = true else SFleb r1 r2 = true.
Proof.
  intros (g1 & M1 & H1) (g2 & M2 & H2) V1 V2 L.
  pose proof (rnd_val_mono _ _ _ _ M1 M2 L) as Z.
  destruct r1 as [s1|s1| |s1 m1 e1], r2 as [s2|s2| |s2 m2 e2];
    try contradiction; destruct H1 as [-> E1]; destruct H2 as [-> E2];
    cbn [valid_binary] in V1, V2.
  - destruct s; reflexivity.
  - destruct s; reflexivity.
  - destruct s; reflexivity.
  - exfalso. pose proof (bpow_gt_0 emax). lra.
  - destruct s; reflexivity.
  - exfalso. pose proof (valid_lt_emax _ _ V2). lra.
  - exfalso. pose proof (F2R_pos m1 e1). lra.
  - destruct s; reflexivity.
  - destruct s; apply SFleb_of_Rle; cbn [valid_binary SFfinite]; auto;
      rewrite !SF2R_finite; lra.
Qed.

Lemma Rnd_abs_class (s : bool) (a : R) (r : spec_float) :
  Rnd_abs s a r ->
  r = S754_zero s \/ r = S754_infinity s
  \/ exists m e, r = S754_finite s m e.
Proof.
  intros (g & _ & H). destruct r as [s'|s'| |s' m e]; try contradiction;
    destruct H as [-> _]; eauto.
Qed.

Lemma Rnd_mono (v1 v2 : R) (r1 r2 : spec_float) :
  Rnd v1 r1 -> Rnd v2 r2 ->
  valid_binary r1 = true -> valid_binary r2 = true ->
  v1 <= v2 -> SFleb r1 r2 = true.
Proof.
  intros [[Z1 [s1 ->]]|[[P1 H1]|[N1 H1]]] [[Z2 [s2 ->]]|[[P2 H2]|[N2 H2]]]
    V1 V2 L; try lra.
  - reflexivity.
  - destruct (Rnd_abs_class _ _ _ H2) as [->|[->|(m & e & ->)]]; reflexivity.
  - exact (Rnd_abs_mono false _ _ _ _ H1 H2 V1 V2 L).
  - destruct (Rnd_abs_class _ _ _ H1) as [->|[->|(m & e & ->)]]; reflexivity.
  - destruct (Rnd_abs_class _ _ _ H1) as [->|[->|(m & e & ->)]];
    destruct (Rnd_abs_class _ _ _ H2) as [->|[->|(m' & e' & ->)]]; reflexivity.
  - apply (Rnd_abs_mono true _ _ _ _ H2 H1 V2 V1). lra.
Qed.

Lemma Rnd_abs_self (s : bool) (m : positive) (e : Z) :
  SpecFloat.bounded prec emax m e = true ->
  Rnd_abs s (F2R (Z.pos m) e) (S754_finite s m e).
Proof.
  intros B. destruct (bounded_facts _ _ B) as (R1 & C & _ & _).
  exists (Z.pos (digits2_pos m) + e)%Z. split.
  - destruct (digits2_bpow m) as [L U]. pose proof (bpow_gt_0 e).
    split; [split|left].
    + apply F2R_pos.
    + unfold F2R. rewrite bpow_plus. apply Rmult_lt_compat_r; assumption.
    + unfold F2R. replace (Z.pos (digits2_pos m) + e - 1)%Z
        with (Z.pos (digits2_pos m) - 1 + e)%Z by lia.
      rewrite bpow_plus. apply Rmult_le_compat_r; [lra|exact L].
  - split; [reflexivity|]. unfold rnd_val. rewrite C.
    unfold F2R at 2. pose proof (bpow_gt_0 e).
    replace (IZR (Z.pos m) * bpow e / bpow e) with (IZR (Z.pos m))
      by (field; lra).
    rewrite Zrne_IZR. reflexivity.
Qed.

Lemma Rnd_self (x : spec_float) :
  valid_binary x = true -> SFfinite x -> Rnd (SF2R x) x.
Proof.
  destruct x as [s|s| |s m e]; cbn [SFfinite valid_binary]; try contradiction;
    intros V _.
  - left. cbn. eauto.
  - rewrite SF2R_finite. pose proof (F2R_pos m e). destruct s.
    + right. right. split; [lra|]. rewrite Ropp_involutive.
      now apply Rnd_abs_self.
    + right. left. split; [lra|]. now apply Rnd_abs_self.
Qed.

Lemma Rnd_not_nan (v : R) (r : spec_float) : Rnd v r -> r <> S754_nan.
Proof.
  intros [[_ [s ->]]|[[_ H]|[_ H]]]; try discriminate;
    destruct (Rnd_abs_class _ _ _ H) as [->|[->|(m & e & ->)]]; discriminate.
Qed.

(** A rounding that is bounded by finite values of the format is finite. *)
Lemma Rnd_finite (v : R) (r lo hi : spec_float) :
  Rnd v r -> valid_binary r = true ->
  valid_binary lo = true -> valid_binary hi = true ->
  SFfinite lo -> SFfinite hi ->
  SF2R lo <= v <= SF2R hi -> SFfinite r.
Proof.
  intros H V Vl Vh Fl Fh [L U].
  pose proof (Rnd_mono _ _ _ _ (Rnd_self lo Vl Fl) H Vl V L) as A.
  pose proof (Rnd_mono _ _ _ _ H (Rnd_self hi Vh Fh) V Vh U) as B.
  destruct r as [s|s| |s m e]; cbn; auto.
  - destruct s.
    + destruct lo as [sl|sl| |sl ml el]; try contradiction; cbn in A;
        try destruct sl; discriminate.
    + destruct hi as [sh|sh| |sh mh eh]; try contradiction; cbn in B;
        try destruct sh; discriminate.
  - destruct lo; cbn in A; try discriminate; contradiction.
Qed.

(** A rounding of the value of a finite [x] is [x] itself, up to the sign
    of zero. *)
Lemma Rnd_exact (x r : spec_float) :
  valid_binary x = true -> valid_binary r = true -> SFfinite x ->
  Rnd (SF2R x) r ->
  r = x \/ ((exists s, r = S754_zero s) /\ exists t, x = S754_zero t).
Proof.
  intros Vx Vr Fx H.
  pose proof (Rnd_mono _ _ _ _ (Rnd_self x Vx Fx) H Vx Vr (Rle_refl _)) as A.
  pose proof (Rnd_mono _ _ _ _ H (Rnd_self x Vx Fx) Vr Vx (Rle_refl _)) as B.
  pose proof (SFleb_antisym _ _ B A) as C.
  destruct (SFcompare_Eq_inv _ _ C) as [E|(s & t & Er & Ex)]; [now left|].
  right. eauto.
Qed.

(** ** The operations as roundings *)

Lemma binary_round_aux_Rnd (sx : bool) (mx ex : Z) (lx : location) (v : R) :
  (0 <= mx)%Z ->
  (ex <= (SpecFloat.fexp prec emax) (Zdigits2 mx + ex))%Z ->
  inbetween mx lx (v / bpow ex) ->
  0 < v ->
  Rnd_abs sx v (binary_round_aux prec emax sx mx ex lx).
Proof.
  intros Hm Hex Hin Hv.
  pose proof (binary_round_aux_spec sx mx ex lx v Hm Hex Hin) as S.
  cbn zeta in S.
  exists (Zdigits2 mx + ex)%Z. split.
  - pose proof (bpow_gt_0 ex) as Pex.
    destruct (inbetween_bounds _ _ _ Hin) as [Lv Uv].
    destruct (Zdigits2_bpow mx Hm) as [Ud Ld].
    assert (A : IZR mx * bpow ex <= v).
    { apply Rmult_le_reg_r with (/ bpow ex); [apply Rinv_0_lt_compat; exact Pex|].
      rewrite Rmult_assoc, Rinv_r, Rmult_1_r by lra. exact Lv. }
    assert (B : v < (IZR mx + 1) * bpow ex).
    { apply Rmult_lt_reg_r with (/ bpow ex); [apply Rinv_0_lt_compat; exact Pex|].
      rewrite Rmult_assoc, Rinv_r, Rmult_1_r by lra. exact Uv. }
    split; [split; [exact Hv|]|].
    + rewrite bpow_plus. nra.
    + destruct (Z.eq_dec mx 0) as [Z0|Z0].
      * right. subst mx. cbn [Zdigits2] in *. rewrite fexp_eq in Hex. lia.
      * left. replace (Zdigits2 mx + ex - 1)%Z with (Zdigits2 mx - 1 + ex)%Z by lia.
        rewrite bpow_plus. specialize (Ld ltac:(lia)). nra.
  - unfold rnd_val.
    destruct (binary_round_aux prec emax sx mx ex lx) as [s|s| |s m e];
      try contradiction; destruct S as [-> S]; (split; [reflexivity|]).
    + rewrite S. lra.
    + exact S.
    + exact S.
Qed.

Lemma digits2_pos_shift (m d : positive) :
  digits2_pos (Pos.iter xO m d) = (digits2_pos m + d)%positive
  /\ Z.pos (Pos.iter xO m d) = (Z.pos m * 2 ^ Z.pos d)%Z.
Proof.
  apply Pos.iter_ind.
  - cbn [digits2_pos]. split; [lia|]. rewrite Pos2Z.inj_xO. lia.
  - intros p a' [IH1 IH2]. cbn [digits2_pos]. split; [lia|].
    rewrite Pos2Z.inj_xO, IH2, Pos2Z.inj_succ, Z.pow_succ_r by lia. lia.
Qed.

Lemma F2R_shift (m e d : Z) :
  (0 <= d)%Z -> F2R (m * 2 ^ d) (e - d) = F2R m e.
Proof.
  intros H. unfold F2R. rewrite mult_IZR, <- bpow_IZR by lia.
  rewrite Rmult_assoc, <- bpow_plus. f_equal. f_equal. lia.
Qed.

Lemma shl_align_spec (m : positive) (e e' : Z) :
  (e' <= e)%Z ->
  Z.pos (fst (shl_align m e e')) = (Z.pos m * 2 ^ (e - e'))%Z
  /\ snd (shl_align m e e') = e'
  /\ (Z.pos (digits2_pos (fst (shl_align m e e'))) + e'
      = Z.pos (digits2_pos m) + e)%Z.
Proof.
  intros H. unfold shl_align.
  destruct (e' - e)%Z as [|d|d] eqn:D; try lia; cbn [fst snd].
  - replace (e - e')%Z with 0%Z by lia. replace e' with e by lia.
    rewrite Z.mul_1_r. auto.
  - destruct (digits2_pos_shift m d) as [A B].
    rewrite A, B. replace (e - e')%Z with (Z.pos d) by lia.
    split; [reflexivity|]. split; [reflexivity|]. lia.
Qed.

Lemma binary_round_Rnd (s : bool) (m : positive) (e : Z) :
  Rnd_abs s (F2R (Z.pos m) e) (binary_round prec emax s m e).
Proof.
  unfold binary_round.
  set (f := (SpecFloat.fexp prec emax) (Z.pos (digits2_pos m) + e)).
  destruct (Z_le_gt_dec f e) as [G|G].
  - destruct (shl_align_spec m e f G) as (A & B & C).
    destruct (shl_align m e f) as [mz ez]. cbn [fst snd] in A, B, C. subst ez.
    apply binary_round_aux_Rnd.
    + lia.
    + cbn [Zdigits2]. rewrite C. fold f. lia.
    + cbn [inbetween]. rewrite A. pose proof (bpow_gt_0 f).
      rewrite <- (F2R_shift (Z.pos m) e (e - f)) by lia.
      replace (e - (e - f))%Z with f by lia. unfold F2R. field. lra.
    + apply F2R_pos.
  - unfold shl_align. destruct (f - e)%Z as [|d|d] eqn:D; try lia.
    apply binary_round_aux_Rnd.
    + lia.
    + cbn [Zdigits2]. fold f. lia.
    + cbn [inbetween]. pose proof (bpow_gt_0 e). unfold F2R. field. lra.
    + apply F2R_pos.
Qed.

Lemma binary_normalize_Rnd (z e : Z) (sz : bool) :
  Rnd (F2R z e) (binary_normalize prec emax z e sz).
Proof.
  destruct z as [|p|p]; cbn [binary_normalize].
  - left. unfold F2R. split; [ring|eauto].
  - right. left. split; [apply F2R_pos|apply binary_round_Rnd].
  - right. right. change (Z.neg p) with (- Z.pos p)%Z.
    rewrite F2R_opp, Ropp_involutive. pose proof (F2R_pos p e).
    split; [lra|apply binary_round_Rnd].
Qed.

Lemma aligned_value (s : bool) (m : positive) (e ez : Z) :
  (ez <= e)%Z ->
  F2R (cond_Zopp s (Z.pos (fst (shl_align m e ez)))) ez
  = SF2R (S754_finite s m e).
Proof.
  intros H. destruct (shl_align_spec m e ez H) as (A & _ & _).
  rewrite A. cbn [SF2R].
  rewrite <- (F2R_shift (cond_Zopp s (Z.pos m)) e (e - ez)) by lia.
  replace (e - (e - ez))%Z with ez by lia.
  destruct s; cbn [cond_Zopp]; [|reflexivity].
  f_equal. lia.
Qed.

Lemma F2R_plus (m1 m2 e : Z) : F2R (m1 + m2) e = F2R m1 e + F2R m2 e.
Proof. unfold F2R. rewrite plus_IZR. ring. Qed.

Lemma F2R_minus (m1 m2 e : Z) : F2R (m1 - m2) e = F2R m1 e - F2R m2 e.
Proof. unfold F2R. rewrite minus_IZR. ring. Qed.

Lemma valid_opp (s : bool) (m : positive) (e : Z) :
  valid_binary (S754_finite s m e) = true ->
  valid_binary (S754_finite (negb s) m e) = true.
Proof. auto. Qed.

Lemma SFsub_Rnd (x y : spec_float) :
  valid_binary x = true -> valid_binary y = true ->
  SFfinite x -> SFfinite y ->
  Rnd (SF2R x - SF2R y) (SFsub prec emax x y).
Proof.
  intros Vx Vy Fx Fy.
  destruct x as [sx|sx| |sx mx ex], y as [sy|sy| |sy my ey];
    try contradiction.
  - left. cbn [SF2R]. split; [ring|]. cbn. destruct sx, sy; eauto.
  - cbn [SFsub]. replace (SF2R (S754_zero sx) - SF2R (S754_finite sy my ey))
      with (SF2R (S754_finite (negb sy) my ey)).
    + apply Rnd_self; [exact Vy|exact I].
    + rewrite !SF2R_finite. cbn [SF2R]. destruct sy; cbn [negb]; ring.
  - cbn [SFsub]. replace (SF2R (S754_finite sx mx ex) - SF2R (S754_zero sy))
      with (SF2R (S754_finite sx mx ex)) by (cbn [SF2R]; ring).
    apply Rnd_self; [exact Vx|exact I].
  - cbn [SFsub].
    rewrite <- (aligned_value sx mx ex (Z.min ex ey)) by lia.
    rewrite <- (aligned_value sy my ey (Z.min ex ey)) by lia.
    rewrite <- F2R_minus. apply binary_normalize_Rnd.
Qed.

Lemma SFadd_Rnd (x y : spec_float) :
  valid_binary x = true -> valid_binary y = true ->
  SFfinite x -> SFfinite y ->
  Rnd (SF2R x + SF2R y) (SFadd prec emax x y).
Proof.
  intros Vx Vy Fx Fy.
  destruct x as [sx|sx| |sx mx ex], y as [sy|sy| |sy my ey];
    try contradiction.
  - left. cbn [SF2R]. split; [ring|]. cbn. destruct sx, sy; eauto.
  - cbn [SFadd]. replace (SF2R (S754_zero sx) + SF2R (S754_finite sy my ey))
      with (SF2R (S754_finite sy my ey)) by (cbn [SF2R]; ring).
    apply Rnd_self; [exact Vy|exact I].
  - cbn [SFadd]. replace (SF2R (S754_finite sx mx ex) + SF2R (S754_zero sy))
      with (SF2R (S754_finite sx mx ex)) by (cbn [SF2R]; ring).
    apply Rnd_self; [exact Vx|exact I].
  - cbn [SFadd].
    rewrite <- (aligned_value sx mx ex (Z.min ex ey)) by lia.
    rewrite <- (aligned_value sy my ey (Z.min ex ey)) by lia.
    rewrite <- F2R_plus. apply binary_normalize_Rnd.
Qed.

Lemma Rnd_of_abs (s : bool) (a : R) (r : spec_float) :
  0 < a -> Rnd_abs s a r -> Rnd (if s then - a else a) r.
Proof.
  intros P H. destruct s.
  - right. right. split; [lra|]. rewrite Ropp_involutive. exact H.
  - right. left. split; assumption.
Qed.

Lemma F2R_mul (m1 m2 e1 e2 : Z) :
  F2R m1 e1 * F2R m2 e2 = F2R (m1 * m2) (e1 + e2).
Proof. unfold F2R. rewrite mult_IZR, bpow_plus. ring. Qed.

Lemma digits2_pos_mul (p q : positive) :
  (Z.pos (digits2_pos p) + Z.pos (digits2_pos q) - 1
   <= Z.pos (digits2_pos (p * q)))%Z.
Proof.
  destruct (digits2_pos_bounds p) as [Lp _].
  destruct (digits2_pos_bounds q) as [Lq _].
  destruct (digits2_pos_bounds (p * q)) as [_ U].
  set (dp := Z.pos (digits2_pos p)) in *.
  set (dq := Z.pos (digits2_pos q)) in *.
  set (d := Z.pos (digits2_pos (p * q))) in *.
  assert (Hp : (1 <= dp)%Z) by (unfold dp; lia).
  assert (Hq : (1 <= dq)%Z) by (unfold dq; lia).
  destruct (Z_le_gt_dec (dp + dq - 1) d) as [G|G]; [exact G|exfalso].
  assert (A : (2 ^ d <= 2 ^ (dp - 1 + (dq - 1)))%Z)
    by (apply Z.pow_le_mono_r; lia).
  rewrite Z.pow_add_r in A by lia.
  rewrite Pos2Z.inj_mul in U.
  assert (B : (2 ^ (dp - 1) * 2 ^ (dq - 1) <= Z.pos p * Z.pos q)%Z)
    by (apply Z.mul_le_mono_nonneg; lia).
  lia.
Qed.

Lemma bounded_digits (m : positive) (e : Z) :
  SpecFloat.bounded prec emax m e = true ->
  (-1074 <= e <= 971)%Z /\ (1 <= Z.pos (digits2_pos m) <= 53)%Z
  /\ (Z.pos (digits2_pos m) = 53 \/ e = -1074)%Z.
Proof.
  intros B. destruct (bounded_facts _ _ B) as (R1 & C & _ & _).
  rewrite fexp_eq in C. lia.
Qed.

Lemma SFmul_Rnd (x y : spec_float) :
  valid_binary x = true -> valid_binary y = true ->
  SFfinite x -> SFfinite y ->
  Rnd (SF2R x * SF2R y) (SFmul prec emax x y).
Proof.
  intros Vx Vy Fx Fy.
  destruct x as [sx|sx| |sx mx ex], y as [sy|sy| |sy my ey];
    try contradiction; cbn [SFmul].
  - left. cbn [SF2R]. split; [ring|eauto].
  - left. cbn [SF2R]. split; [ring|eauto].
  - left. cbn [SF2R]. split; [ring|eauto].
  - cbn [valid_binary] in Vx, Vy.
    destruct (bounded_digits _ _ Vx) as (Rx & Dx & Cx).
    destruct (bounded_digits _ _ Vy) as (Ry & Dy & Cy).
    pose proof (digits2_pos_mul mx my) as Dm.
    replace (SF2R (S754_finite sx mx ex) * SF2R (S754_finite sy my ey))
      with (if xorb sx sy then - F2R (Z.pos (mx * my)) (ex + ey)
            else F2R (Z.pos (mx * my)) (ex + ey)).
    + apply Rnd_of_abs; [apply F2R_pos|].
      apply binary_round_aux_Rnd.
      * lia.
      * cbn [Zdigits2]. rewrite fexp_eq. lia.
      * cbn [inbetween]. unfold F2R. pose proof (bpow_gt_0 (ex + ey)).
        field. lra.
      * apply F2R_pos.
    + rewrite !SF2R_finite, Pos2Z.inj_mul, <- F2R_mul.
      destruct sx, sy; cbn [xorb]; ring.
Qed.

(** *** Division *)

Lemma new_location_inbetween (q r m2 : Z) :
  (0 < m2)%Z -> (0 <= r < m2)%Z ->
  inbetween q (new_location m2 r) (IZR q + IZR r / IZR m2).
Proof.
  intros P [R0 R1].
  assert (Pm : 0 < IZR m2) by (apply IZR_lt; lia).
  assert (Q : forall k : R, k * IZR m2 = IZR r -> IZR r / IZR m2 = k).
  { intros k E. rewrite <- E. field. lra. }
  assert (Lt2 : (2 * r < m2)%Z -> IZR r / IZR m2 < / 2).
  { intros H. apply Rmult_lt_reg_r with (IZR m2); [exact Pm|].
    unfold Rdiv. rewrite Rmult_assoc, Rinv_l, Rmult_1_r by lra.
    apply IZR_lt in H. rewrite mult_IZR in H. lra. }
  assert (Gt2 : (m2 < 2 * r)%Z -> / 2 < IZR r / IZR m2).
  { intros H. apply Rmult_lt_reg_r with (IZR m2); [exact Pm|].
    unfold Rdiv. rewrite Rmult_assoc, Rinv_l, Rmult_1_r by lra.
    apply IZR_lt in H. rewrite mult_IZR in H. lra. }
  assert (Lt1 : IZR r / IZR m2 < 1).
  { apply Rmult_lt_reg_r with (IZR m2); [exact Pm|].
    unfold Rdiv. rewrite Rmult_assoc, Rinv_l, Rmult_1_r by lra.
    apply IZR_lt in R1. lra. }
  assert (Pos : (0 < r)%Z -> 0 < IZR r / IZR m2).
  { intros H. apply Rdiv_lt_0_compat; [apply IZR_lt; lia|exact Pm]. }
  unfold new_location, new_location_even, new_location_odd.
  destruct (Z.even m2) eqn:Ev.
  - destruct (Z.eqb_spec r 0) as [->|N].
    + cbn [inbetween]. unfold Rdiv. ring.
    + destruct (Z.compare_spec (2 * r) m2) as [E|L|G]; cbn [inbetween].
      * rewrite (Q (/ 2)); [reflexivity|].
        rewrite <- E, mult_IZR. field.
      * specialize (Pos ltac:(lia)). specialize (Lt2 L). lra.
      * specialize (Gt2 G). lra.
  - destruct (Z.eqb_spec r 0) as [->|N].
    + cbn [inbetween]. unfold Rdiv. ring.
    + assert (Od : (m2 <> 2 * r)%Z).
      { intros E. rewrite E, Z.even_mul in Ev. discriminate. }
      destruct (Z.compare_spec (2 * r + 1) m2) as [E|L|G]; cbn [inbetween].
      * specialize (Pos ltac:(lia)). specialize (Lt2 ltac:(lia)). lra.
      * specialize (Pos ltac:(lia)). specialize (Lt2 ltac:(lia)). lra.
      * specialize (Gt2 ltac:(lia)). lra.
Qed.

Lemma SFdiv_core_binary_spec (m1 m2 : positive) (e1 e2 : Z) :
  let '(q, e', l) := SFdiv_core_binary prec emax (Z.pos m1) e1 (Z.pos m2) e2 in
  (0 <= q)%Z
  /\ (e' <= (SpecFloat.fexp prec emax) (Zdigits2 q + e'))%Z
  /\ inbetween q l (F2R (Z.pos m1) e1 / F2R (Z.pos m2) e2 / bpow e').
Proof.
  unfold SFdiv_core_binary. cbn [Zdigits2].
  set (d1 := Z.pos (digits2_pos m1)). set (d2 := Z.pos (digits2_pos m2)).
  set (e' := Z.min ((SpecFloat.fexp prec emax) (d1 + e1 - (d2 + e2))) (e1 - e2)).
  set (s := (e1 - e2 - e')%Z).
  assert (Hs : (0 <= s)%Z) by (unfold s, e'; lia).
  set (m' := match s with
             | 0%Z => Z.pos m1
             | Z.pos _ => Z.shiftl (Z.pos m1) s
             | Z.neg _ => 0%Z
             end).
  assert (Hm' : m' = (Z.pos m1 * 2 ^ s)%Z).
  { unfold m'. clearbody s. destruct s as [|p|p]; try lia.
    apply Z.shiftl_mul_pow2. lia. }
  clearbody m'.
  pose proof (Z_div_mod_full m' (Z.pos m2) ltac:(lia)) as DM.
  destruct (Z.div_eucl m' (Z.pos m2)) as [q r]. destruct DM as [E Rr].
  assert (Rr' : (0 <= r < Z.pos m2)%Z).
  { destruct Rr as [Rr|Rr]; lia. }
  clear Rr.
  assert (P2 : (0 < 2 ^ s)%Z) by (apply Z.pow_pos_nonneg; lia).
  assert (Hq : (0 <= q)%Z) by nia.
  split; [exact Hq|]. split.
  - rewrite fexp_eq.
    destruct (Z_le_gt_dec e' (-1074)) as [G|G]; [lia|].
    assert (S53 : (53 - d1 + d2 <= s)%Z).
    { unfold s, e' in *. rewrite fexp_eq in *. lia. }
    destruct (digits2_pos_bounds m1) as [L1 _].
    destruct (digits2_pos_bounds m2) as [_ U2].
    fold d1 in L1. fold d2 in U2.
    assert (D1 : (1 <= d1)%Z) by (unfold d1; lia).
    assert (D2 : (1 <= d2)%Z) by (unfold d2; lia).
    assert (A : (2 ^ 52 * 2 ^ d2 <= m')%Z).
    { rewrite Hm', <- Z.pow_add_r by lia.
      apply Z.le_trans with (2 ^ (d1 - 1) * 2 ^ s)%Z.
      - rewrite <- Z.pow_add_r by lia. apply Z.pow_le_mono_r; lia.
      - apply Z.mul_le_mono_nonneg_r; lia. }
    assert (Q52 : (2 ^ 52 <= q)%Z).
    { destruct (Z_le_gt_dec (2 ^ 52) q) as [K|K]; [exact K|exfalso].
      assert (K1 : (Z.pos m2 * (q + 1) <= Z.pos m2 * 2 ^ 52)%Z)
        by (apply Z.mul_le_mono_nonneg_l; lia).
      assert (K2 : (Z.pos m2 * 2 ^ 52 < 2 ^ d2 * 2 ^ 52)%Z)
        by (apply Z.mul_lt_mono_pos_r; lia).
      lia. }
    destruct (Zdigits2_bpow q Hq) as [Uq _].
    assert (bpow 52 < bpow (Zdigits2 q)).
    { apply Rlt_le_trans with (2 := Uq). rewrite (bpow_IZR 52) by lia.
      apply IZR_le in Q52. lra. }
    apply bpow_lt_inv in H. lia.
  - replace (F2R (Z.pos m1) e1 / F2R (Z.pos m2) e2 / bpow e')
      with (IZR q + IZR r / IZR (Z.pos m2)).
    + apply new_location_inbetween; lia.
    + assert (Pm2 : 0 < IZR (Z.pos m2)) by (apply IZR_lt; lia).
      pose proof (bpow_gt_0 e2). pose proof (bpow_gt_0 e').
      assert (E1 : bpow e1 = bpow s * bpow e2 * bpow e').
      { rewrite <- !bpow_plus. f_equal. unfold s. lia. }
      assert (E2 : IZR (Z.pos m1) * bpow s = IZR (Z.pos m2) * IZR q + IZR r).
      { rewrite (bpow_IZR s) by lia.
        rewrite <- mult_IZR, <- Hm', E, plus_IZR, mult_IZR. reflexivity. }
      unfold F2R. rewrite E1.
      apply Rmult_eq_reg_r with (IZR (Z.pos m2)); [|lra].
      transitivity (IZR (Z.pos m1) * bpow s); [rewrite E2; field; lra|].
      field. lra.
Qed.

Lemma SFdiv_Rnd (x y : spec_float) :
  valid_binary x = true -> valid_binary y = true ->
  SFfinite x -> SFfinite y -> SF2R y <> 0 ->
  Rnd (SF2R x / SF2R y) (SFdiv prec emax x y).
Proof.
  intros Vx Vy Fx Fy Ny.
  destruct y as [sy|sy| |sy my ey]; try contradiction;
    try (cbn [SF2R] in Ny; lra).
  destruct x as [sx|sx| |sx mx ex]; try contradiction; cbn [SFdiv].
  - left. cbn [SF2R]. split; [unfold Rdiv; ring|eauto].
  - pose proof (SFdiv_core_binary_spec mx my ex ey) as S.
    destruct (SFdiv_core_binary prec emax (Z.pos mx) ex (Z.pos my) ey)
      as [[mz ez] lz].
    destruct S as (S1 & S2 & S3).
    pose proof (F2R_pos mx ex). pose proof (F2R_pos my ey).
    replace (SF2R (S754_finite sx mx ex) / SF2R (S754_finite sy my ey))
      with (if xorb sx sy then - (F2R (Z.pos mx) ex / F2R (Z.pos my) ey)
            else F2R (Z.pos mx) ex / F2R (Z.pos my) ey).
    + apply Rnd_of_abs; [apply Rdiv_lt_0_compat; assumption|].
      apply binary_round_aux_Rnd; try assumption.
      apply Rdiv_lt_0_compat; assumption.
    + rewrite !SF2R_finite. destruct sx, sy; cbn [xorb]; field; lra.
Qed.

(** *** Square root *)

Lemma sqrt_inbetween (q r : Z) :
  (0 <= q)%Z -> (0 <= r <= 2 * q)%Z ->
  inbetween q (if (r =? 0)%Z then loc_Exact
               else loc_Inexact (if (r <=? q)%Z then Lt else Gt))
            (R_sqrt.sqrt (IZR (q * q + r))).
Proof.
  intros Hq [R0 R1].
  set (u := R_sqrt.sqrt (IZR (q * q + r))).
  assert (Pu : 0 <= u) by apply sqrt_pos.
  assert (Su : u * u = IZR q * IZR q + IZR r).
  { unfold u. rewrite sqrt_sqrt; [rewrite plus_IZR, mult_IZR; reflexivity|].
    apply IZR_le. nia. }
  assert (Pq : 0 <= IZR q) by (apply IZR_le; lia).
  assert (Pr : 0 <= IZR r) by (apply IZR_le; lia).
  assert (Ur : IZR r <= 2 * IZR q).
  { apply IZR_le in R1. rewrite mult_IZR in R1. exact R1. }
  destruct (Z.eqb_spec r 0) as [E|N].
  - cbn [inbetween]. subst r. nra.
  - assert (1 <= IZR r) by (apply IZR_le; lia).
    destruct (Z.leb_spec r q) as [L|G]; cbn [inbetween].
    + apply IZR_le in L. split; nra.
    + assert (IZR q + 1 <= IZR r).
      { rewrite <- plus_IZR. apply IZR_le. lia. }
      split; nra.
Qed.

Lemma SFsqrt_core_binary_spec (m : positive) (e : Z) :
  let '(q, e', l) := SFsqrt_core_binary prec emax (Z.pos m) e in
  (0 <= q)%Z
  /\ (e' <= (SpecFloat.fexp prec emax) (Zdigits2 q + e'))%Z
  /\ inbetween q l (R_sqrt.sqrt (F2R (Z.pos m) e) / bpow e').
Proof.
  unfold SFsqrt_core_binary. cbn [Zdigits2].
  set (d := Z.pos (digits2_pos m)).
  set (e' := Z.min ((SpecFloat.fexp prec emax) (Z.div2 (d + e + 1))) (Z.div2 e)).
  set (s := (e - 2 * e')%Z).
  assert (Hs : (0 <= s)%Z).
  { unfold s, e'. rewrite !Z.div2_div.
    pose proof (Z.mul_div_le e 2 ltac:(lia)). lia. }
  set (m' := match s with
             | 0%Z => Z.pos m
             | Z.pos _ => Z.shiftl (Z.pos m) s
             | Z.neg _ => 0%Z
             end).
  assert (Hm' : m' = (Z.pos m * 2 ^ s)%Z).
  { unfold m'. clearbody s. destruct s as [|p|p]; try lia.
    apply Z.shiftl_mul_pow2. lia. }
  clearbody m'.
  assert (P2 : (0 < 2 ^ s)%Z) by (apply Z.pow_pos_nonneg; lia).
  assert (Pm' : (0 < m')%Z) by nia.
  pose proof (Z.sqrtrem_spec m' ltac:(lia)) as SR.
  destruct (Z.sqrtrem m') as [q r]. destruct SR as [E Rr].
  assert (Hq : (0 <= q)%Z) by nia.
  split; [exact Hq|]. split.
  - rewrite fexp_eq.
    destruct (Z_le_gt_dec e' (-1074)) as [G|G]; [lia|].
    assert (S105 : (105 - d <= s)%Z).
    { unfold s, e' in *. rewrite fexp_eq, !Z.div2_div in *.
      pose proof (Z.mul_div_le (d + e + 1) 2 ltac:(lia)). lia. }
    destruct (digits2_pos_bounds m) as [L1 _]. fold d in L1.
    assert (D1 : (1 <= d)%Z) by (unfold d; lia).
    assert (A : (2 ^ 104 <= m')%Z).
    { rewrite Hm'.
      apply Z.le_trans with (2 ^ (d - 1) * 2 ^ s)%Z.
      - rewrite <- Z.pow_add_r by lia. apply Z.pow_le_mono_r; lia.
      - apply Z.mul_le_mono_nonneg_r; lia. }
    assert (Q52 : (2 ^ 52 <= q)%Z).
    { destruct (Z_le_gt_dec (2 ^ 52) q) as [K|K]; [exact K|exfalso].
      assert (K1 : (q + 1 <= 2 ^ 52)%Z) by lia.
      assert (K2 : ((q + 1) * (q + 1) <= 2 ^ 52 * 2 ^ 52)%Z)
        by (apply Z.mul_le_mono_nonneg; lia).
      change (2 ^ 52 * 2 ^ 52)%Z with (2 ^ 104)%Z in K2. nia. }
    destruct (Zdigits2_bpow q Hq) as [Uq _].
    assert (bpow 52 < bpow (Zdigits2 q)).
    { apply Rlt_le_trans with (2 := Uq). rewrite (bpow_IZR 52) by lia.
      apply IZR_le in Q52. lra. }
    apply bpow_lt_inv in H. lia.
  - replace (R_sqrt.sqrt (F2R (Z.pos m) e) / bpow e')
      with (R_sqrt.sqrt (IZR (q * q + r))).
    + apply sqrt_inbetween; lia.
    + pose proof (bpow_gt_0 e') as Pe.
      assert (V : F2R (Z.pos m) e = IZR (q * q + r) * (bpow e' * bpow e')).
      { rewrite <- E, Hm', mult_IZR, <- bpow_IZR, <- bpow_plus by lia.
        unfold F2R. rewrite Rmult_assoc, <- bpow_plus. f_equal. f_equal.
        unfold s. lia. }
      rewrite V, sqrt_mult, sqrt_square; try lra.
      * field. lra.
      * apply IZR_le. lia.
      * nra.
Qed.

Lemma SFsqrt_Rnd (x : spec_float) :
  valid_binary x = true -> SFfinite x -> 0 <= SF2R x ->
  Rnd (R_sqrt.sqrt (SF2R x)) (SFsqrt prec emax x).
Proof.
  intros V F P.
  destruct x as [s|s| |s m e]; try contradiction.
  - left. cbn [SF2R SFsqrt]. split; [apply sqrt_0|eauto].
  - rewrite SF2R_finite in P. pose proof (F2R_pos m e) as Pm.
    destruct s; [lra|]. cbn [SFsqrt SF2R cond_Zopp].
    pose proof (SFsqrt_core_binary_spec m e) as S.
    destruct (SFsqrt_core_binary prec emax (Z.pos m) e) as [[mz ez] lz].
    destruct S as (S1 & S2 & S3).
    right. left. split; [apply sqrt_lt_R0; exact Pm|].
    apply binary_round_aux_Rnd; try assumption.
    apply sqrt_lt_R0; exact Pm.
Qed.

Lemma SFsqrt_negative (x : spec_float) :
  SF2R x < 0 -> SFsqrt prec emax x = S754_nan.
Proof.
  destruct x as [s|s| |s m e]; cbn [SF2R]; try lra.
  intros H. destruct s; [reflexivity|].
  pose proof (F2R_pos m e). cbn [cond_Zopp] in H. lra.
Qed.

(** ** binary64 values as reals *)

Lemma finite_not_nan (x : float) : finite x -> is_nan x = false.
Proof.
  unfold finite. rewrite is_nan_SF.
  destruct (Prim2SF x); cbn; intros H; auto; contradiction.
Qed.

Lemma float_class (x : float) :
  is_nan x = true \/ x = infinity \/ x = neg_infinity \/ finite x.
Proof.
  unfold finite. rewrite is_nan_SF.
  destruct (Prim2SF x) as [s|s| |s m e] eqn:E; cbn; auto.
  destruct s; [right; right; left | right; left];
    apply Prim2SF_inj; rewrite E; reflexivity.
Qed.

Lemma isFinite_finite (x : float) : isFinite x = true <-> finite x.
Proof.
  unfold isFinite, finite, is_infinity.
  rewrite is_nan_SF, FloatAxioms.eqb_spec, abs_spec.
  destruct (Prim2SF x) as [s|s| |s m e]; cbn; try tauto;
    split; solve [discriminate | tauto | reflexivity | auto].
Qed.

Lemma leb_B2R (x y : float) :
  finite x -> finite y -> ((x <=? y)%float = true <-> B2R x <= B2R y).
Proof.
  intros Fx Fy. rewrite FloatAxioms.leb_spec. unfold B2R. split.
  - apply Rle_of_SFleb; auto using Prim2SF_valid.
  - apply SFleb_of_Rle; auto using Prim2SF_valid.
Qed.

Lemma ltb_B2R (x y : float) :
  finite x -> finite y -> ((x <? y)%float = true <-> B2R x < B2R y).
Proof.
  intros Fx Fy. rewrite FloatAxioms.ltb_spec. unfold B2R. split.
  - apply Rlt_of_SFltb; auto using Prim2SF_valid.
  - apply SFltb_of_Rlt; auto using Prim2SF_valid.
Qed.

Lemma RND_self (x : float) : finite x -> RND (B2R x) x.
Proof. intros F. apply Rnd_self; [apply Prim2SF_valid|exact F]. Qed.

Lemma RND_mono (v1 v2 : R) (x y : float) :
  RND v1 x -> RND v2 y -> v1 <= v2 -> (x <=? y)%float = true.
Proof.
  intros H1 H2 L. rewrite FloatAxioms.leb_spec.
  apply (Rnd_mono v1 v2); auto using Prim2SF_valid.
Qed.

Lemma RND_not_nan (v : R) (x : float) : RND v x -> is_nan x = false.
Proof.
  intros H. apply Rnd_not_nan in H. rewrite is_nan_SF.
  destruct (Prim2SF x); congruence.
Qed.

Lemma RND_finite (v : R) (x lo hi : float) :
  RND v x -> finite lo -> finite hi -> B2R lo <= v <= B2R hi -> finite x.
Proof.
  intros H Fl Fh B.
  apply (Rnd_finite v (Prim2SF x) (Prim2SF lo) (Prim2SF hi));
    auto using Prim2SF_valid.
Qed.

Lemma RND_le (v : R) (x y : float) :
  RND v x -> finite y -> v <= B2R y -> (x <=? y)%float = true.
Proof. intros H F L. apply (RND_mono v (B2R y)); auto using RND_self. Qed.

Lemma RND_ge (v : R) (x y : float) :
  RND v x -> finite y -> B2R y <= v -> (y <=? x)%float = true.
Proof. intros H F L. apply (RND_mono (B2R y) v); auto using RND_self. Qed.

Lemma RND_le_R (v : R) (x y : float) :
  RND v x -> finite x -> finite y -> v <= B2R y -> B2R x <= B2R y.
Proof. intros H Fx Fy L. apply leb_B2R; auto. apply (RND_le v); auto. Qed.

Lemma RND_ge_R (v : R) (x y : float) :
  RND v x -> finite x -> finite y -> B2R y <= v -> B2R y <= B2R x.
Proof. intros H Fx Fy L. apply leb_B2R; auto. apply (RND_ge v); auto. Qed.

Lemma RND_nonneg (v : R) (x : float) :
  RND v x -> finite x -> 0 <= v -> 0 <= B2R x.
Proof. intros H F L. apply (RND_ge_R v x 0%float); auto. exact I. Qed.

Lemma mul_RND (x y : float) :
  finite x -> finite y -> RND (B2R x * B2R y) (x * y)%float.
Proof.
  intros Fx Fy. unfold RND. rewrite mul_spec.
  apply SFmul_Rnd; auto using Prim2SF_valid.
Qed.

Lemma div_RND (x y : float) :
  finite x -> finite y -> B2R y <> 0 -> RND (B2R x / B2R y) (x / y)%float.
Proof.
  intros Fx Fy N. unfold RND. rewrite div_spec.
  apply SFdiv_Rnd; auto using Prim2SF_valid.
Qed.

Lemma sub_RND (x y : float) :
  finite x -> finite y -> RND (B2R x - B2R y) (x - y)%float.
Proof.
  intros Fx Fy. unfold RND. rewrite sub_spec.
  apply SFsub_Rnd; auto using Prim2SF_valid.
Qed.

Lemma add_RND (x y : float) :
  finite x -> finite y -> RND (B2R x + B2R y) (x + y)%float.
Proof.
  intros Fx Fy. unfold RND. rewrite add_spec.
  apply SFadd_Rnd; auto using Prim2SF_valid.
Qed.

Lemma B2R_of_SF (x : float) (s : bool) (m : positive) (e : Z) :
  Prim2SF x = S754_finite s m e -> B2R x = F2R (cond_Zopp s (Z.pos m)) e.
Proof. intros E. unfold B2R. rewrite E. reflexivity. Qed.

Lemma B2R_zero : B2R 0%float = 0.
Proof. reflexivity. Qed.

Lemma finite_of_SF (x : float) (s : bool) (m : positive) (e : Z) :
  Prim2SF x = S754_finite s m e -> finite x.
Proof. intros E. unfold finite. rewrite E. exact I. Qed.

Lemma B2R_max_float : B2R max_float = F2R (2 ^ 53 - 1) 971.
Proof. apply (B2R_of_SF max_float false). reflexivity. Qed.

Lemma finite_bound (x : float) :
  finite x -> - B2R max_float <= B2R x <= B2R max_float.
Proof.
  rewrite B2R_max_float. unfold finite, B2R.
  pose proof (Prim2SF_valid x) as V.
  destruct (Prim2SF x) as [s|s| |s m e]; try contradiction; intros _.
  - cbn [SF2R]. unfold F2R. pose proof (bpow_gt_0 971).
    assert (0 <= IZR (2 ^ 53 - 1)) by (apply IZR_le; lia). nra.
  - cbn [valid_binary] in V. destruct (bounded_digits _ _ V) as (Re & D & _).
    destruct (digits2_pos_bounds m) as [_ U].
    assert (M : (Z.pos m <= 2 ^ 53 - 1)%Z).
    { assert (2 ^ Z.pos (digits2_pos m) <= 2 ^ 53)%Z
        by (apply Z.pow_le_mono_r; lia). lia. }
    assert (A : F2R (Z.pos m) e <= F2R (2 ^ 53 - 1) 971).
    { unfold F2R. apply Rmult_le_compat.
      - apply IZR_le. lia.
      - pose proof (bpow_gt_0 e). lra.
      - apply IZR_le. exact M.
      - apply bpow_le. lia. }
    pose proof (F2R_pos m e). rewrite SF2R_finite. destruct s; lra.
Qed.

Lemma B2R_neg_exp (x : float) (s : bool) (m e : positive) (p n : Z) :
  Prim2SF x = S754_finite s m (Z.neg e) ->
  Z.pow_pos 2 e = p -> cond_Zopp s (Z.pos m) = n ->
  B2R x = IZR n / IZR p.
Proof.
  intros E <- <-. rewrite (B2R_of_SF x s m (Z.neg e) E). unfold F2R.
  change (Z.neg e) with (- Z.pos e)%Z. rewrite bpow_opp, bpow_IZR by lia.
  reflexivity.
Qed.

Lemma B2R_pos_exp (x : float) (s : bool) (m e : positive) (p n : Z) :
  Prim2SF x = S754_finite s m (Z.pos e) ->
  Z.pow_pos 2 e = p -> cond_Zopp s (Z.pos m) = n ->
  B2R x = IZR n * IZR p.
Proof.
  intros E <- <-. rewrite (B2R_of_SF x s m (Z.pos e) E). unfold F2R.
  rewrite bpow_IZR by lia. reflexivity.
Qed.

Lemma B2R_zero_exp (x : float) (s : bool) (m : positive) (n : Z) :
  Prim2SF x = S754_finite s m 0 -> cond_Zopp s (Z.pos m) = n ->
  B2R x = IZR n.
Proof.
  intros E <-. rewrite (B2R_of_SF x s m 0%Z E). unfold F2R.
  rewrite bpow_0. ring.
Qed.

(** The rational value of a finite constant, and its finiteness. *)
Ltac B2R_const x H F :=
  let sf := eval vm_compute in (Prim2SF x) in
  lazymatch sf with
  | S754_finite ?s ?m (Z.neg ?e) =>
      let p := eval vm_compute in (Z.pow_pos 2 e) in
      let n := eval vm_compute in (cond_Zopp s (Z.pos m)) in
      assert (H : B2R x = IZR n / IZR p)
        by (apply (B2R_neg_exp x s m e p n); vm_compute; reflexivity);
      assert (F : finite x)
        by (apply (finite_of_SF x s m (Z.neg e)); vm_compute; reflexivity)
  | S754_finite ?s ?m (Z.pos ?e) =>
      let p := eval vm_compute in (Z.pow_pos 2 e) in
      let n := eval vm_compute in (cond_Zopp s (Z.pos m)) in
      assert (H : B2R x = IZR n * IZR p)
        by (apply (B2R_pos_exp x s m e p n); vm_compute; reflexivity);
      assert (F : finite x)
        by (apply (finite_of_SF x s m (Z.pos e)); vm_compute; reflexivity)
  | S754_finite ?s ?m Z0 =>
      let n := eval vm_compute in (cond_Zopp s (Z.pos m)) in
      assert (H : B2R x = IZR n)
        by (apply (B2R_zero_exp x s m n); vm_compute; reflexivity);
      assert (F : finite x)
        by (apply (finite_of_SF x s m 0%Z); vm_compute; reflexivity)
  end.

Lemma finite_zero : finite 0%float.
Proof. exact I. Qed.

Lemma is_nan_eq (x : float) : is_nan x = true -> x = nan.
Proof.
  rewrite is_nan_SF. intros H. apply Prim2SF_inj.
  destruct (Prim2SF x); try discriminate. reflexivity.
Qed.

Lemma max_float_value : B2R max_float = IZR (2 ^ 53 - 1) * IZR (2 ^ 971).
Proof. rewrite B2R_max_float. unfold F2R. rewrite bpow_IZR by lia. reflexivity. Qed.

Lemma finite_max_float : finite max_float.
Proof. exact I. Qed.

Lemma max_float_big : 1000000 <= B2R max_float.
Proof.
  rewrite max_float_value, <- mult_IZR. apply IZR_le.
  assert (2 ^ 20 <= 2 ^ 971)%Z by (apply Z.pow_le_mono_r; lia).
  change (2 ^ 20)%Z with 1048576%Z in H.
  change (2 ^ 53 - 1)%Z with 9007199254740991%Z. lia.
Qed.

(** The intermediate values of [calculateBeta1] above 4000 psi stay finite
    and the subtracted term is not negative. *)
Lemma beta1_steps (fc : float) :
  finite fc -> B2R 4000%float < B2R fc ->
  finite (fc - 4000)%float
  /\ finite ((fc - 4000) / 1000)%float
  /\ finite (0.05 * ((fc - 4000) / 1000))%float
  /\ 0 <= B2R (0.05 * ((fc - 4000) / 1000))%float.
Proof.
  intros F L.
  B2R_const 4000%float V4 F4. B2R_const 1000%float V1 F1.
  B2R_const 0.05%float V5 F5.
  pose proof max_float_big as MB. pose proof finite_max_float as FM.
  pose proof finite_zero as F0. pose proof B2R_zero as V0.
  pose proof (finite_bound fc F) as Bfc.
  set (t1 := (fc - 4000)%float).
  assert (R1 : RND (B2R fc - B2R 4000%float) t1) by (apply sub_RND; auto).
  assert (T1 : finite t1).
  { apply (RND_finite _ _ 0%float max_float R1); auto; lra. }
  assert (P1 : 0 <= B2R t1).
  { apply (RND_nonneg _ _ R1); auto; lra. }
  set (t2 := (t1 / 1000)%float).
  assert (R2 : RND (B2R t1 / B2R 1000%float) t2) by (apply div_RND; auto; lra).
  pose proof (finite_bound t1 T1) as B1.
  assert (Q2 : 0 <= B2R t1 / B2R 1000%float <= B2R max_float).
  { rewrite V1. lra. }
  assert (T2 : finite t2).
  { apply (RND_finite _ _ 0%float max_float R2); auto; lra. }
  assert (P2 : 0 <= B2R t2).
  { apply (RND_nonneg _ _ R2); auto; lra. }
  set (t3 := (0.05 * t2)%float).
  assert (R3 : RND (B2R 0.05%float * B2R t2) t3) by (apply mul_RND; auto).
  pose proof (finite_bound t2 T2) as B2.
  assert (Q3 : 0 <= B2R 0.05%float * B2R t2 <= B2R max_float).
  { rewrite V5. lra. }
  assert (T3 : finite t3).
  { apply (RND_finite _ _ 0%float max_float R3); auto; lra. }
  assert (P3 : 0 <= B2R t3).
  { apply (RND_nonneg _ _ R3); auto; lra. }
  auto.
Qed.

Lemma calculateBeta1_spec (fc : float) :
  if is_nan fc then is_nan (calculateBeta1 fc) = true
  else ((0.65 <=? calculateBeta1 fc) && (calculateBeta1 fc <=? 0.85))%float = true.
Proof.
  destruct (float_class fc) as [N|[->|[->|F]]]; try (vm_compute; reflexivity).
  - rewrite N. apply is_nan_eq in N. subst fc. vm_compute. reflexivity.
  - rewrite (finite_not_nan fc F). unfold calculateBeta1.
    destruct (fc <=? 4000)%float eqn:L; [vm_compute; reflexivity|].
    B2R_const 4000%float V4 F4. B2R_const 0.85%float V85 F85.
    apply leb_false_ltb in L; auto using finite_not_nan.
    apply ltb_B2R in L; auto.
    destruct (beta1_steps fc F L) as (T1 & T2 & T3 & P3).
    set (t3 := (0.05 * ((fc - 4000) / 1000))%float) in *.
    set (t4 := (0.85 - t3)%float).
    assert (R4 : RND (B2R 0.85%float - B2R t3) t4) by (apply sub_RND; auto).
    assert (U4 : (t4 <=? 0.85)%float = true).
    { apply (RND_le _ _ _ R4); auto; lra. }
    pose proof (RND_not_nan _ _ R4) as N4.
    destruct (Math_max_cases t4 0.65%float N4 eq_refl) as ([E|E] & M1 & M2).
    + rewrite M2. rewrite E. exact U4.
    + rewrite M2. rewrite E. reflexivity.
Qed.

(** ** The order of binary64, infinities included *)

Lemma SFleb_trans (x y z : spec_float) :
  valid_binary x = true -> valid_binary y = true -> valid_binary z = true ->
  SFleb x y = true -> SFleb y z = true -> SFleb x z = true.
Proof.
  intros Vx Vy Vz H1 H2.
  assert (Fin : SFfinite x -> SFfinite y -> SFfinite z -> SFleb x z = true).
  { intros Fx Fy Fz. apply SFleb_of_Rle; auto.
    apply Rle_trans with (SF2R y); apply Rle_of_SFleb; auto. }
  destruct x as [sx|[|]| |sx mx ex], y as [sy|[|]| |sy my ey],
    z as [sz|[|]| |sz mz ez];
    try (apply Fin; exact I); clear Fin;
    try (cbn in H1; discriminate H1); try (cbn in H2; discriminate H2);
    try reflexivity;
    try (destruct sx; cbn in H1; discriminate H1);
    try (destruct sy; cbn in H1; discriminate H1);
    try (destruct sy; cbn in H2; discriminate H2);
    try (destruct sz; cbn in H2; discriminate H2);
    try (destruct sx; reflexivity); try (destruct sz; reflexivity).
Qed.

Lemma leb_trans (x y z : float) :
  (x <=? y)%float = true -> (y <=? z)%float = true -> (x <=? z)%float = true.
Proof.
  rewrite !FloatAxioms.leb_spec. apply SFleb_trans; apply Prim2SF_valid.
Qed.

Lemma leb_infinity (x : float) : is_nan x = false -> (x <=? infinity)%float = true.
Proof.
  rewrite is_nan_SF, FloatAxioms.leb_spec.
  change (Prim2SF infinity) with (S754_infinity false).
  destruct (Prim2SF x) as [s|[|]| |[|] m e]; try discriminate; reflexivity.
Qed.

Lemma neg_infinity_leb (x : float) :
  is_nan x = false -> (neg_infinity <=? x)%float = true.
Proof.
  rewrite is_nan_SF, FloatAxioms.leb_spec.
  change (Prim2SF neg_infinity) with (S754_infinity true).
  destruct (Prim2SF x) as [s|[|]| |[|] m e]; try discriminate; reflexivity.
Qed.

Lemma infinity_leb (x : float) : (infinity <=? x)%float = true -> x = infinity.
Proof.
  rewrite FloatAxioms.leb_spec. intros H. apply Prim2SF_inj.
  change (Prim2SF infinity) with (S754_infinity false) in *.
  destruct (Prim2SF x) as [s|[|]| |[|] m e]; try discriminate; reflexivity.
Qed.

Lemma leb_neg_infinity (x : float) :
  (x <=? neg_infinity)%float = true -> x = neg_infinity.
Proof.
  rewrite FloatAxioms.leb_spec. intros H. apply Prim2SF_inj.
  change (Prim2SF neg_infinity) with (S754_infinity true) in *.
  destruct (Prim2SF x) as [s|[|]| |[|] m e]; try discriminate; reflexivity.
Qed.

Lemma between_finite (lo x hi : float) :
  finite lo -> finite hi ->
  (lo <=? x)%float = true -> (x <=? hi)%float = true -> finite x.
Proof.
  intros Fl Fh L U.
  destruct (float_class x) as [N|[->|[->|F]]]; [| | |exact F].
  - apply leb_not_nan in L. destruct L. congruence.
  - apply infinity_leb in U. subst hi. contradiction.
  - apply leb_neg_infinity in L. subst lo. contradiction.
Qed.

Lemma pos_SF (x : float) :
  finite x -> 0 < B2R x -> exists m e, Prim2SF x = S754_finite false m e.
Proof.
  unfold finite, B2R. destruct (Prim2SF x) as [s|s| |s m e];
    try contradiction; intros _ P.
  - cbn in P. lra.
  - rewrite SF2R_finite in P. pose proof (F2R_pos m e).
    destruct s; [lra|eauto].
Qed.

Lemma div_infinity_l (y : float) :
  finite y -> 0 < B2R y -> (infinity / y)%float = infinity.
Proof.
  intros F P. destruct (pos_SF y F P) as (m & e & E).
  apply Prim2SF_inj. rewrite div_spec, E. reflexivity.
Qed.

Lemma div_neg_infinity_l (y : float) :
  finite y -> 0 < B2R y -> (neg_infinity / y)%float = neg_infinity.
Proof.
  intros F P. destruct (pos_SF y F P) as (m & e & E).
  apply Prim2SF_inj. rewrite div_spec, E. reflexivity.
Qed.

Lemma mul_infinity_r (x : float) :
  finite x -> 0 < B2R x -> (x * infinity)%float = infinity.
Proof.
  intros F P. destruct (pos_SF x F P) as (m & e & E).
  apply Prim2SF_inj. rewrite mul_spec, E. reflexivity.
Qed.

(** Division by a positive finite value keeps the order. *)
Lemma div_mono_l (x y z : float) :
  finite z -> 0 < B2R z ->
  (x <=? y)%float = true -> (x / z <=? y / z)%float = true.
Proof.
  intros Fz Pz L.
  destruct (leb_not_nan _ _ L) as [Nx Ny].
  assert (Q : forall t, finite t -> RND (B2R t / B2R z) (t / z)%float).
  { intros t Ft. apply div_RND; auto. lra. }
  destruct (float_class y) as [N|[->|[->|Fy]]]; [congruence| | |].
  - rewrite div_infinity_l by assumption. apply leb_infinity.
    destruct (float_class x) as [N|[->|[->|Fx]]]; [congruence| | |].
    + rewrite div_infinity_l by assumption. reflexivity.
    + rewrite div_neg_infinity_l by assumption. reflexivity.
    + apply (RND_not_nan _ _ (Q x Fx)).
  - apply leb_neg_infinity in L. subst x. rewrite div_neg_infinity_l by assumption.
    reflexivity.
  - destruct (float_class x) as [N|[->|[->|Fx]]]; [congruence| | |].
    + apply infinity_leb in L. subst y. contradiction.
    + rewrite div_neg_infinity_l by assumption. apply neg_infinity_leb.
      apply (RND_not_nan _ _ (Q y Fy)).
    + apply (RND_mono _ _ _ _ (Q x Fx) (Q y Fy)).
      apply leb_B2R in L; auto.
      unfold Rdiv. apply Rmult_le_compat_r; [|exact L].
      apply Rlt_le, Rinv_0_lt_compat, Pz.
Qed.

Lemma RND_finite_wide (v : R) (x : float) :
  RND v x -> - (B2R max_float + 1) <= v <= B2R max_float + 1 -> finite x.
Proof.
  intros H [L U].
  B2R_const 1%float V1 F1.
  assert (Hi : RND (B2R max_float + B2R 1%float) max_float).
  { apply (add_RND max_float 1%float); [exact I|exact F1]. }
  assert (Lo : RND (B2R (- max_float)%float - B2R 1%float) (- max_float)%float).
  { apply (sub_RND (- max_float)%float 1%float); [exact I|exact F1]. }
  assert (E : B2R (- max_float)%float = - B2R max_float).
  { unfold B2R. change (Prim2SF (- max_float)%float)
      with (S754_finite true 9007199254740991 971).
    change (Prim2SF max_float) with (S754_finite false 9007199254740991 971).
    rewrite !SF2R_finite. reflexivity. }
  apply (between_finite (- max_float)%float x max_float); try exact I.
  - apply (RND_mono _ _ _ _ Lo H). lra.
  - apply (RND_mono _ _ _ _ H Hi). lra.
Qed.

(** ** NaN through the operations *)

Lemma add_nan_l (y : float) : (nan + y)%float = nan.
Proof. apply Prim2SF_inj. rewrite add_spec. reflexivity. Qed.
Lemma add_nan_r (x : float) : (x + nan)%float = nan.
Proof.
  apply Prim2SF_inj. rewrite add_spec.
  change (Prim2SF nan) with S754_nan. destruct (Prim2SF x) as [|[|]| |]; reflexivity.
Qed.
Lemma sub_nan_l (y : float) : (nan - y)%float = nan.
Proof. apply Prim2SF_inj. rewrite sub_spec. reflexivity. Qed.
Lemma sub_nan_r' (x : float) : (x - nan)%float = nan.
Proof.
  apply Prim2SF_inj. rewrite sub_spec.
  change (Prim2SF nan) with S754_nan. destruct (Prim2SF x) as [|[|]| |]; reflexivity.
Qed.
Lemma mul_nan_l (y : float) : (nan * y)%float = nan.
Proof. apply Prim2SF_inj. rewrite mul_spec. reflexivity. Qed.
Lemma mul_nan_r' (x : float) : (x * nan)%float = nan.
Proof.
  apply Prim2SF_inj. rewrite mul_spec.
  change (Prim2SF nan) with S754_nan. destruct (Prim2SF x) as [|[|]| |]; reflexivity.
Qed.
Lemma div_nan_l (y : float) : (nan / y)%float = nan.
Proof. apply Prim2SF_inj. rewrite div_spec. reflexivity. Qed.
Lemma div_nan_r (x : float) : (x / nan)%float = nan.
Proof.
  apply Prim2SF_inj. rewrite div_spec.
  change (Prim2SF nan) with S754_nan. destruct (Prim2SF x) as [|[|]| |]; reflexivity.
Qed.

Lemma sub_neg_infinity_r (x : float) :
  finite x -> (x - neg_infinity)%float = infinity.
Proof.
  unfold finite. intros F. apply Prim2SF_inj. rewrite sub_spec.
  change (Prim2SF neg_infinity) with (S754_infinity true).
  destruct (Prim2SF x) as [|[|]| |]; try contradiction; reflexivity.
Qed.

(** ** The interpolation of [calculatePhi] *)

(** Two binary64 values below 0.005 are at least one unit in the last place
    of 0.005 apart from it. *)
Lemma gap_below_0_005 (y : float) :
  finite y -> B2R y < B2R 0.005%float ->
  bpow (-60) <= B2R 0.005%float - B2R y.
Proof.
  intros F L.
  assert (V5 : B2R 0.005%float = F2R 5764607523034235 (-60))
    by (apply (B2R_of_SF _ false); reflexivity).
  rewrite V5 in *. unfold finite, B2R in *.
  pose proof (Prim2SF_valid y) as V.
  pose proof (bpow_gt_0 (-60)) as P60.
  destruct (Prim2SF y) as [s|s| |s m e]; try contradiction.
  - cbn [SF2R]. unfold F2R. nra.
  - cbn [valid_binary] in V.
    destruct (bounded_facts _ _ V) as (Re & _ & U & Lo).
    pose proof (F2R_pos m e) as Pm.
    rewrite SF2R_finite in *. destruct s.
    + unfold F2R in *. nra.
    + destruct (Z_lt_ge_dec e (-60)) as [G|G].
      * assert (bpow (e + 53) <= bpow (-8)) by (apply bpow_le; lia).
        assert (B8 : bpow (-8) = 4503599627370496 * bpow (-60)).
        { change 4503599627370496 with (IZR (2 ^ 52)).
          rewrite <- bpow_IZR, <- bpow_plus by lia. reflexivity. }
        unfold F2R in *. nra.
      * destruct (Z.eq_dec e (-60)) as [->|Ne].
        -- unfold F2R in *.
           assert (IZR (Z.pos m) < 5764607523034235) by nra.
           apply lt_IZR in H.
           assert (IZR (Z.pos m) <= 5764607523034234) by (apply IZR_le; lia).
           nra.
        -- exfalso. specialize (Lo ltac:(lia)).
           assert (bpow (-7) <= bpow (e + 52)) by (apply bpow_le; lia).
           assert (B7 : bpow (-7) = 9007199254740992 * bpow (-60)).
           { change 9007199254740992 with (IZR (2 ^ 53)).
             rewrite <- bpow_IZR, <- bpow_plus by lia. reflexivity. }
           unfold F2R in L, Lo. lra.
Qed.

(** A quarter of a value that is not tiny is a value of the format. *)
Lemma quarter_exact (x : float) :
  finite x -> bpow (-1000) <= B2R x ->
  exists z, finite z /\ B2R z = / 4 * B2R x.
Proof.
  intros F L.
  assert (P : 0 < B2R x) by (pose proof (bpow_gt_0 (-1000)); lra).
  destruct (pos_SF x F P) as (m & e & E).
  pose proof (Prim2SF_valid x) as V. rewrite E in V. cbn [valid_binary] in V.
  destruct (bounded_facts _ _ V) as (Re & C & U & _).
  unfold B2R in L. rewrite E in L. cbn [SF2R cond_Zopp] in L.
  assert (He : (-1053 < e + 0)%Z).
  { assert (bpow (-1000) < bpow (e + 53)) by lra.
    apply bpow_lt_inv in H. lia. }
  assert (V' : valid_binary (S754_finite false m (e - 2)) = true).
  { cbn [valid_binary]. unfold SpecFloat.bounded, canonical_mantissa.
    apply andb_true_iff. split.
    - apply Z.eqb_eq. rewrite fexp_eq in *. lia.
    - apply Z.leb_le. change (emax - prec)%Z with 971%Z. lia. }
  exists (SF2Prim (S754_finite false m (e - 2))).
  unfold finite, B2R. rewrite (Prim2SF_SF2Prim _ V'), E.
  split; [exact I|]. cbn [SF2R cond_Zopp]. unfold F2R.
  replace (e - 2)%Z with (e + - (2))%Z by lia.
  rewrite bpow_plus, bpow_opp, (bpow_IZR 2) by lia.
  change (IZR (2 ^ 2)) with 4. field.
Qed.

Lemma phi_interpolation_parts (et ey : float) :
  finite et -> finite ey ->
  B2R ey < B2R et -> B2R et < B2R 0.005%float ->
  finite (et - ey)%float
  /\ finite (0.005 - ey)%float /\ 0 < B2R (0.005 - ey)%float
  /\ finite (0.25 * (et - ey) / (0.005 - ey))%float
  /\ (0.65 <=? 0.65 + 0.25 * (et - ey) / (0.005 - ey))%float = true
  /\ (0.65 + 0.25 * (et - ey) / (0.005 - ey) <=? 0.90)%float = true.
Proof.
  intros Ft Fy Lo Hi.
  B2R_const 0.005%float V5 F5. B2R_const 0.25%float V25 F25.
  B2R_const 0.65%float V65 F65. B2R_const 0x1p-60%float V60 F60.
  pose proof max_float_big as MB.
  pose proof (finite_bound ey Fy) as By.
  pose proof (finite_bound et Ft) as Bt.
  pose proof (gap_below_0_005 ey Fy ltac:(lra)) as G.
  assert (B60 : bpow (-60) = B2R 0x1p-60%float).
  { rewrite V60. change (-60)%Z with (- (60))%Z.
    rewrite bpow_opp, (bpow_IZR 60) by lia.
    change (IZR (2 ^ 60)) with 1152921504606846976. lra. }
  set (n := (et - ey)%float).
  set (dn := (0.005 - ey)%float).
  assert (Rn : RND (B2R et - B2R ey) n) by (apply sub_RND; auto).
  assert (Rd : RND (B2R 0.005%float - B2R ey) dn) by (apply sub_RND; auto).
  assert (Fn : finite n) by (apply (RND_finite_wide _ _ Rn); lra).
  assert (Fd : finite dn) by (apply (RND_finite_wide _ _ Rd); lra).
  assert (Pn : 0 <= B2R n) by (apply (RND_nonneg _ _ Rn); auto; lra).
  assert (Ld : B2R 0x1p-60%float <= B2R dn).
  { apply (RND_ge_R _ _ _ Rd); auto. lra. }
  assert (Lnd : B2R n <= B2R dn).
  { apply leb_B2R; auto. apply (RND_mono _ _ _ _ Rn Rd). lra. }
  set (p := (0.25 * n)%float).
  assert (Rp : RND (B2R 0.25%float * B2R n) p) by (apply mul_RND; auto).
  pose proof (finite_bound n Fn) as Bn.
  assert (Fp : finite p).
  { apply (RND_finite _ _ 0%float max_float Rp); try exact I.
    rewrite B2R_zero. rewrite V25. lra. }
  assert (Pp : 0 <= B2R p).
  { apply (RND_nonneg _ _ Rp); auto. rewrite V25. lra. }
  destruct (quarter_exact dn Fd) as (z & Fz & Vz).
  { rewrite <- B60 in Ld. apply Rle_trans with (2 := Ld). apply bpow_le. lia. }
  assert (Up : B2R p <= / 4 * B2R dn).
  { rewrite <- Vz. apply (RND_le_R _ _ _ Rp); auto. rewrite Vz, V25. lra. }
  assert (Pd : 0 < B2R dn).
  { pose proof (bpow_gt_0 (-60)). lra. }
  set (q := (p / dn)%float).
  assert (Rq : RND (B2R p / B2R dn) q) by (apply div_RND; auto; lra).
  assert (Q0 : 0 <= B2R p / B2R dn).
  { apply Rmult_le_pos; [exact Pp|]. apply Rlt_le, Rinv_0_lt_compat, Pd. }
  assert (Q1 : B2R p / B2R dn <= B2R 0.25%float).
  { rewrite V25. apply Rmult_le_reg_r with (B2R dn); [exact Pd|].
    unfold Rdiv at 1. rewrite Rmult_assoc, Rinv_l, Rmult_1_r by lra. lra. }
  assert (Fq : finite q).
  { apply (RND_finite _ _ 0%float 0.25%float Rq); auto; exact I. }
  assert (Bq : 0 <= B2R q <= B2R 0.25%float).
  { split.
    - apply (RND_nonneg _ _ Rq); auto.
    - apply (RND_le_R _ _ _ Rq); auto. }
  assert (Rphi : RND (B2R 0.65%float + B2R q) (0.65 + q)%float)
    by (apply add_RND; auto).
  assert (R0 : RND (B2R 0.65%float + B2R 0%float) 0.65%float).
  { apply (add_RND 0.65%float 0%float); auto; exact I. }
  assert (R9 : RND (B2R 0.65%float + B2R 0.25%float) 0.90%float).
  { apply (add_RND 0.65%float 0.25%float); auto. }
  repeat (split; [assumption|]).
  split.
  - apply (RND_mono _ _ _ _ R0 Rphi). rewrite B2R_zero. lra.
  - apply (RND_mono _ _ _ _ Rphi R9). lra.
Qed.

Lemma phi_interpolation_range (et ey : float) :
  finite et -> finite ey ->
  B2R ey < B2R et -> B2R et < B2R 0.005%float ->
  (0.65 <=? 0.65 + 0.25 * (et - ey) / (0.005 - ey))%float = true
  /\ (0.65 + 0.25 * (et - ey) / (0.005 - ey) <=? 0.90)%float = true.
Proof.
  intros Ft Fy Lo Hi.
  destruct (phi_interpolation_parts et ey Ft Fy Lo Hi) as (_ & _ & _ & _ & H).
  exact H.
Qed.

Lemma calculatePhi_spec (et ey : float) :
  (is_nan (calculatePhi et ey) = true
   \/ ((0.65 <=? calculatePhi et ey) && (calculatePhi et ey <=? 0.90))%float = true)
  /\ (is_nan (calculatePhi et ey) = true <->
      is_nan et = true
      \/ ((et <? 0.005)%float = true
          /\ (is_nan ey = true \/ (ey = neg_infinity /\ et <> neg_infinity)))).
Proof.
  unfold calculatePhi, JS.geb.
  destruct (0.005 <=? et)%float eqn:G.
  { split; [right; reflexivity|]. split; [discriminate|].
    intros [N|[L _]].
    - apply leb_not_nan in G. destruct G. congruence.
    - apply ltb_asym in L. congruence. }
  destruct (et <=? ey)%float eqn:C.
  { split; [right; reflexivity|]. split; [discriminate|].
    destruct (leb_not_nan _ _ C) as [Nt Ny].
    intros [N|[L [N|[E1 E2]]]]; try congruence.
    subst ey. apply leb_neg_infinity in C. contradiction. }
  destruct (float_class et) as [N|[->|[->|Ft]]].
  - rewrite N. apply is_nan_eq in N. subst et.
    rewrite sub_nan_l, mul_nan_r', div_nan_l, add_nan_r.
    split; [left; reflexivity|]. split; auto.
  - vm_compute in G. discriminate.
  - destruct (is_nan ey) eqn:Ny.
    + apply is_nan_eq in Ny. subst ey.
      split; [left; reflexivity|]. split; [|reflexivity].
      intros _. right. split; [reflexivity|]. left. reflexivity.
    + rewrite neg_infinity_leb in C by assumption. discriminate.
  - pose proof (finite_not_nan et Ft) as Nt.
    assert (L5 : (et <? 0.005)%float = true).
    { apply leb_false_ltb; auto. }
    assert (Ninf : et <> neg_infinity).
    { intros ->. exact Ft. }
    destruct (float_class ey) as [N|[->|[->|Fy]]].
    + rewrite N. apply is_nan_eq in N. subst ey.
      rewrite sub_nan_r', mul_nan_r', div_nan_l, add_nan_r.
      split; [left; reflexivity|]. split; auto.
    + rewrite leb_infinity in C by assumption. discriminate.
    + rewrite sub_neg_infinity_r by assumption.
      split; [left; reflexivity|]. split; [|reflexivity].
      intros _. right. split; [exact L5|]. right. split; [reflexivity|exact Ninf].
    + pose proof (finite_not_nan ey Fy) as Ny.
      B2R_const 0.005%float V5 F5.
      assert (Lo : B2R ey < B2R et).
      { apply ltb_B2R; auto. apply leb_false_ltb; auto. }
      assert (Hi : B2R et < B2R 0.005%float) by (apply ltb_B2R; auto).
      destruct (phi_interpolation_range et ey Ft Fy Lo Hi) as [P1 P2].
      split; [right; rewrite P1, P2; reflexivity|].
      destruct (leb_not_nan _ _ P1) as [_ NP]. rewrite NP, Nt, Ny.
      split; [discriminate|].
      intros [N|[_ [N|[E _]]]]; try discriminate.
      subst ey. destruct Fy.
Qed.

Lemma calculateBeta1_real (fc : float) :
  is_nan fc = false ->
  finite (calculateBeta1 fc)
  /\ B2R 0.65%float <= B2R (calculateBeta1 fc) <= B2R 0.85%float.
Proof.
  intros N. pose proof (calculateBeta1_spec fc) as H. rewrite N in H.
  apply andb_true_iff in H. destruct H as [L U].
  B2R_const 0.65%float V65 F65. B2R_const 0.85%float V85 F85.
  assert (F : finite (calculateBeta1 fc))
    by (apply (between_finite 0.65%float _ 0.85%float); auto).
  split; [exact F|]. split; apply leb_B2R; auto.
Qed.

Lemma calculatePhi_real (et ey : float) :
  is_nan (calculatePhi et ey) = false ->
  finite (calculatePhi et ey)
  /\ B2R 0.65%float <= B2R (calculatePhi et ey) <= B2R 0.90%float.
Proof.
  intros N. destruct (calculatePhi_spec et ey) as [[H|H] _]; [congruence|].
  apply andb_true_iff in H. destruct H as [L U].
  B2R_const 0.65%float V65 F65. B2R_const 0.90%float V90 F90.
  assert (F : finite (calculatePhi et ey))
    by (apply (between_finite 0.65%float _ 0.90%float); auto).
  split; [exact F|]. split; apply leb_B2R; auto.
Qed.

(** Dividing a value that is not negative by a factor in (0, 1] does not
    make it smaller. *)
Lemma div_ge_self (x y : float) :
  (0 <=? x)%float = true -> finite y -> 0 < B2R y <= 1 ->
  (x <=? x / y)%float = true.
Proof.
  intros P Fy [Py Uy].
  destruct (leb_not_nan _ _ P) as [_ Nx].
  destruct (float_class x) as [N|[->|[->|Fx]]]; [congruence| | |].
  - rewrite div_infinity_l by assumption. reflexivity.
  - vm_compute in P. discriminate.
  - assert (Px : 0 <= B2R x).
    { rewrite <- B2R_zero. apply leb_B2R; auto. exact I. }
    apply (RND_ge (B2R x / B2R y)); auto.
    + apply div_RND; auto. lra.
    + apply Rmult_le_reg_r with (B2R y); [exact Py|].
      unfold Rdiv. rewrite Rmult_assoc, Rinv_l, Rmult_1_r by lra. nra.
Qed.

(** Multiplying a value that is not negative by a factor in (0, 1] keeps it
    between zero and itself. *)
Lemma mul_le_self (x y : float) :
  (0 <=? x)%float = true -> finite y -> 0 < B2R y <= 1 ->
  (0 <=? y * x)%float = true /\ (y * x <=? x)%float = true.
Proof.
  intros P Fy [Py Uy].
  destruct (leb_not_nan _ _ P) as [_ Nx].
  destruct (float_class x) as [N|[->|[->|Fx]]]; [congruence| | |].
  - rewrite mul_infinity_r by assumption. split; reflexivity.
  - vm_compute in P. discriminate.
  - assert (Px : 0 <= B2R x).
    { rewrite <- B2R_zero. apply leb_B2R; auto. exact I. }
    assert (Rm : RND (B2R y * B2R x) (y * x)%float) by (apply mul_RND; auto).
    split.
    + apply (RND_ge _ _ _ Rm); [exact I|]. rewrite B2R_zero. nra.
    + apply (RND_le _ _ _ Rm); auto. nra.
Qed.

Lemma ltb_leb_trans (x y z : float) :
  (x <? y)%float = true -> (y <=? z)%float = true -> (x <=? z)%float = true.
Proof. intros H1 H2. apply leb_trans with y; auto using ltb_leb. Qed.

Local Close Scope R_scope.

(** * Ranges, order and degenerate inputs of the engine *)

Section RangeFacts.

Variable toFixed : float -> nat -> string.

(** X9. [calculateBeta1] returns NaN exactly when fc is NaN; for every other
    fc, the infinities included, the factor lies between 0.65 and 0.85. *)
Theorem calculateBeta1_range (fc : float) :
  is_nan (calculateBeta1 fc) = is_nan fc
  /\ (is_nan fc = false ->
      (0.65 <=? calculateBeta1 fc) = true /\ (calculateBeta1 fc <=? 0.85) = true).
Proof.
  pose proof (calculateBeta1_spec fc) as H.
  destruct (is_nan fc).
  - split; [exact H|discriminate].
  - apply andb_true_iff in H. destruct H as [L U].
    split; [|auto]. apply leb_not_nan in L. tauto.
Qed.

(** X10. [calculatePhi] returns NaN or a value between 0.65 and 0.90, the
    rounding of the interpolation included.  It returns NaN exactly when
    epsilon_t is NaN, or epsilon_t < 0.005 and epsilon_y is NaN, or
    epsilon_t is a number other than -Infinity below 0.005 and epsilon_y is
    -Infinity. *)
Theorem calculatePhi_range (et ey : float) :
  (is_nan (calculatePhi et ey) = false ->
   (0.65 <=? calculatePhi et ey) = true /\ (calculatePhi et ey <=? 0.90) = true)
  /\ (is_nan (calculatePhi et ey) = true <->
      is_nan et = true
      \/ ((et <? 0.005) = true
          /\ (is_nan ey = true \/ (ey = neg_infinity /\ et <> neg_infinity)))).
Proof.
  destruct (calculatePhi_spec et ey) as [H1 H2]. split; [|exact H2].
  intros N. destruct H1 as [H1|H1]; [congruence|].
  apply andb_true_iff in H1. exact H1.
Qed.

Lemma stress_block_nan_fc (As fy fc b : float) :
  is_nan fc = true -> is_nan (calculateStressBlockDepth As fy fc b) = true.
Proof.
  intros N. apply is_nan_eq in N. subst fc. unfold calculateStressBlockDepth.
  rewrite mul_nan_r', mul_nan_l, div_nan_r. reflexivity.
Qed.

Lemma beta1_unit (fc : float) :
  is_nan fc = false ->
  finite (calculateBeta1 fc) /\ (0 < B2R (calculateBeta1 fc) <= 1)%R.
Proof.
  intros N. destruct (calculateBeta1_real fc N) as (F & L & U).
  B2R_const 0.65 V65 F65. B2R_const 0.85 V85 F85.
  split; [exact F|]. lra.
Qed.

(** X11. In a result of [analyzeBeam] for an effective depth d >= 0, a
    stress block deeper than d puts the neutral axis at or below the steel:
    a > d implies c >= d, so the error about the stress block never comes
    without the error about the neutral axis. *)
Theorem block_depth_error_implies_axis_error (input : BeamInput) :
  let r := analyzeBeam toFixed input in
  (r.(a) >? input.(d)) = true -> (0 <=? input.(d)) = true ->
  (r.(c) >=? input.(d)) = true
  /\ In (msg_block_depth) r.(warnings) /\ In (msg_neutral_axis) r.(warnings).
Proof.
  intros r Ha Hd.
  assert (Hc : (r.(c) >=? input.(d)) = true).
  { subst r. cbn [analyzeBeam a c] in *. unfold JS.gtb, JS.geb in *.
    unfold calculateNeutralAxisDepth.
    set (av := calculateStressBlockDepth _ _ _ _) in *.
    destruct (ltb_not_nan _ _ Ha) as [Nd Na].
    assert (Nfc : is_nan (fc input) = false).
    { destruct (is_nan (fc input)) eqn:N; [|reflexivity].
      unfold av in Na. rewrite stress_block_nan_fc in Na by exact N.
      discriminate. }
    destruct (beta1_unit _ Nfc) as (Fb & Ub).
    apply ltb_leb_trans with av; [exact Ha|].
    apply div_ge_self; auto.
    apply leb_trans with (d input); auto using ltb_leb. }
  split; [exact Hc|].
  pose proof (analyzeBeam_warnings_eq toFixed input) as W. cbn zeta in W.
  fold r in W. rewrite W, Ha, Hc. rewrite !in_app_iff. cbn. tauto.
Qed.

Lemma kip_ft_mono (x y : float) :
  (x <=? y) = true -> (convertToKipFt x <=? convertToKipFt y) = true.
Proof.
  intros L. rewrite !convertToKipFt_12000.
  B2R_const 12000 V F. apply div_mono_l; auto. lra.
Qed.

(** X12. In a result of [analyzeBeam] whose phi is a number and whose
    nominal capacity Mn is not negative, the design capacity lies between
    zero and the nominal one, in lb-in and in kip-ft:
    0 <= phiMn <= Mn and 0 <= phiMn_kip_ft <= Mn_kip_ft. *)
Theorem design_capacity_within_nominal (input : BeamInput) :
  let r := analyzeBeam toFixed input in
  is_nan r.(phi) = false -> (0 <=? r.(Mn)) = true ->
  (0 <=? r.(phiMn)) = true /\ (r.(phiMn) <=? r.(Mn)) = true
  /\ (0 <=? r.(phiMn_kip_ft)) = true
  /\ (r.(phiMn_kip_ft) <=? r.(Mn_kip_ft)) = true.
Proof.
  intros r Np PM. subst r.
  cbn [analyzeBeam phi Mn phiMn phiMn_kip_ft Mn_kip_ft] in *.
  set (p := calculatePhi _ _) in *. set (M := calculateMn _ _ _ _) in *.
  destruct (calculatePhi_real _ _ Np) as (Fp & Lp & Up). fold p in Fp, Lp, Up.
  B2R_const 0.65 V65 F65. B2R_const 0.90 V90 F90.
  destruct (mul_le_self M p PM Fp ltac:(lra)) as [A B].
  split; [exact A|]. split; [exact B|]. split.
  - change 0 with (convertToKipFt 0) at 1. apply kip_ft_mono, A.
  - apply kip_ft_mono, B.
Qed.

Lemma ltb_false_leb (x y : float) :
  is_nan x = false -> is_nan y = false ->
  (x <? y) = false -> (y <=? x) = true.
Proof.
  intros Nx Ny H.
  destruct (y <=? x) eqn:L; [reflexivity|].
  apply leb_false_ltb in L; auto. congruence.
Qed.

Lemma ltb_asym' (x y : float) : (x <? y) = true -> (y <? x) = false.
Proof.
  intros H. destruct (y <? x) eqn:L; [|reflexivity].
  apply ltb_leb in L. apply ltb_asym in H. congruence.
Qed.

Lemma leb_ltb_trans (x y z : float) :
  (x <=? y) = true -> (y <? z) = true -> (x <? z) = true.
Proof.
  intros H1 H2.
  destruct (leb_not_nan _ _ H1) as [Nx _].
  destruct (ltb_not_nan _ _ H2) as [_ Nz].
  destruct (x <? z) eqn:L; [reflexivity|].
  apply ltb_false_leb in L; auto.
  pose proof (leb_trans _ _ _ L H1) as K.
  apply ltb_asym in H2. congruence.
Qed.

Lemma ltb_leb_ltb (x y z : float) :
  (x <? y) = true -> (y <=? z) = true -> (x <? z) = true.
Proof.
  intros H1 H2.
  destruct (ltb_not_nan _ _ H1) as [Nx _].
  destruct (leb_not_nan _ _ H2) as [_ Nz].
  destruct (x <? z) eqn:L; [reflexivity|].
  apply ltb_false_leb in L; auto.
  pose proof (leb_trans _ _ _ H2 L) as K.
  apply ltb_asym in H1. congruence.
Qed.

(** With the neutral axis at or below the steel, the strain formula gives a
    value that is not positive. *)
Lemma tension_strain_nonpositive (d c : float) :
  finite d -> finite c -> (0 <= B2R d <= B2R c)%R -> (0 < B2R c)%R ->
  (calculateTensionStrain d c EPSILON_CU <=? 0) = true.
Proof.
  intros Fd Fc [Pd L] Pc. unfold calculateTensionStrain, EPSILON_CU.
  assert (C0 : (c <=? 0) = false).
  { apply ltb_asym. apply ltb_B2R; auto; exact I. }
  rewrite C0.
  B2R_const 0.003 V3 F3.
  pose proof (finite_bound c Fc) as Bc. pose proof max_float_big as MB.
  set (t := d - c).
  assert (Rt : RND (B2R d - B2R c) t) by (apply sub_RND; auto).
  assert (Ft : finite t) by (apply (RND_finite_wide _ _ Rt); lra).
  assert (Nt : (B2R t <= 0)%R).
  { rewrite <- B2R_zero. apply (RND_le_R _ _ _ Rt); auto; try exact I.
    rewrite B2R_zero. lra. }
  pose proof (finite_bound t Ft) as Bt.
  set (u := 0.003 * t).
  assert (Ru : RND (B2R 0.003 * B2R t) u) by (apply mul_RND; auto).
  assert (Fu : finite u) by (apply (RND_finite_wide _ _ Ru); rewrite V3; lra).
  assert (Nu : (B2R u <= 0)%R).
  { rewrite <- B2R_zero. apply (RND_le_R _ _ _ Ru); auto; try exact I.
    rewrite B2R_zero, V3. lra. }
  apply (RND_le (B2R u / B2R c)).
  - apply div_RND; auto. lra.
  - exact I.
  - rewrite B2R_zero. unfold Rdiv.
    assert (0 < / B2R c)%R by (apply Rinv_0_lt_compat; exact Pc). nra.
Qed.

(** X13. In a result of [analyzeBeam] with d > 0 and a positive yield
    strain, a finite neutral-axis depth c >= d gives a tension strain that
    is not positive, so the steel does not yield, the section is
    compression-controlled with phi = 0.65, and the two matching warnings
    are in the list. *)
Theorem axis_error_is_compression_controlled (input : BeamInput) :
  let r := analyzeBeam toFixed input in
  (0 <? input.(d)) = true -> (r.(c) >=? input.(d)) = true ->
  isFinite r.(c) = true -> (0 <? r.(epsilon_y)) = true ->
  (r.(epsilon_t) <=? 0) = true
  /\ r.(steelYields) = false
  /\ r.(sectionType) = CompressionControlled
  /\ r.(phi) = 0.65
  /\ In msg_no_yield r.(warnings) /\ In msg_compression r.(warnings).
Proof.
  intros r Pd Hc Fc Py.
  assert (Ht : (r.(epsilon_t) <=? 0) = true).
  { subst r. cbn [analyzeBeam epsilon_t c] in *. unfold JS.geb in *.
    set (cv := calculateNeutralAxisDepth _ _) in *.
    apply isFinite_finite in Fc.
    assert (Fd : finite (d input)).
    { apply (between_finite 0 _ cv); auto using ltb_leb. exact I. }
    assert (Rd : (0 < B2R (d input))%R).
    { rewrite <- B2R_zero. apply ltb_B2R; auto. exact I. }
    assert (Rc : (B2R (d input) <= B2R cv)%R) by (apply leb_B2R; auto).
    apply tension_strain_nonpositive; auto; lra. }
  assert (Hy : (r.(epsilon_t) <? r.(epsilon_y)) = true)
    by (apply leb_ltb_trans with 0; assumption).
  assert (H5 : (r.(epsilon_t) <? 0.005) = true)
    by (apply leb_ltb_trans with 0; [assumption|reflexivity]).
  assert (S1 : r.(steelYields) = false).
  { subst r. cbn [analyzeBeam steelYields epsilon_t epsilon_y] in *.
    unfold JS.geb. apply ltb_asym. exact Hy. }
  assert (S2 : r.(sectionType) = CompressionControlled).
  { subst r. cbn [analyzeBeam sectionType epsilon_t epsilon_y] in *.
    unfold classifySection, JS.geb.
    rewrite (ltb_asym _ _ H5), (ltb_leb _ _ Hy). reflexivity. }
  assert (S3 : r.(phi) = 0.65).
  { subst r. cbn [analyzeBeam phi epsilon_t epsilon_y] in *.
    unfold calculatePhi, JS.geb.
    rewrite (ltb_asym _ _ H5), (ltb_leb _ _ Hy). reflexivity. }
  repeat (split; [assumption|]).
  pose proof (analyzeBeam_warnings_eq toFixed input) as W. cbn zeta in W.
  fold r in W. rewrite W, S1, S2. rewrite !in_app_iff. cbn. tauto.
Qed.

(** Multiplication by a value that is not negative keeps the order. *)
Lemma mul_mono_l (x1 x2 y : float) :
  finite x1 -> finite x2 -> finite y -> (0 <= B2R y)%R ->
  (x1 <=? x2) = true -> (x1 * y <=? x2 * y) = true.
Proof.
  intros F1 F2 Fy Py L. apply leb_B2R in L; auto.
  apply (RND_mono (B2R x1 * B2R y) (B2R x2 * B2R y)); try (apply mul_RND; auto).
  nra.
Qed.

Lemma mul_mono_r (x y1 y2 : float) :
  finite x -> finite y1 -> finite y2 -> (0 <= B2R x)%R ->
  (y1 <=? y2) = true -> (x * y1 <=? x * y2) = true.
Proof.
  intros Fx F1 F2 Px L. apply leb_B2R in L; auto.
  apply (RND_mono (B2R x * B2R y1) (B2R x * B2R y2)); try (apply mul_RND; auto).
  nra.
Qed.

Lemma nonneg_real (x : float) : finite x -> (0 <=? x) = true -> (0 <= B2R x)%R.
Proof. intros F L. rewrite <- B2R_zero. apply leb_B2R; auto. exact I. Qed.

Lemma pos_real (x : float) : finite x -> (0 <? x) = true -> (0 < B2R x)%R.
Proof. intros F L. rewrite <- B2R_zero. apply ltb_B2R; auto. exact I. Qed.

(** The depths of [calculateStressBlockDepth] and [calculateNeutralAxisDepth]
    keep the order of the steel areas. *)
Lemma depths_mono (As1 As2 fy fc b : float) :
  finite As1 -> finite As2 -> finite fy -> (0 <=? fy) = true ->
  finite (0.85 * fc * b) -> (0 <? 0.85 * fc * b) = true ->
  (As1 <=? As2) = true ->
  (calculateStressBlockDepth As1 fy fc b
   <=? calculateStressBlockDepth As2 fy fc b) = true
  /\ (calculateNeutralAxisDepth (calculateStressBlockDepth As1 fy fc b)
        (calculateBeta1 fc)
      <=? calculateNeutralAxisDepth (calculateStressBlockDepth As2 fy fc b)
            (calculateBeta1 fc)) = true.
Proof.
  intros F1 F2 Fy Py FD PD L.
  unfold calculateNeutralAxisDepth, calculateStressBlockDepth.
  assert (A : ((As1 * fy) / (0.85 * fc * b)
               <=? (As2 * fy) / (0.85 * fc * b)) = true).
  { apply div_mono_l; auto using pos_real.
    apply mul_mono_l; auto using nonneg_real. }
  split; [exact A|].
  assert (Nfc : is_nan fc = false).
  { destruct (is_nan fc) eqn:N; [|reflexivity].
    apply is_nan_eq in N. rewrite N, mul_nan_r', mul_nan_l in PD.
    vm_compute in PD. discriminate. }
  destruct (beta1_unit _ Nfc) as (Fb & Pb & _).
  apply div_mono_l; auto.
Qed.

(** X14. More tension steel never makes the stress block or the neutral
    axis shallower: for two inputs with the same b, fc and fy (fy finite and
    not negative, 0.85 * fc * b finite and positive) and finite steel areas
    As1 <= As2, the results satisfy a1 <= a2 and c1 <= c2. *)
Theorem more_steel_deeper_neutral_axis (i1 i2 : BeamInput) :
  let r1 := analyzeBeam toFixed i1 in
  let r2 := analyzeBeam toFixed i2 in
  i1.(b) = i2.(b) -> i1.(fc) = i2.(fc) -> i1.(fy) = i2.(fy) ->
  isFinite i1.(As) = true -> isFinite i2.(As) = true ->
  isFinite i1.(fy) = true -> (0 <=? i1.(fy)) = true ->
  isFinite (0.85 * i1.(fc) * i1.(b)) = true ->
  (0 <? 0.85 * i1.(fc) * i1.(b)) = true ->
  (i1.(As) <=? i2.(As)) = true ->
  (r1.(a) <=? r2.(a)) = true /\ (r1.(c) <=? r2.(c)) = true.
Proof.
  intros r1 r2 Eb Efc Efy F1 F2 Fy Py FD PD L. subst r1 r2.
  cbn [analyzeBeam a c]. rewrite <- Eb, <- Efc, <- Efy.
  apply isFinite_finite in F1, F2, Fy, FD.
  apply depths_mono; assumption.
Qed.

(** X15. In a result of [analyzeBeam] whose common factor
    0.85 * beta1 * fc / fy is finite and not negative and whose yield strain
    is finite and not negative: rho_max <= rho_b when epsilon_y <= 0.004,
    and rho_b <= rho_max when epsilon_y >= 0.004. *)
Theorem rho_max_against_balanced (input : BeamInput) :
  let r := analyzeBeam toFixed input in
  let K := 0.85 * r.(beta1) * input.(fc) / input.(fy) in
  isFinite K = true -> (0 <=? K) = true ->
  isFinite r.(epsilon_y) = true -> (0 <=? r.(epsilon_y)) = true ->
  ((r.(epsilon_y) <=? 0.004) = true -> (r.(rho_max) <=? r.(rho_b)) = true)
  /\ ((0.004 <=? r.(epsilon_y)) = true -> (r.(rho_b) <=? r.(rho_max)) = true).
Proof.
  intros r K FK PK Fy Py. subst r K.
  cbn [analyzeBeam beta1 epsilon_y rho_max rho_b] in *.
  unfold calculateRhoMax, calculateRhoBalanced, EPSILON_CU. cbn zeta.
  set (K := 0.85 * calculateBeta1 (fc input) * fc input / fy input) in *.
  set (ey := calculateEpsilonY (fy input) (Es input)) in *.
  apply isFinite_finite in FK, Fy.
  pose proof (nonneg_real K FK PK) as RK.
  B2R_const 0.003 V3 F3. B2R_const 0.004 V4 F4.
  pose proof max_float_big as MB.
  assert (Q : forall e1 e2 : float, finite e1 -> finite e2 ->
            (0 <= B2R e1 <= B2R e2)%R ->
            (K * (0.003 / (0.003 + e2)) <=? K * (0.003 / (0.003 + e1))) = true).
  { intros e1 e2 F1 F2 [P1 L12].
    pose proof (finite_bound e1 F1) as B1. pose proof (finite_bound e2 F2) as B2.
    assert (R1 : RND (B2R 0.003 + B2R e1) (0.003 + e1)) by (apply add_RND; auto).
    assert (R2 : RND (B2R 0.003 + B2R e2) (0.003 + e2)) by (apply add_RND; auto).
    assert (S1 : finite (0.003 + e1)) by (apply (RND_finite_wide _ _ R1); lra).
    assert (S2 : finite (0.003 + e2)) by (apply (RND_finite_wide _ _ R2); lra).
    assert (L1 : (B2R 0.003 <= B2R (0.003 + e1))%R).
    { apply (RND_ge_R _ _ _ R1); auto. lra. }
    assert (L2 : (B2R (0.003 + e1) <= B2R (0.003 + e2))%R).
    { apply leb_B2R; auto. apply (RND_mono _ _ _ _ R1 R2). lra. }
    set (s1 := 0.003 + e1) in *. set (s2 := 0.003 + e2) in *.
    assert (I1 : (0 < / B2R s1)%R) by (apply Rinv_0_lt_compat; lra).
    assert (I2 : (0 < / B2R s2)%R) by (apply Rinv_0_lt_compat; lra).
    assert (I12 : (/ B2R s2 <= / B2R s1)%R) by (apply Rinv_le_contravar; lra).
    assert (Q1 : RND (B2R 0.003 / B2R s1) (0.003 / s1)) by (apply div_RND; auto; lra).
    assert (Q2 : RND (B2R 0.003 / B2R s2) (0.003 / s2)) by (apply div_RND; auto; lra).
    assert (U1 : (B2R 0.003 / B2R s1 <= 1)%R).
    { apply Rmult_le_reg_r with (B2R s1); [lra|].
      unfold Rdiv. rewrite Rmult_assoc, Rinv_l by lra. lra. }
    assert (U2 : (B2R 0.003 / B2R s2 <= 1)%R).
    { apply Rmult_le_reg_r with (B2R s2); [lra|].
      unfold Rdiv. rewrite Rmult_assoc, Rinv_l by lra. lra. }
    B2R_const 1 V1 F1'.
    assert (T1 : finite (0.003 / s1)).
    { apply (RND_finite _ _ 0 1 Q1); auto; try exact I.
      rewrite B2R_zero, V1. unfold Rdiv in *. split; [nra|lra]. }
    assert (T2 : finite (0.003 / s2)).
    { apply (RND_finite _ _ 0 1 Q2); auto; try exact I.
      rewrite B2R_zero, V1. unfold Rdiv in *. split; [nra|lra]. }
    apply mul_mono_r; auto.
    apply (RND_mono _ _ _ _ Q2 Q1). unfold Rdiv. nra. }
  pose proof (nonneg_real ey Fy Py) as Ry.
  split; intros H.
  - apply (Q ey 0.004); auto. split; [exact Ry|]. apply leb_B2R; auto.
  - apply (Q 0.004 ey); auto. split; [lra|]. apply leb_B2R; auto.
Qed.

Lemma leb_not_ltb_eq (x y : float) :
  (x <=? y) = true -> (x <? y) = false -> is_zero x = false -> x = y.
Proof.
  rewrite FloatAxioms.leb_spec, FloatAxioms.ltb_spec, is_zero_SF.
  unfold SFleb, SFltb. intros H1 H2 Z.
  destruct (SFcompare (Prim2SF x) (Prim2SF y)) as [[| |]|] eqn:C;
    try discriminate.
  apply Prim2SF_inj.
  destruct (SFcompare_Eq_inv _ _ C) as [E|(s & t & E1 & E2)]; [exact E|].
  rewrite E1 in Z. discriminate.
Qed.

(** ** Square roots *)

Lemma sqrt_RND (x : float) :
  finite x -> (0 <= B2R x)%R -> RND (R_sqrt.sqrt (B2R x)) (sqrt x).
Proof.
  intros F P. unfold RND. rewrite sqrt_spec.
  apply SFsqrt_Rnd; auto using Prim2SF_valid.
Qed.

Lemma sqrt_nan_iff (x : float) :
  is_nan (sqrt x) = true <-> is_nan x = true \/ (x <? 0) = true.
Proof.
  destruct (float_class x) as [N|[->|[->|F]]].
  - rewrite N. apply is_nan_eq in N. subst x. split; auto.
  - split; [discriminate|]. intros [H|H]; discriminate.
  - split; auto.
  - rewrite (finite_not_nan x F).
    destruct (Rlt_le_dec (B2R x) 0) as [L|L].
    + assert (H : (x <? 0) = true) by (apply ltb_B2R; auto; exact I).
      rewrite H. split; auto. intros _.
      rewrite is_nan_SF, sqrt_spec.
      change (SF64sqrt (Prim2SF x)) with (SFsqrt prec emax (Prim2SF x)).
      rewrite SFsqrt_negative by exact L. reflexivity.
    + rewrite (RND_not_nan _ _ (sqrt_RND x F L)).
      split; [discriminate|]. intros [H|H]; [discriminate|].
      apply ltb_B2R in H; auto; try exact I. rewrite B2R_zero in H. lra.
Qed.

Lemma sqrt_nonneg (x : float) : (0 <=? x) = true -> (0 <=? sqrt x) = true.
Proof.
  intros P. destruct (leb_not_nan _ _ P) as [_ N].
  destruct (float_class x) as [N'|[->|[->|F]]]; [congruence| | |].
  - reflexivity.
  - discriminate.
  - pose proof (nonneg_real x F P) as R.
    apply (RND_ge _ _ _ (sqrt_RND x F R)); [exact I|].
    rewrite B2R_zero. apply sqrt_pos.
Qed.

Lemma sqrt_mono (x y : float) :
  finite x -> finite y -> (0 <= B2R x <= B2R y)%R -> (sqrt x <=? sqrt y) = true.
Proof.
  intros Fx Fy [P L].
  apply (RND_mono _ _ _ _ (sqrt_RND x Fx P) (sqrt_RND y Fy ltac:(lra))).
  apply sqrt_le_1; lra.
Qed.

Lemma mul_nonneg (x y : float) :
  finite x -> (0 < B2R x)%R -> (0 <=? y) = true -> (0 <=? x * y) = true.
Proof.
  intros Fx Px P. destruct (leb_not_nan _ _ P) as [_ N].
  destruct (float_class y) as [N'|[->|[->|F]]]; [congruence| | |].
  - rewrite mul_infinity_r by assumption. reflexivity.
  - discriminate.
  - pose proof (nonneg_real y F P) as R.
    apply (RND_ge (B2R x * B2R y)); [apply mul_RND; auto|exact I|].
    rewrite B2R_zero. nra.
Qed.

Lemma mul_nonneg' (x y : float) :
  (0 <=? x) = true -> finite y -> (0 < B2R y)%R -> (0 <=? x * y) = true.
Proof.
  intros P Fy Py. destruct (leb_not_nan _ _ P) as [_ N].
  destruct (float_class x) as [N'|[->|[->|F]]]; [congruence| | |].
  - destruct (pos_SF y Fy Py) as (m & e & E).
    rewrite FloatAxioms.leb_spec, mul_spec, E. reflexivity.
  - discriminate.
  - pose proof (nonneg_real x F P) as R.
    apply (RND_ge (B2R x * B2R y)); [apply mul_RND; auto|exact I|].
    rewrite B2R_zero. nra.
Qed.

Lemma div_nonneg (x y : float) :
  finite y -> (0 < B2R y)%R -> (0 <=? x) = true -> (0 <=? x / y) = true.
Proof.
  intros Fy Py P.
  apply leb_trans with (0 / y); [|apply div_mono_l; auto].
  apply (RND_ge (B2R 0 / B2R y)); [apply div_RND; auto; try exact I; lra|exact I|].
  rewrite B2R_zero. unfold Rdiv. lra.
Qed.

(** X16. For a finite positive fy, [calculateRhoMin] is NaN exactly when
    fc is NaN or negative; for fc >= 0 (Infinity included) it is positive
    and not below either of its two terms 200 / fy and 3 * sqrt(fc) / fy. *)
Theorem calculateRhoMin_positive (fc fy : float) :
  isFinite fy = true -> (0 <? fy) = true ->
  (is_nan (calculateRhoMin fc fy) = true <-> is_nan fc = true \/ (fc <? 0) = true)
  /\ ((0 <=? fc) = true ->
      (0 <? calculateRhoMin fc fy) = true
      /\ (200 / fy <=? calculateRhoMin fc fy) = true
      /\ (3 * JS.Math_sqrt fc / fy <=? calculateRhoMin fc fy) = true).
Proof.
  intros Fy Py. apply isFinite_finite in Fy.
  pose proof (pos_real fy Fy Py) as Ry.
  unfold calculateRhoMin, JS.Math_sqrt. cbn zeta.
  B2R_const 200 V200 F200. B2R_const 3 V3 F3.
  assert (R2 : RND (B2R 200 / B2R fy) (200 / fy)) by (apply div_RND; auto; lra).
  pose proof (RND_not_nan _ _ R2) as N2.
  assert (P2 : (0 <? 200 / fy) = true).
  { apply ltb_leb_ltb with (200 / max_float); [reflexivity|].
    assert (R0 : RND (B2R 200 / B2R max_float) (200 / max_float)).
    { apply div_RND; auto; try exact I. pose proof max_float_big. lra. }
    apply (RND_mono _ _ _ _ R0 R2).
    pose proof (finite_bound fy Fy) as Bf. pose proof max_float_big as MB.
    unfold Rdiv. apply Rmult_le_compat_l; [lra|].
    apply Rinv_le_contravar; lra. }
  assert (Pos : (0 <=? fc) = true -> (0 <=? 3 * sqrt fc / fy) = true).
  { intros P. apply div_nonneg; auto. apply mul_nonneg; auto; [lra|].
    apply sqrt_nonneg, P. }
  split.
  - rewrite Math_max_nan, N2, orb_false_r. split.
    + intros N. apply sqrt_nan_iff.
      destruct (is_nan (sqrt fc)) eqn:Ns; [reflexivity|exfalso].
      destruct (fc <? 0) eqn:Lf.
      { assert (is_nan (sqrt fc) = true) by (apply sqrt_nan_iff; auto). congruence. }
      destruct (is_nan fc) eqn:Nf.
      { assert (is_nan (sqrt fc) = true) by (apply sqrt_nan_iff; auto). congruence. }
      apply ltb_false_leb in Lf; auto.
      apply Pos, leb_not_nan in Lf. destruct Lf. congruence.
    + intros H. apply sqrt_nan_iff in H. apply is_nan_eq in H. rewrite H.
      rewrite mul_nan_r', div_nan_l. reflexivity.
  - intros P. specialize (Pos P).
    destruct (leb_not_nan _ _ Pos) as [_ N1].
    destruct (Math_max_cases _ _ N1 N2) as (_ & M1 & M2).
    split; [|split; assumption].
    apply ltb_leb_ltb with (200 / fy); assumption.
Qed.

Lemma leb_ltb_false (x y : float) : (x <=? y) = true -> (y <? x) = false.
Proof.
  intros H. destruct (y <? x) eqn:L; [|reflexivity].
  apply ltb_asym in L. congruence.
Qed.

(** X17. The bar radius of the sketch in BeamVisualization.tsx is NaN
    exactly when As is NaN or negative; it is 4 for 0 <= As <= 1, 10 for
    As >= 6.25 (Infinity included), and sqrt(As) * 4 in between. *)
Theorem barRadius_saturates (As : float) :
  (is_nan (barRadius As) = true <-> is_nan As = true \/ (As <? 0) = true)
  /\ ((0 <=? As) = true -> (As <=? 1) = true -> barRadius As = 4)
  /\ ((6.25 <=? As) = true -> barRadius As = 10)
  /\ ((1 <=? As) = true -> (As <=? 6.25) = true ->
      barRadius As = JS.Math_sqrt As * 4).
Proof.
  unfold barRadius, JS.Math_sqrt.
  B2R_const 4 V4 F4. B2R_const 1 V1 F1. B2R_const 10 V10 F10.
  B2R_const 6.25 V6 F6. B2R_const 2.5 V25 F25.
  split; [|split; [|split]].
  - rewrite Math_max_nan, Math_min_nan. cbn [is_nan orb].
    change (is_nan 4) with false. change (is_nan 10) with false. cbn [orb].
    rewrite <- sqrt_nan_iff. split.
    + intros N. destruct (is_nan (sqrt As)) eqn:Ns; [reflexivity|exfalso].
      destruct (float_class (sqrt As)) as [N'|[E|[E|F]]]; [congruence| | |].
      * rewrite E in N. discriminate.
      * rewrite E in N. discriminate.
      * rewrite (RND_not_nan _ _ (mul_RND _ _ F F4)) in N. discriminate.
    + intros N. apply is_nan_eq in N. rewrite N. reflexivity.
  - intros P U. destruct (leb_not_nan _ _ P) as [_ N].
    assert (F : finite As) by (apply (between_finite 0 _ 1); auto; exact I).
    pose proof (nonneg_real As F P) as R0.
    assert (R1 : (B2R As <= 1)%R) by (apply leb_B2R in U; auto; lra).
    assert (S1 : (sqrt As <=? 1) = true).
    { change ((sqrt As <=? sqrt 1) = true). apply sqrt_mono; auto. lra. }
    pose proof (sqrt_nonneg As P) as S0.
    assert (Fs : finite (sqrt As)) by (apply (between_finite 0 _ 1); auto; exact I).
    assert (M4 : (sqrt As * 4 <=? 4) = true).
    { change ((sqrt As * 4 <=? 1 * 4) = true). apply mul_mono_l; auto. lra. }
    assert (M0 : (0 <=? sqrt As * 4) = true).
    { change ((0 * 4 <=? sqrt As * 4) = true). apply mul_mono_l; auto; try exact I. lra. }
    destruct (leb_not_nan _ _ M4) as [Nm _].
    set (y := sqrt As * 4) in *.
    assert (Fy : finite y) by (apply (between_finite 0 _ 4); auto; exact I).
    assert (Ry : (0 <= B2R y <= 4)%R).
    { split; [apply nonneg_real; auto|apply leb_B2R in M4; auto; lra]. }
    assert (E1 : Math_min 10 y = y).
    { unfold Math_min. change (is_nan 10) with false. rewrite Nm. cbn [orb].
      assert (L : (y <? 10) = true) by (apply ltb_B2R; auto; lra).
      rewrite (ltb_asym' _ _ L), L. reflexivity. }
    rewrite E1. unfold JS.Math_max. change (is_nan 4) with false. rewrite Nm.
    cbn [orb]. destruct (4 <? y) eqn:G.
    { apply ltb_B2R in G; auto. lra. }
    destruct (y <? 4) eqn:L; [reflexivity|].
    change (JS.is_neg_zero 4) with false. reflexivity.
  - intros P. destruct (leb_not_nan _ _ P) as [_ N].
    assert (Q : (10 <=? sqrt As * 4) = true).
    { destruct (float_class As) as [N'|[->|[->|F]]]; [congruence| | |].
      - reflexivity.
      - discriminate.
      - assert (R6 : (6.25 <= B2R As)%R) by (apply leb_B2R in P; auto; lra).
        assert (S : (2.5 <=? sqrt As) = true).
        { change ((sqrt 6.25 <=? sqrt As) = true). apply sqrt_mono; auto. lra. }
        destruct (float_class (sqrt As)) as [N'|[E|[E|Fs]]].
        + apply leb_not_nan in S. destruct S. congruence.
        + rewrite E. reflexivity.
        + rewrite E in S. discriminate.
        + change ((2.5 * 4 <=? sqrt As * 4) = true). apply mul_mono_l; auto. lra. }
    destruct (leb_not_nan _ _ Q) as [_ Nm].
    set (y := sqrt As * 4) in *.
    assert (E1 : Math_min 10 y = 10).
    { unfold Math_min. change (is_nan 10) with false. rewrite Nm. cbn [orb].
      destruct (10 <? y) eqn:L; [reflexivity|].
      rewrite <- (leb_not_ltb_eq 10 y Q L eq_refl). reflexivity. }
    rewrite E1. reflexivity.
  - intros L U.
    assert (F : finite As) by (apply (between_finite 1 _ 6.25); auto).
    assert (R1 : (1 <= B2R As <= 6.25)%R).
    { apply leb_B2R in L; auto. apply leb_B2R in U; auto. lra. }
    assert (S1 : (1 <=? sqrt As) = true).
    { change ((sqrt 1 <=? sqrt As) = true). apply sqrt_mono; auto. lra. }
    assert (S2 : (sqrt As <=? 2.5) = true).
    { change ((sqrt As <=? sqrt 6.25) = true). apply sqrt_mono; auto. lra. }
    assert (Fs : finite (sqrt As)) by (apply (between_finite 1 _ 2.5); auto).
    assert (M1 : (4 <=? sqrt As * 4) = true).
    { change ((1 * 4 <=? sqrt As * 4) = true). apply mul_mono_l; auto. lra. }
    assert (M2 : (sqrt As * 4 <=? 10) = true).
    { change ((sqrt As * 4 <=? 2.5 * 4) = true). apply mul_mono_l; auto. lra. }
    destruct (leb_not_nan _ _ M1) as [_ Nm].
    set (y := sqrt As * 4) in *.
    assert (E1 : Math_min 10 y = y).
    { unfold Math_min. change (is_nan 10) with false. rewrite Nm. cbn [orb].
      rewrite (leb_ltb_false _ _ M2).
      destruct (y <? 10); [reflexivity|].
      change (JS.is_neg_zero 10) with false. reflexivity. }
    rewrite E1. unfold JS.Math_max. change (is_nan 4) with false. rewrite Nm.
    cbn [orb]. destruct (4 <? y) eqn:G; [reflexivity|].
    rewrite (leb_ltb_false _ _ M1).
    change (JS.is_neg_zero 4) with false. cbn iota.
    apply (leb_not_ltb_eq 4 y M1 G eq_refl).
Qed.

(** ** Monotonicity *)

Lemma Math_max_mono_l (x y z : float) :
  (x <=? y) = true -> is_nan z = false ->
  (JS.Math_max x z <=? JS.Math_max y z) = true.
Proof.
  intros L Nz. destruct (leb_not_nan _ _ L) as [Nx Ny].
  destruct (Math_max_cases x z Nx Nz) as ([E|E] & _ & _);
    destruct (Math_max_cases y z Ny Nz) as (_ & M1 & M2); rewrite E.
  - apply leb_trans with y; assumption.
  - exact M2.
Qed.

Lemma add_mono_r (x y1 y2 : float) :
  finite x -> finite y1 -> finite y2 ->
  (y1 <=? y2) = true -> (x + y1 <=? x + y2) = true.
Proof.
  intros Fx F1 F2 L. apply leb_B2R in L; auto.
  apply (RND_mono (B2R x + B2R y1) (B2R x + B2R y2)); try (apply add_RND; auto).
  lra.
Qed.

Lemma sub_mono_l (x1 x2 y : float) :
  finite x1 -> finite x2 -> finite y ->
  (x1 <=? x2) = true -> (x1 - y <=? x2 - y) = true.
Proof.
  intros F1 F2 Fy L. apply leb_B2R in L; auto.
  apply (RND_mono (B2R x1 - B2R y) (B2R x2 - B2R y)); try (apply sub_RND; auto).
  lra.
Qed.

Lemma sub_antimono_r (x y1 y2 : float) :
  finite x -> finite y1 -> finite y2 ->
  (y1 <=? y2) = true -> (x - y2 <=? x - y1) = true.
Proof.
  intros Fx F1 F2 L. apply leb_B2R in L; auto.
  apply (RND_mono (B2R x - B2R y2) (B2R x - B2R y1)); try (apply sub_RND; auto).
  lra.
Qed.

(** X20. [calculateBeta1] never increases with the concrete strength:
    fc1 <= fc2 implies beta1(fc2) <= beta1(fc1), rounding included. *)
Theorem calculateBeta1_antitone (fc1 fc2 : float) :
  (fc1 <=? fc2) = true ->
  (calculateBeta1 fc2 <=? calculateBeta1 fc1) = true.
Proof.
  intros L. destruct (leb_not_nan _ _ L) as [N1 N2].
  pose proof (calculateBeta1_spec fc1) as S1. rewrite N1 in S1.
  pose proof (calculateBeta1_spec fc2) as S2. rewrite N2 in S2.
  apply andb_true_iff in S1, S2. destruct S1 as [L1 U1], S2 as [L2 U2].
  destruct (fc1 <=? 4000) eqn:C1.
  { unfold calculateBeta1 at 2. rewrite C1. exact U2. }
  apply leb_false_ltb in C1; auto.
  assert (C2 : (4000 <? fc2) = true) by (apply ltb_leb_ltb with fc1; assumption).
  destruct (float_class fc2) as [N|[->|[->|F2]]]; [congruence| | |].
  - change (calculateBeta1 infinity) with 0.65. exact L1.
  - discriminate.
  - assert (F1 : finite fc1).
    { apply (between_finite 4000 _ fc2); auto using ltb_leb. exact I. }
    B2R_const 4000 V4 F4. B2R_const 1000 V1 F1000. B2R_const 0.05 V5 F5.
    B2R_const 0.85 V85 F85.
    assert (R1 : (B2R 4000 < B2R fc1)%R) by (apply ltb_B2R; auto).
    assert (R2 : (B2R 4000 < B2R fc2)%R) by (apply ltb_B2R; auto).
    destruct (beta1_steps fc1 F1 R1) as (A1 & A2 & A3 & _).
    destruct (beta1_steps fc2 F2 R2) as (B1 & B2 & B3 & _).
    unfold calculateBeta1.
    rewrite (ltb_asym _ _ C1), (ltb_asym _ _ C2).
    apply Math_max_mono_l; [|reflexivity].
    apply sub_antimono_r; auto.
    apply mul_mono_r; auto; [lra|].
    apply div_mono_l; auto; [lra|].
    apply sub_mono_l; auto.
Qed.

Lemma calculatePhi_mono (et1 et2 ey : float) :
  finite ey -> (et1 <=? et2) = true ->
  (calculatePhi et1 ey <=? calculatePhi et2 ey) = true.
Proof.
  intros Fy L.
  destruct (leb_not_nan _ _ L) as [N1 N2].
  pose proof (finite_not_nan ey Fy) as Ny.
  assert (NN : forall et, is_nan et = false -> is_nan (calculatePhi et ey) = false).
  { intros et N. destruct (is_nan (calculatePhi et ey)) eqn:E; [|reflexivity].
    apply (proj2 (calculatePhi_spec et ey)) in E.
    destruct E as [E|[_ [E|[E _]]]]; try congruence.
    subst ey. destruct Fy. }
  assert (RG : forall et, is_nan et = false ->
               (0.65 <=? calculatePhi et ey) = true
               /\ (calculatePhi et ey <=? 0.90) = true).
  { intros et N. destruct (proj1 (calculatePhi_spec et ey)) as [E|E].
    - rewrite NN in E by exact N. discriminate.
    - apply andb_true_iff in E. exact E. }
  destruct (RG et1 N1) as [Lo1 Hi1]. destruct (RG et2 N2) as [Lo2 Hi2].
  destruct (0.005 <=? et2) eqn:G2.
  { unfold calculatePhi at 2. unfold JS.geb. rewrite G2. exact Hi1. }
  assert (G2' : (et2 <? 0.005) = true) by (apply leb_false_ltb; auto).
  assert (G1' : (et1 <? 0.005) = true) by (apply leb_ltb_trans with et2; auto).
  destruct (et1 <=? ey) eqn:C1.
  { unfold calculatePhi at 1. unfold JS.geb.
    rewrite (ltb_asym _ _ G1'), C1. exact Lo2. }
  assert (C1' : (ey <? et1) = true) by (apply leb_false_ltb; auto).
  assert (C2' : (ey <? et2) = true) by (apply ltb_leb_ltb with et1; auto).
  B2R_const 0.005 V5 F5. B2R_const 0.25 V25 F25. B2R_const 0.65 V65 F65.
  assert (F1 : finite et1).
  { apply (between_finite ey _ 0.005); auto using ltb_leb. }
  assert (F2 : finite et2).
  { apply (between_finite ey _ 0.005); auto using ltb_leb. }
  destruct (phi_interpolation_parts et1 ey F1 Fy) as (A1 & A2 & A3 & A4 & _);
    try (apply ltb_B2R; auto).
  destruct (phi_interpolation_parts et2 ey F2 Fy) as (B1 & B2 & B3 & B4 & _);
    try (apply ltb_B2R; auto).
  unfold calculatePhi, JS.geb.
  rewrite (ltb_asym _ _ G1'), (ltb_asym _ _ G2'),
    (ltb_asym _ _ C1'), (ltb_asym _ _ C2').
  apply add_mono_r; auto.
  apply div_mono_l; auto.
  apply mul_mono_r; auto; [lra|].
  apply sub_mono_l; auto.
Qed.

(** X21. For a finite yield strain, [calculatePhi] never decreases with
    the tension strain: epsilon_t1 <= epsilon_t2 implies
    phi(epsilon_t1) <= phi(epsilon_t2), across the three branches and the
    rounding of the interpolation. *)
Theorem calculatePhi_monotone (et1 et2 ey : float) :
  isFinite ey = true -> (et1 <=? et2) = true ->
  (calculatePhi et1 ey <=? calculatePhi et2 ey) = true.
Proof.
  intros Fy L. apply isFinite_finite in Fy.
  apply calculatePhi_mono; assumption.
Qed.

(** X24. In a result of [analyzeBeam] with a finite d, a finite product
    As * fy that is not negative, and a stress block with 0 <= a and
    a / 2 <= d, the nominal capacity lies between zero and As * fy * d. *)
Theorem nominal_capacity_bounds (input : BeamInput) :
  let r := analyzeBeam toFixed input in
  isFinite (input.(As) * input.(fy)) = true ->
  (0 <=? input.(As) * input.(fy)) = true ->
  isFinite input.(d) = true ->
  (0 <=? r.(a)) = true -> (r.(a) / 2 <=? input.(d)) = true ->
  (0 <=? r.(Mn)) = true
  /\ (r.(Mn) <=? input.(As) * input.(fy) * input.(d)) = true.
Proof.
  intros r Fp Pp Fd Pa Ha. subst r. cbn [analyzeBeam Mn a] in *.
  unfold calculateMn.
  set (av := calculateStressBlockDepth _ _ _ _) in *.
  set (p := As input * fy input) in *.
  apply isFinite_finite in Fp, Fd.
  B2R_const 2 V2 F2.
  pose proof (nonneg_real p Fp Pp) as Rp.
  assert (H0 : (0 <=? av / 2) = true) by (apply div_nonneg; auto; lra).
  assert (Fh : finite (av / 2)) by (apply (between_finite 0 _ (d input)); auto; exact I).
  pose proof (nonneg_real _ Fh H0) as Rh0.
  assert (Rhd : (B2R (av / 2) <= B2R (d input))%R) by (apply leb_B2R; auto).
  assert (Rt : RND (B2R (d input) - B2R (av / 2)) (d input - av / 2))
    by (apply sub_RND; auto).
  assert (Ft : finite (d input - av / 2)).
  { apply (RND_finite _ _ 0 (d input) Rt); auto; try exact I.
    rewrite B2R_zero. lra. }
  assert (T0 : (0 <= B2R (d input - av / 2))%R).
  { apply (RND_nonneg _ _ Rt); auto. lra. }
  assert (Td : (d input - av / 2 <=? d input) = true).
  { apply (RND_le _ _ _ Rt); auto. lra. }
  split.
  - apply (RND_ge (B2R p * B2R (d input - av / 2)));
      [apply mul_RND; auto|exact I|].
    rewrite B2R_zero. nra.
  - apply mul_mono_r; auto.
Qed.

(** For a neutral axis that is not below the steel, the tension strain never
    increases with the depth of the axis. *)
Lemma tension_strain_antitone (d c1 c2 : float) :
  finite d -> (c1 <=? c2) = true -> (c2 <=? d) = true ->
  (calculateTensionStrain d c2 EPSILON_CU
   <=? calculateTensionStrain d c1 EPSILON_CU) = true.
Proof.
  intros Fd L12 L2d. unfold calculateTensionStrain, EPSILON_CU.
  destruct (leb_not_nan _ _ L12) as [N1 N2].
  destruct (c2 <=? 0) eqn:Z2.
  { rewrite (leb_trans _ _ _ L12 Z2). reflexivity. }
  assert (P2 : (0 <? c2) = true) by (apply leb_false_ltb; auto).
  assert (F2 : finite c2).
  { apply (between_finite 0 _ d); auto using ltb_leb; exact I. }
  pose proof (pos_real c2 F2 P2) as R2.
  assert (R2d : (B2R c2 <= B2R d)%R) by (apply leb_B2R; auto).
  B2R_const 0.003 V3 F3.
  assert (S : forall c : float, finite c -> (0 < B2R c <= B2R d)%R ->
              finite (d - c) /\ (0 <= B2R (d - c))%R
              /\ finite (0.003 * (d - c)) /\ (0 <= B2R (0.003 * (d - c)))%R).
  { intros c Fc [Pc Lc].
    assert (Rt : RND (B2R d - B2R c) (d - c)) by (apply sub_RND; auto).
    assert (Ft : finite (d - c)).
    { apply (RND_finite _ _ 0 d Rt); auto; try exact I. rewrite B2R_zero. lra. }
    assert (T0 : (0 <= B2R (d - c))%R) by (apply (RND_nonneg _ _ Rt); auto; lra).
    assert (Td : (B2R (d - c) <= B2R d)%R).
    { apply (RND_le_R _ _ _ Rt); auto. lra. }
    assert (Ru : RND (B2R 0.003 * B2R (d - c)) (0.003 * (d - c)))
      by (apply mul_RND; auto).
    assert (Fu : finite (0.003 * (d - c))).
    { apply (RND_finite _ _ 0 d Ru); auto; try exact I.
      rewrite B2R_zero, V3. lra. }
    assert (U0 : (0 <= B2R (0.003 * (d - c)))%R).
    { apply (RND_nonneg _ _ Ru); auto. rewrite V3. lra. }
    auto. }
  destruct (S c2 F2 ltac:(lra)) as (Ft2 & T2 & Fu2 & U2).
  assert (Q2 : RND (B2R (0.003 * (d - c2)) / B2R c2) (0.003 * (d - c2) / c2))
    by (apply div_RND; auto; lra).
  destruct (c1 <=? 0) eqn:Z1.
  { apply leb_infinity. apply (RND_not_nan _ _ Q2). }
  assert (P1 : (0 <? c1) = true) by (apply leb_false_ltb; auto).
  assert (F1 : finite c1).
  { apply (between_finite 0 _ c2); auto using ltb_leb; exact I. }
  pose proof (pos_real c1 F1 P1) as R1.
  assert (R12 : (B2R c1 <= B2R c2)%R) by (apply leb_B2R; auto).
  destruct (S c1 F1 ltac:(lra)) as (Ft1 & T1 & Fu1 & U1).
  assert (Q1 : RND (B2R (0.003 * (d - c1)) / B2R c1) (0.003 * (d - c1) / c1))
    by (apply div_RND; auto; lra).
  assert (M : (0.003 * (d - c2) <=? 0.003 * (d - c1)) = true).
  { apply mul_mono_r; auto; [lra|]. apply sub_antimono_r; auto. }
  apply leb_B2R in M; auto.
  apply (RND_mono _ _ _ _ Q2 Q1).
  assert (I1 : (0 < / B2R c1)%R) by (apply Rinv_0_lt_compat; lra).
  assert (I2 : (0 < / B2R c2)%R) by (apply Rinv_0_lt_compat; lra).
  assert (I12 : (/ B2R c2 <= / B2R c1)%R) by (apply Rinv_le_contravar; lra).
  unfold Rdiv. nra.
Qed.

(** X25. More tension steel never raises the strain or the
    strength reduction factor: for two inputs that differ only in a finite
    steel area As1 <= As2 (and in h, d_prime, As_prime), with fy finite and
    not negative, 0.85 * fc * b finite and positive, a finite d and yield
    strain, and the deeper neutral axis still not below the steel
    (c2 <= d), the results satisfy epsilon_t2 <= epsilon_t1 and
    phi2 <= phi1. *)
Theorem more_steel_lower_phi (i1 i2 : BeamInput) :
  let r1 := analyzeBeam toFixed i1 in
  let r2 := analyzeBeam toFixed i2 in
  i1.(b) = i2.(b) -> i1.(d) = i2.(d) -> i1.(fc) = i2.(fc) ->
  i1.(fy) = i2.(fy) -> i1.(Es) = i2.(Es) ->
  isFinite i1.(As) = true -> isFinite i2.(As) = true ->
  isFinite i1.(fy) = true -> (0 <=? i1.(fy)) = true ->
  isFinite (0.85 * i1.(fc) * i1.(b)) = true ->
  (0 <? 0.85 * i1.(fc) * i1.(b)) = true ->
  (i1.(As) <=? i2.(As)) = true ->
  isFinite i1.(d) = true -> (r2.(c) <=? i2.(d)) = true ->
  isFinite r1.(epsilon_y) = true ->
  (r2.(epsilon_t) <=? r1.(epsilon_t)) = true
  /\ (r2.(phi) <=? r1.(phi)) = true.
Proof.
  intros r1 r2 Eb Ed Efc Efy EEs F1 F2 Fy Py FD PD L Fd Hc Fe. subst r1 r2.
  cbn [analyzeBeam epsilon_t phi c epsilon_y] in *.
  rewrite <- Eb, <- Ed, <- Efc, <- Efy, <- EEs in *.
  apply isFinite_finite in F1, F2, Fy, FD, Fd, Fe.
  destruct (depths_mono _ _ _ _ _ F1 F2 Fy Py FD PD L) as [_ C].
  pose proof (tension_strain_antitone _ _ _ Fd C Hc) as T.
  split; [exact T|]. apply calculatePhi_mono; assumption.
Qed.

End RangeFacts.

Section Sketch.

Variable Math_round : float -> float.

Lemma sub_finite_r (x y : float) :
  is_nan x = false -> finite y -> is_nan (x - y) = false.
Proof.
  intros N F. destruct (float_class x) as [N'|[->|[->|Fx]]]; [congruence| | |].
  - unfold finite in F. rewrite is_nan_SF, sub_spec.
    change (Prim2SF infinity) with (S754_infinity false).
    destruct (Prim2SF y) as [|[|]| |]; try contradiction; reflexivity.
  - unfold finite in F. rewrite is_nan_SF, sub_spec.
    change (Prim2SF neg_infinity) with (S754_infinity true).
    destruct (Prim2SF y) as [|[|]| |]; try contradiction; reflexivity.
  - apply (RND_not_nan _ _ (sub_RND x y Fx F)).
Qed.

Lemma div_pos_not_nan (x y : float) :
  is_nan x = false -> finite y -> (0 < B2R y)%R -> is_nan (x / y) = false.
Proof.
  intros N F P.
  pose proof (div_mono_l x x y F P (leb_refl x N)) as H.
  apply leb_not_nan in H. tauto.
Qed.

(** X18. The divisor numBars - 1 of the bar spacing in
    BeamVisualization.tsx lies between 1 and 4 whenever Math.round(As / 0.5)
    is a number, so the spacing never divides by zero; for a finite beam
    width and As >= 0 the spacing is not NaN. *)
Theorem barSpacing_divisor (beamW As : float) :
  is_nan (Math_round (As / 0.5)) = false ->
  (1 <=? numBars Math_round As - 1) = true
  /\ (numBars Math_round As - 1 <=? 4) = true
  /\ (isFinite beamW = true -> (0 <=? As) = true ->
      is_nan (barSpacing Math_round beamW As) = false).
Proof.
  intros Nr. unfold barSpacing.
  B2R_const 1 V1 F1. B2R_const 2 V2 F2. B2R_const 4 V4 F4.
  B2R_const 5 V5 F5. B2R_const 10 V10 F10. B2R_const 20 V20 F20.
  assert (Bn : finite (numBars Math_round As)
               /\ (2 <= B2R (numBars Math_round As) <= 5)%R).
  { unfold numBars. set (r := Math_round (As / 0.5)) in *.
    destruct (Math_max_cases 2 r eq_refl Nr) as (_ & A1 & _).
    destruct (leb_not_nan _ _ A1) as [_ Nm].
    destruct (Math_min_cases 5 (JS.Math_max 2 r) eq_refl Nm) as ([E|E] & B1 & B2).
    - rewrite E. split; [exact F5|lra].
    - rewrite E in *.
      assert (F : finite (JS.Math_max 2 r))
        by (apply (between_finite 2 _ 5); auto).
      split; [exact F|]. split.
      + apply leb_B2R in A1; auto. lra.
      + apply leb_B2R in B1; auto. lra. }
  destruct Bn as [Fn Rn]. set (n := numBars Math_round As) in *.
  assert (R : RND (B2R n - B2R 1) (n - 1)) by (apply sub_RND; auto).
  assert (D1 : (1 <=? n - 1) = true) by (apply (RND_ge _ _ _ R); auto; lra).
  assert (D4 : (n - 1 <=? 4) = true) by (apply (RND_le _ _ _ R); auto; lra).
  split; [exact D1|]. split; [exact D4|].
  intros Fw P. apply isFinite_finite in Fw.
  assert (Fd : finite (n - 1)) by (apply (between_finite 1 _ 4); auto).
  assert (Pd : (0 < B2R (n - 1))%R).
  { apply leb_B2R in D1; auto. lra. }
  apply div_pos_not_nan; auto.
  apply sub_finite_r; auto.
  assert (Nb : is_nan (barRadius As) = false).
  { unfold barRadius. rewrite Math_max_nan, Math_min_nan.
    change (is_nan 4) with false. change (is_nan 10) with false. cbn [orb].
    unfold JS.Math_sqrt.
    pose proof (mul_nonneg' (sqrt As) 4 (sqrt_nonneg As P) F4 ltac:(lra)) as H.
    apply leb_not_nan in H. tauto. }
  assert (Fb : finite (barRadius As)).
  { unfold barRadius in *. set (y := JS.Math_sqrt As * 4) in *.
    rewrite Math_max_nan in Nb. change (is_nan 4) with false in Nb.
    cbn [orb] in Nb. rewrite Math_min_nan in Nb.
    change (is_nan 10) with false in Nb. cbn [orb] in Nb.
    destruct (Math_min_cases 10 y eq_refl Nb) as (_ & A1 & _).
    destruct (leb_not_nan _ _ A1) as [Nm _].
    destruct (Math_max_cases 4 (Math_min 10 y) eq_refl Nm) as ([E|E] & B1 & _).
    - rewrite E. exact F4.
    - rewrite E. apply (between_finite 4 _ 10); auto. rewrite <- E. exact B1. }
  apply (RND_not_nan (B2R beamW - B2R (2 * barRadius As))).
  apply sub_RND; auto.
  pose proof (finite_bound (barRadius As) Fb) as Bb.
  assert (R2 : RND (B2R 2 * B2R (barRadius As)) (2 * barRadius As))
    by (apply mul_RND; auto).
  assert (U : (barRadius As <=? 10) = true).
  { unfold barRadius in *. set (y := JS.Math_sqrt As * 4) in *.
    rewrite Math_max_nan in Nb. change (is_nan 4) with false in Nb.
    cbn [orb] in Nb. rewrite Math_min_nan in Nb.
    change (is_nan 10) with false in Nb. cbn [orb] in Nb.
    destruct (Math_min_cases 10 y eq_refl Nb) as (_ & A1 & _).
    destruct (leb_not_nan _ _ A1) as [Nm _].
    destruct (Math_max_cases 4 (Math_min 10 y) eq_refl Nm) as ([E|E] & _ & _);
      rewrite E; [reflexivity|exact A1]. }
  assert (L : (4 <=? barRadius As) = true).
  { unfold barRadius in *. set (y := JS.Math_sqrt As * 4) in *.
    rewrite Math_max_nan in Nb. change (is_nan 4) with false in Nb.
    cbn [orb] in Nb.
    destruct (Math_max_cases 4 (Math_min 10 y) eq_refl Nb) as (_ & B1 & _).
    exact B1. }
  apply leb_B2R in U; auto. apply leb_B2R in L; auto.
  apply (RND_finite _ _ 0 20 R2); auto; try exact I.
  rewrite B2R_zero, V2, V20. lra.
Qed.

End Sketch.

(** * Edge cases of the required-steel solver *)

Section SolverFacts.

Variable toFixed : float -> nat -> string.

Lemma zero_leb_zero (x : float) :
  (x <=? 0) = true -> (0 <=? x) = true -> is_zero x = true.
Proof.
  rewrite !FloatAxioms.leb_spec, is_zero_SF.
  change (Prim2SF 0) with (S754_zero false).
  destruct (Prim2SF x) as [s|[|]| |[|] m e]; cbn; congruence.
Qed.

Lemma is_zero_finite (x : float) : is_zero x = true -> finite x.
Proof.
  rewrite is_zero_SF. unfold finite.
  destruct (Prim2SF x); try discriminate. intros _. exact I.
Qed.

Lemma mul_zero_l (z x : float) :
  is_zero z = true -> finite x -> is_zero (z * x) = true.
Proof.
  rewrite !is_zero_SF, mul_spec. unfold finite.
  destruct (Prim2SF z); try discriminate.
  destruct (Prim2SF x); try contradiction; reflexivity.
Qed.

Lemma div_nonpos (x y : float) :
  finite y -> (0 < B2R y)%R -> (x <=? 0) = true -> (x / y <=? 0) = true.
Proof.
  intros Fy Py L.
  apply leb_trans with (0 / y); [apply div_mono_l; auto|].
  apply (RND_le (B2R 0 / B2R y)); [apply div_RND; auto; try exact I; lra|exact I|].
  rewrite B2R_zero. unfold Rdiv. lra.
Qed.

Lemma mul_pos_nonpos (x y : float) :
  finite x -> (0 <= B2R x)%R -> (y <=? 0) = true ->
  is_nan (x * y) = true \/ (x * y <=? 0) = true.
Proof.
  intros Fx Px L. destruct (leb_not_nan _ _ L) as [N _].
  destruct (float_class y) as [N'|[->|[->|F]]]; [congruence| | |].
  - discriminate.
  - unfold finite, B2R in *. rewrite is_nan_SF, FloatAxioms.leb_spec, mul_spec.
    change (Prim2SF neg_infinity) with (S754_infinity true).
    destruct (Prim2SF x) as [s|s| |s m e]; try contradiction.
    + left. reflexivity.
    + right. rewrite SF2R_finite in Px. pose proof (F2R_pos m e).
      destruct s; [lra|reflexivity].
  - right. assert (Ry : (B2R y <= 0)%R).
    { rewrite <- B2R_zero. apply leb_B2R; auto; exact I. }
    apply (RND_le (B2R x * B2R y)); [apply mul_RND; auto|exact I|].
    rewrite B2R_zero. nra.
Qed.

Lemma one_minus_nonpos (u : float) : (u <=? 0) = true -> (1 <=? 1 - u) = true.
Proof.
  intros L. destruct (leb_not_nan _ _ L) as [N _].
  B2R_const 1 V1 F1.
  destruct (float_class u) as [N'|[->|[->|F]]]; [congruence| | |].
  - discriminate.
  - reflexivity.
  - assert (Ru : (B2R u <= 0)%R).
    { rewrite <- B2R_zero. apply leb_B2R; auto; exact I. }
    apply (RND_ge (B2R 1 - B2R u)); [apply sub_RND; auto|exact F1|lra].
Qed.

Lemma sqrt_ge_one (x : float) : (1 <=? x) = true -> (1 <=? sqrt x) = true.
Proof.
  intros L. destruct (leb_not_nan _ _ L) as [_ N].
  B2R_const 1 V1 F1.
  destruct (float_class x) as [N'|[->|[->|F]]]; [congruence| | |].
  - reflexivity.
  - discriminate.
  - change ((sqrt 1 <=? sqrt x) = true). apply sqrt_mono; auto.
    apply leb_B2R in L; auto. lra.
Qed.

Lemma one_minus_ge_one (s : float) : (1 <=? s) = true -> (1 - s <=? 0) = true.
Proof.
  intros L. destruct (leb_not_nan _ _ L) as [_ N].
  B2R_const 1 V1 F1.
  destruct (float_class s) as [N'|[->|[->|F]]]; [congruence| | |].
  - reflexivity.
  - discriminate.
  - apply leb_B2R in L; auto.
    apply (RND_le (B2R 1 - B2R s)); [apply sub_RND; auto|exact I|].
    rewrite B2R_zero. lra.
Qed.

(** X22. A valid result of [calculateRequiredSteel] for a finite positive
    width and depth never carries a negative or NaN steel area:
    As_required >= 0. *)
Theorem calculateRequiredSteel_valid_area (Mu b d fc fy : float) :
  let r := calculateRequiredSteel toFixed Mu b d fc fy in
  isFinite b = true -> (0 <? b) = true ->
  isFinite d = true -> (0 <? d) = true ->
  r.(isValid) = true ->
  (0 <=? r.(As_required)) = true.
Proof.
  intros r Fb Pb Fd Pd. subst r. unfold calculateRequiredSteel.
  apply isFinite_finite in Fb, Fd.
  destruct (JS.isNaN (required_rho Mu b d fc fy)
            || (required_rho Mu b d fc fy <? 0)) eqn:G;
    [cbn; discriminate|].
  apply orb_false_elim in G. destruct G as [N L]. unfold JS.isNaN in N.
  assert (Z : (0 <=? required_rho Mu b d fc fy) = true)
    by (apply ltb_false_leb; auto).
  destruct (_ >? _); cbn [isValid As_required]; [discriminate|]. intros _.
  apply mul_nonneg'; auto using pos_real.
  apply mul_nonneg'; auto using pos_real.
Qed.

(** X23. For a moment that is not positive and a section whose
    intermediate products 0.9 * b * d * d, 0.85 * fc and 0.85 * fc / fy are
    finite (the first two positive, the third not negative), the radicand of
    [calculateRequiredSteel] is at least 1, rho_required is NaN or not
    positive, and the returned steel area is always zero: either with the
    message that the section cannot carry the moment, or from a
    rho_required that is zero. *)
Theorem calculateRequiredSteel_nonpositive_moment (Mu b d fc fy : float) :
  let r := calculateRequiredSteel toFixed Mu b d fc fy in
  (Mu <=? 0) = true ->
  isFinite b = true -> isFinite d = true ->
  isFinite (0.9 * b * d * d) = true -> (0 <? 0.9 * b * d * d) = true ->
  isFinite (0.85 * fc) = true -> (0 <? 0.85 * fc) = true ->
  isFinite (0.85 * fc / fy) = true -> (0 <=? 0.85 * fc / fy) = true ->
  (1 <=? required_radicand Mu b d fc) = true
  /\ (is_nan (required_rho Mu b d fc fy) = true
      \/ (required_rho Mu b d fc fy <=? 0) = true)
  /\ is_zero r.(As_required) = true
  /\ (r.(message) = msg_cannot_carry
      \/ is_zero (required_rho Mu b d fc fy) = true).
Proof.
  intros r LM Fb Fd FD PD FF PF FK PK. subst r.
  apply isFinite_finite in Fb, Fd, FD, FF, FK.
  B2R_const 2 V2 F2.
  assert (Rn : (required_R_n Mu b d <=? 0) = true).
  { unfold required_R_n. cbn zeta. apply div_nonpos; auto using pos_real. }
  assert (T : (2 * required_R_n Mu b d <=? 0) = true).
  { destruct (mul_pos_nonpos 2 _ F2 ltac:(lra) Rn) as [H|H]; [|exact H].
    exfalso. destruct (leb_not_nan _ _ Rn) as [N _].
    destruct (float_class (required_R_n Mu b d)) as [N'|[E|[E|F]]];
      [congruence| | |].
    - rewrite E in Rn. discriminate.
    - rewrite E in H. discriminate.
    - rewrite (RND_not_nan _ _ (mul_RND _ _ F2 F)) in H. discriminate. }
  assert (U : (2 * required_R_n Mu b d / (0.85 * fc) <=? 0) = true).
  { apply div_nonpos; auto using pos_real. }
  assert (Rad : (1 <=? required_radicand Mu b d fc) = true).
  { unfold required_radicand. apply one_minus_nonpos, U. }
  assert (W : (1 - JS.Math_sqrt (required_radicand Mu b d fc) <=? 0) = true).
  { apply one_minus_ge_one. unfold JS.Math_sqrt. apply sqrt_ge_one, Rad. }
  assert (Rho : is_nan (required_rho Mu b d fc fy) = true
                \/ (required_rho Mu b d fc fy <=? 0) = true).
  { unfold required_rho. apply mul_pos_nonpos; auto using nonneg_real. }
  split; [exact Rad|]. split; [exact Rho|].
  unfold calculateRequiredSteel.
  destruct (JS.isNaN (required_rho Mu b d fc fy)
            || (required_rho Mu b d fc fy <? 0)) eqn:G.
  { cbn [As_required isValid message]. split; [reflexivity|left; reflexivity]. }
  apply orb_false_elim in G. destruct G as [N L]. unfold JS.isNaN in N.
  destruct Rho as [H|H]; [congruence|].
  assert (Z : is_zero (required_rho Mu b d fc fy) = true).
  { apply zero_leb_zero; [exact H|]. apply ltb_false_leb; auto. }
  assert (ZA : is_zero (required_rho Mu b d fc fy * b * d) = true).
  { apply mul_zero_l; auto. apply mul_zero_l; auto. }
  destruct (_ >? _); cbn [As_required]; split; auto.
Qed.

End SolverFacts.

Lemma block_depth_error_implies_axis_error_witness :
  let r := analyzeBeam toFixed_positional input_deep in
  (r.(c) >=? input_deep.(d)) = true
  /\ In msg_block_depth r.(warnings) /\ In msg_neutral_axis r.(warnings).
Proof.
  apply (block_depth_error_implies_axis_error toFixed_positional input_deep);
    vm_compute; reflexivity.
Defined.

Lemma design_capacity_within_nominal_witness :
  let r := analyzeBeam toFixed_positional DEFAULT_BEAM_INPUT in
  (0 <=? r.(phiMn)) = true /\ (r.(phiMn) <=? r.(Mn)) = true
  /\ (0 <=? r.(phiMn_kip_ft)) = true
  /\ (r.(phiMn_kip_ft) <=? r.(Mn_kip_ft)) = true.
Proof.
  apply (design_capacity_within_nominal toFixed_positional DEFAULT_BEAM_INPUT);
    vm_compute; reflexivity.
Defined.

Lemma axis_error_is_compression_controlled_witness :
  let r := analyzeBeam toFixed_positional input_deep in
  (r.(epsilon_t) <=? 0) = true
  /\ r.(steelYields) = false
  /\ r.(sectionType) = CompressionControlled
  /\ r.(phi) = 0.65
  /\ In msg_no_yield r.(warnings) /\ In msg_compression r.(warnings).
Proof.
  apply (axis_error_is_compression_controlled toFixed_positional input_deep);
    vm_compute; reflexivity.
Defined.

Lemma more_steel_deeper_neutral_axis_witness :
  let r1 := analyzeBeam toFixed_positional DEFAULT_BEAM_INPUT in
  let r2 := analyzeBeam toFixed_positional input_more_steel in
  (r1.(a) <=? r2.(a)) = true /\ (r1.(c) <=? r2.(c)) = true.
Proof.
  apply (more_steel_deeper_neutral_axis toFixed_positional
           DEFAULT_BEAM_INPUT input_more_steel);
    vm_compute; reflexivity.
Defined.

Lemma rho_max_against_balanced_witness :
  let r := analyzeBeam toFixed_positional DEFAULT_BEAM_INPUT in
  ((r.(epsilon_y) <=? 0.004) = true -> (r.(rho_max) <=? r.(rho_b)) = true)
  /\ ((0.004 <=? r.(epsilon_y)) = true -> (r.(rho_b) <=? r.(rho_max)) = true).
Proof.
  apply (rho_max_against_balanced toFixed_positional DEFAULT_BEAM_INPUT);
    vm_compute; reflexivity.
Defined.

Lemma calculateRhoMin_positive_witness :
  (is_nan (calculateRhoMin 4000 60000) = true <->
   is_nan 4000 = true \/ (4000 <? 0) = true)
  /\ ((0 <=? 4000) = true ->
      (0 <? calculateRhoMin 4000 60000) = true
      /\ (200 / 60000 <=? calculateRhoMin 4000 60000) = true
      /\ (3 * JS.Math_sqrt 4000 / 60000 <=? calculateRhoMin 4000 60000) = true).
Proof.
  apply (calculateRhoMin_positive 4000 60000); vm_compute; reflexivity.
Defined.

Lemma calculateBeta1_antitone_witness :
  (calculateBeta1 6000 <=? calculateBeta1 5000) = true.
Proof. apply (calculateBeta1_antitone 5000 6000). vm_compute. reflexivity. Defined.

Lemma calculatePhi_monotone_witness :
  (calculatePhi 0.003 0.002 <=? calculatePhi 0.004 0.002) = true.
Proof.
  apply (calculatePhi_monotone 0.003 0.004 0.002); vm_compute; reflexivity.
Defined.

Lemma calculateRequiredSteel_valid_area_witness :
  (0 <=? As_required
           (calculateRequiredSteel toFixed_positional 2000000 12 21.5 4000 60000))
  = true.
Proof.
  apply (calculateRequiredSteel_valid_area toFixed_positional
           2000000 12 21.5 4000 60000);
    vm_compute; reflexivity.
Defined.

Lemma calculateRequiredSteel_nonpositive_moment_witness :
  let r := calculateRequiredSteel toFixed_positional (-1000000) 12 21.5 4000 60000 in
  (1 <=? required_radicand (-1000000) 12 21.5 4000) = true
  /\ (is_nan (required_rho (-1000000) 12 21.5 4000 60000) = true
      \/ (required_rho (-1000000) 12 21.5 4000 60000 <=? 0) = true)
  /\ is_zero r.(As_required) = true
  /\ (r.(message) = msg_cannot_carry
      \/ is_zero (required_rho (-1000000) 12 21.5 4000 60000) = true).
Proof.
  apply (calculateRequiredSteel_nonpositive_moment toFixed_positional
           (-1000000) 12 21.5 4000 60000);
    vm_compute; reflexivity.
Defined.

Lemma nominal_capacity_bounds_witness :
  let r := analyzeBeam toFixed_positional DEFAULT_BEAM_INPUT in
  (0 <=? r.(Mn)) = true
  /\ (r.(Mn) <=? DEFAULT_BEAM_INPUT.(As) * DEFAULT_BEAM_INPUT.(fy)
                    * DEFAULT_BEAM_INPUT.(d)) = true.
Proof.
  apply (nominal_capacity_bounds toFixed_positional DEFAULT_BEAM_INPUT);
    vm_compute; reflexivity.
Defined.

Lemma more_steel_lower_phi_witness :
  let r1 := analyzeBeam toFixed_positional DEFAULT_BEAM_INPUT in
  let r2 := analyzeBeam toFixed_positional input_more_steel in
  (r2.(epsilon_t) <=? r1.(epsilon_t)) = true
  /\ (r2.(phi) <=? r1.(phi)) = true.
Proof.
  apply (more_steel_lower_phi toFixed_positional
           DEFAULT_BEAM_INPUT input_more_steel);
    vm_compute; reflexivity.
Defined.

Lemma barSpacing_divisor_witness :
  (1 <=? numBars Math_round_half_up 3 - 1) = true
  /\ (numBars Math_round_half_up 3 - 1 <=? 4) = true
  /\ (isFinite 120 = true -> (0 <=? 3) = true ->
      is_nan (barSpacing Math_round_half_up 120 3) = false).
Proof.
  apply (barSpacing_divisor Math_round_half_up 120 3). vm_compute. reflexivity.
Defined.

(** * The input form *)

Section FormFacts.

Variable toFixed : float -> nat -> string.

Lemma js_or_not_nan (x y : float) : is_nan y = false -> is_nan (js_or x y) = false.
Proof.
  intros N. unfold js_or. destruct (is_nan x) eqn:Nx; cbn [orb]; [exact N|].
  destruct (is_zero x); assumption.
Qed.

Lemma js_or_falsy (x y : float) :
  is_nan x = true \/ is_zero x = true -> js_or x y = y.
Proof.
  unfold js_or. intros [H|H]; rewrite H; [reflexivity|].
  now rewrite orb_true_r.
Qed.

Lemma falsy_not_positive (x : float) :
  is_nan x = true \/ is_zero x = true -> (x >? 0) = false.
Proof.
  intros [H|H]; unfold JS.gtb.
  - destruct (0 <? x) eqn:L; [|reflexivity].
    apply ltb_not_nan in L. destruct L. congruence.
  - rewrite is_zero_SF in H. rewrite FloatAxioms.ltb_spec.
    destruct (Prim2SF x); try discriminate. reflexivity.
Qed.

(** X19. One [onChange] of InputForm.tsx on a field, with [parsed] the
    result of parseFloat: the other eight fields keep their values; the
    stored value is NaN only for fc and fy, and only when [parsed] is NaN;
    when [parsed] is NaN or zero, the gate of App.tsx drops the results for
    b, h, d, As, fc and fy, Es is stored as 29000000, and d_prime and
    As_prime are stored as 0 without changing the result of the engine. *)
Theorem form_entry_sanitised (input : BeamInput) (field : Field) (parsed : float) :
  let input' := onChange_field input field parsed in
  (forall g, g <> field -> get_field g input' = get_field g input)
  /\ (is_nan (get_field field input') = true <->
      (field = F_fc \/ field = F_fy) /\ is_nan parsed = true)
  /\ (is_nan parsed = true \/ is_zero parsed = true ->
      match field with
      | F_b | F_h | F_d | F_As | F_fc | F_fy =>
          App_results toFixed input' = None
      | F_Es => input' = handleChange input F_Es 29000000
      | F_d_prime | F_As_prime =>
          get_field field input' = 0
          /\ analyzeBeam toFixed input' = analyzeBeam toFixed input
      end).
Proof.
  cbn zeta. split; [|split].
  - intros g Hg. destruct field, g; try reflexivity; congruence.
  - pose proof (js_or_not_nan parsed 0 eq_refl) as N0.
    pose proof (js_or_not_nan parsed 29000000 eq_refl) as N1.
    destruct field; cbn [onChange_field handleChange get_field b h d d_prime
                         fc fy Es As As_prime];
      rewrite ?N0, ?N1;
      (split; [try discriminate; auto | intros [[E|E] N]; try discriminate E; auto]).
  - intros F. pose proof (js_or_falsy parsed 0 F) as E0.
    pose proof (js_or_falsy parsed 29000000 F) as E1.
    pose proof (falsy_not_positive parsed F) as P.
    destruct field; unfold onChange_field; rewrite ?E0, ?E1;
      try reflexivity;
      try (split; reflexivity);
      unfold App_results;
      cbn [handleChange b h d d_prime fc fy Es As As_prime];
      rewrite ?P; change (0 >? 0) with false;
      rewrite ?andb_false_r; reflexivity.
Qed.

End FormFacts.
